(** * sqlscope: the DDL catalog builder and the query structural extractors

    A shallow embedding of [sqlscope/catalog/builder/sql.py] and
    [sqlscope/query/extractors.py].

    - [PyStr]      the Python string operations the sources use;
    - [Sqlglot]    the part of sqlglot's [Expression] interface the sources call;
    - [Catalog]    the Catalog data model ([sqlscope/catalog/catalog.py]);
    - [Builder]    [sql.py], function by function;
    - [Ddl]        the shape of the tree sqlglot's parser builds for a
                   CREATE TABLE statement, from a description of the statement;
    - [Sqlparse]   the part of sqlparse's token interface [extractors.py] calls;
    - [Extractors] [extractors.py]: [remove_ctes] over a store of objects,
                   [extract_subqueries_tokens], [extract_functions] and
                   [extract_comparisons] over token trees,
                   [extract_subqueries_ast];
    - [Postgres]   [build_catalog] of [sqlscope/catalog/builder/postgres.py].

    The theorems follow the definitions: the traversals of sqlglot
    ([SqlglotFacts], [DdlFacts], [DdlTraversal]), the builder on one statement
    and on a list of statements ([BuilderFacts], [CatalogFacts],
    [BuilderStatements], [BuilderClaims], [BuilderInvariants],
    [BuilderOutcomes], [BuilderNames]), [remove_ctes] ([RemoveCtes],
    [RemoveCtesRendering]), the subquery walk ([SubqueryFacts],
    [SubqueryClaims], [SubqueryTermination], [SubqueryDepths],
    [SubqueryAbsence], [SubqueryTuples]), the other extractors
    ([TokenExtractors], [SubqueriesAst]) and [build_catalog]
    ([PostgresFacts]). *)

From Stdlib Require Import String Ascii List ZArith Lia Bool.
From stdpp Require Import gmap strings list.
Import ListNotations.

Local Open Scope string_scope.
Local Open Scope list_scope.
Set Warnings "-register-all".

(* ===================================================================== *)
(** ** Python strings *)
(* ===================================================================== *)

(** Strings are byte strings; the case mappings and the whitespace class are
    Python's on the ASCII range and the identity elsewhere. *)
Module PyStr.

Definition lower_char (c : ascii) : ascii :=
  let n := nat_of_ascii c in
  if (65 <=? n)%nat && (n <=? 90)%nat then ascii_of_nat (n + 32) else c.

Definition upper_char (c : ascii) : ascii :=
  let n := nat_of_ascii c in
  if (97 <=? n)%nat && (n <=? 122)%nat then ascii_of_nat (n - 32) else c.

(** [str.lower] and [str.upper]. *)
Fixpoint lower (s : string) : string :=
  match s with
  | EmptyString => EmptyString
  | String c r => String (lower_char c) (lower r)
  end.

Fixpoint upper (s : string) : string :=
  match s with
  | EmptyString => EmptyString
  | String c r => String (upper_char c) (upper r)
  end.

(** [str.isspace] on one character: tab, line feed, vertical tab, form feed,
    carriage return, the four separators 28..31 and the space. *)
Definition is_space (c : ascii) : bool :=
  let n := nat_of_ascii c in
  ((9 <=? n)%nat && (n <=? 13)%nat) || ((28 <=? n)%nat && (n <=? 32)%nat).

Fixpoint lstrip_chars (l : list ascii) : list ascii :=
  match l with
  | c :: r => if is_space c then lstrip_chars r else l
  | [] => []
  end.

Definition rstrip_chars (l : list ascii) : list ascii :=
  rev (lstrip_chars (rev l)).

(** [str.strip()] with no argument. *)
Definition strip (s : string) : string :=
  string_of_list_ascii (rstrip_chars (lstrip_chars (list_ascii_of_string s))).

(** [s.startswith(c)] and [s.endswith(c)] for a one-character [c]. *)
Definition startswith_char (s : string) (c : ascii) : bool :=
  match list_ascii_of_string s with
  | x :: _ => if ascii_dec x c then true else false
  | [] => false
  end.

Definition endswith_char (s : string) (c : ascii) : bool :=
  match rev (list_ascii_of_string s) with
  | x :: _ => if ascii_dec x c then true else false
  | [] => false
  end.

(** The slice [s[1:-1]]. *)
Definition slice_1_m1 (s : string) : string :=
  string_of_list_ascii (removelast (tl (list_ascii_of_string s))).

Definition is_digit (c : ascii) : bool :=
  let n := nat_of_ascii c in (48 <=? n)%nat && (n <=? 57)%nat.

Definition digit_val (c : ascii) : Z := Z.of_nat (nat_of_ascii c - 48).

(** The digits of a decimal integer literal as [int(str)] reads them: digit
    groups joined by single underscores. [after_digit] says that the previous
    character was a digit. *)
Fixpoint int_digits (acc : Z) (after_digit : bool) (l : list ascii) : option Z :=
  match l with
  | [] => if after_digit then Some acc else None
  | c :: r =>
      if is_digit c then int_digits (acc * 10 + digit_val c)%Z true r
      else if ascii_dec c "_"%char
           then (if after_digit
                 then match r with [] => None | _ => int_digits acc false r end
                 else None)
           else None
  end.

(** [int(s)] in base 10: surrounding whitespace, an optional sign, digits.
    [None] stands for [ValueError]. *)
Definition py_int (s : string) : option Z :=
  match list_ascii_of_string (strip s) with
  | c :: r =>
      if ascii_dec c "-"%char then option_map Z.opp (int_digits 0 false r)
      else if ascii_dec c "+"%char then int_digits 0 false r
      else int_digits 0 false (c :: r)
  | [] => None
  end.

(** Truth value of a [str]. *)
Definition truthy (s : string) : bool :=
  match s with EmptyString => false | _ => true end.

(** [c in chars]. *)
Definition in_chars (chars : string) (c : ascii) : bool :=
  existsb (fun x => if ascii_dec x c then true else false) (list_ascii_of_string chars).

Fixpoint lstrip_in (chars : string) (l : list ascii) : list ascii :=
  match l with
  | c :: r => if in_chars chars c then lstrip_in chars r else l
  | [] => []
  end.

(** [s.strip(chars)]: the characters of [chars] removed at both ends. *)
Definition strip_of (chars : string) (s : string) : string :=
  string_of_list_ascii
    (rev (lstrip_in chars (rev (lstrip_in chars (list_ascii_of_string s))))).

(** [s.split(sep)] for a one-character [sep]: the pieces between the
    separators, empty ones kept; one empty piece for the empty string. *)
Fixpoint split_on (sep : ascii) (s : string) : list string :=
  match s with
  | EmptyString => [EmptyString]
  | String c r =>
      if ascii_dec c sep then EmptyString :: split_on sep r
      else match split_on sep r with
           | w :: ws => String c w :: ws
           | [] => [String c EmptyString]
           end
  end.

(** [sep.join(l)]. *)
Fixpoint join (sep : string) (l : list string) : string :=
  match l with
  | [] => EmptyString
  | [x] => x
  | x :: r => String.append x (String.append sep (join sep r))
  end.

End PyStr.

(* ===================================================================== *)
(** ** sqlglot expressions *)
(* ===================================================================== *)

(** The values an [Expression]'s [args] dictionary holds, and the accessors of
    [sqlglot.expressions.Expression] that [sql.py] and [extractors.py] call.
    An [isinstance] test is a test on the node's class. *)
Module Sqlglot.

Inductive ExpClass :=
| Create | Schema | Table | Identifier | ColumnDef | DataType | DataTypeParam
| ColumnConstraint | PrimaryKeyColumnConstraint | UniqueColumnConstraint
| NotNullColumnConstraint | AutoIncrementColumnConstraint
| Reference | PrimaryKey | ForeignKey | Constraint | Ordered | Column | Literal
| Var | Star | Null | Select | With | CTE | From | Subquery | Drop | Insert.

#[global] Instance ExpClass_eq_dec : EqDecision ExpClass.
Proof. solve_decision. Defined.

(** A Python value: [None], a [bool], a [str], a member of the enumeration
    [DataType.Type] (by its [value]), a [list], or an [Expression] with its
    class and its [args] in insertion order. *)
Inductive Value :=
| VNone
| VBool (b : bool)
| VStr (s : string)
| VEnum (value : string)
| VList (vs : list Value)
| VExp (cls : ExpClass) (args : list (string * Value)).

(** [dict.get]: the value under [key], [None] when the key is absent. *)
Fixpoint get (args : list (string * Value)) (key : string) : Value :=
  match args with
  | [] => VNone
  | (k, v) :: r => if String.eqb k key then v else get r key
  end.

Definition args_of (e : Value) : list (string * Value) :=
  match e with VExp _ args => args | _ => [] end.

(** [e.args.get(key)]. *)
Definition arg (e : Value) (key : string) : Value := get (args_of e) key.

Definition isinstance (v : Value) (cls : ExpClass) : bool :=
  match v with
  | VExp c _ => bool_decide (c = cls)
  | _ => false
  end.

(** [hasattr(v, "parent")]: [v] is an [Expression]. *)
Definition is_expression (v : Value) : bool :=
  match v with VExp _ _ => true | _ => false end.

(** [Expression.this]. *)
Definition this (e : Value) : Value := arg e "this".

(** [Expression.expressions]: [self.args.get("expressions") or []]. *)
Definition expressions (e : Value) : list Value :=
  match arg e "expressions" with VList vs => vs | _ => [] end.

(** [ColumnDef.constraints]: [self.args.get("constraints") or []]. *)
Definition constraints (e : Value) : list Value :=
  match arg e "constraints" with VList vs => vs | _ => [] end.

(** The [kind] property of [Create], [ColumnDef] and [ColumnConstraint]. *)
Definition kind (e : Value) : Value := arg e "kind".

Definition str_of (v : Value) : string :=
  match v with VStr s => s | _ => "" end.

(** [Expression.text(key)]: the string under [key], or the [this] of an
    [Identifier], [Literal] or [Var] there, or the name of a [Star] or a
    [Null]; the empty string otherwise. *)
Definition text (e : Value) (key : string) : string :=
  match arg e key with
  | VStr s => s
  | VExp Identifier a | VExp Literal a | VExp Var a => str_of (get a "this")
  | VExp Star _ => "*"
  | VExp Null _ => "NULL"
  | _ => ""
  end.

(** [Expression.name] is [self.text("this")]. *)
Definition name (e : Value) : string := text e "this".

(** [Identifier.quoted] is [bool(self.args.get("quoted"))]. *)
Definition quoted (e : Value) : bool :=
  match arg e "quoted" with
  | VBool b => b
  | VNone => false
  | VStr s => PyStr.truthy s
  | VList vs => match vs with [] => false | _ => true end
  | _ => true
  end.

(** [Table.db] is [self.text("db")]: a [str], never a node. *)
Definition db (e : Value) : string := text e "db".

(** [Literal.is_int]: a number literal whose text [int] accepts. *)
Definition is_int (e : Value) : bool :=
  match e with
  | VExp Literal a =>
      match get a "is_string" with
      | VBool false | VNone =>
          match PyStr.py_int (name e) with Some _ => true | None => false end
      | _ => false
      end
  | _ => false
  end.

(** [Expression.iter_expressions]: the child expressions, over the values of
    [args] in order; a list contributes the expressions it holds. *)
Definition value_children (v : Value) : list Value :=
  match v with
  | VList vs => List.filter is_expression vs
  | VExp _ _ => [v]
  | _ => []
  end.

Definition iter_expressions (e : Value) : list Value :=
  flat_map (fun kv => value_children (snd kv)) (args_of e).

(** Number of values in a tree: the fuel of a traversal. *)
Fixpoint size (v : Value) : nat :=
  match v with
  | VList vs => S (list_sum (List.map size vs))
  | VExp _ a => S (list_sum (List.map (fun kv => size (snd kv)) a))
  | _ => 1
  end.

(** [Expression.bfs]: pop the head of the queue, yield it, push its children
    at the back. *)
Fixpoint bfs_queue (fuel : nat) (queue : list Value) : list Value :=
  match fuel with
  | 0 => []
  | S fuel' =>
      match queue with
      | [] => []
      | node :: rest => node :: bfs_queue fuel' (rest ++ iter_expressions node)
      end
  end.

(** [Expression.walk(bfs=True)]. *)
Definition walk (e : Value) : list Value := bfs_queue (size e) [e].

(** [Expression.find_all(cls)]: the nodes of class [cls], breadth first. *)
Definition find_all (e : Value) (cls : ExpClass) : list Value :=
  List.filter (fun n => isinstance n cls) (walk e).

(** [Expression.find(cls)]: the first of [find_all], or [None]. *)
Definition find (e : Value) (cls : ExpClass) : Value :=
  match find_all e cls with
  | n :: _ => n
  | [] => VNone
  end.

(** The expressions under a value, root first, depth first; a list inside a
    list is not entered. *)
Fixpoint exprs (in_list : bool) (v : Value) : list Value :=
  match v with
  | VExp _ a => v :: flat_map (fun kv => exprs false (snd kv)) a
  | VList vs => if in_list then [] else flat_map (exprs true) vs
  | _ => []
  end.

Definition subnodes (v : Value) : list Value := exprs false v.

(** The nodes of class [cls] in a forest. *)
Definition nodes_of (cls : ExpClass) (q : list Value) : list Value :=
  List.filter (fun n => isinstance n cls) (flat_map subnodes q).

Definition forest_size (q : list Value) : nat := list_sum (List.map size q).

(** A text of blanks only: spaces, tabs, line feeds and carriage returns,
    the characters sqlglot's tokenizer skips. *)
Definition blank (sql : string) : bool :=
  forallb (fun c => existsb (fun n => (nat_of_ascii c =? n)%nat) [32; 9; 10; 13])
    (list_ascii_of_string sql).

End Sqlglot.

(* ===================================================================== *)
(** ** The Catalog data model *)
(* ===================================================================== *)

Module Catalog.

(** Modelled from the spec: [ConstraintType] of [sqlscope/catalog/constraint.py],
    the two kinds of a unique constraint. *)
Inductive ConstraintType := PRIMARY_KEY | UNIQUE.

#[global] Instance ConstraintType_eq_dec : EqDecision ConstraintType.
Proof. solve_decision. Defined.

(** Modelled from the spec: the [Column] of [sqlscope/catalog/catalog.py], with
    the attributes [add_column] receives. *)
Record Column := {
  name : string;
  column_type : string;
  real_name : string;
  numeric_precision : option Z;
  numeric_scale : option Z;
  is_nullable : bool;
  fk_schema : option string;
  fk_table : option string;
  fk_column : option string
}.

(** Modelled from the spec: the [UniqueConstraint] of
    [sqlscope/catalog/catalog.py], an unordered set of column names and a kind. *)
Record UniqueConstraint := {
  columns : gset string;
  constraint_type : ConstraintType
}.

(** Modelled from the spec: the [Table] of [sqlscope/catalog/catalog.py], its
    columns in insertion order and its constraints as appended. *)
Record Table := {
  table_columns : list Column;
  unique_constraints : list UniqueConstraint
}.

Definition empty_table : Table :=
  {| table_columns := []; unique_constraints := [] |}.

(** Modelled from the spec: the [Schema] and [Catalog] ordered mappings of
    [sqlscope/catalog/catalog.py], as association lists in insertion order. *)
Definition Schema := list (string * Table).
Definition Catalog := list (string * Schema).

(** A method call on a table reached as [catalog[schema][table]]. *)
Inductive Call :=
| AddColumn (schema_name table_name : string) (c : Column)
| AddUniqueConstraint (schema_name table_name : string)
    (cols : gset string) (ct : ConstraintType).

Fixpoint lookup {A} (m : list (string * A)) (key : string) : option A :=
  match m with
  | [] => None
  | (k, v) :: r => if String.eqb k key then Some v else lookup r key
  end.

(** Modelled from the spec: the auto-vivifying lookup of
    [sqlscope/catalog/catalog.py] followed by an update of the entry: an
    absent key is created, at the end, from [dflt]. *)
Fixpoint update {A} (dflt : A) (f : A -> A) (m : list (string * A)) (key : string)
  : list (string * A) :=
  match m with
  | [] => [(key, f dflt)]
  | (k, v) :: r =>
      if String.eqb k key then (k, f v) :: r else (k, v) :: update dflt f r key
  end.

Definition on_table (f : Table -> Table) (cat : Catalog) (schema_name table_name : string)
  : Catalog :=
  update [] (fun sch => update empty_table f sch table_name) cat schema_name.

(** Modelled from the spec: [Table.add_column] of [sqlscope/catalog/catalog.py]
    appends a column, with no check for a duplicate name. *)
Definition add_column (c : Column) (t : Table) : Table :=
  {| table_columns := table_columns t ++ [c];
     unique_constraints := unique_constraints t |}.

(** Modelled from the spec: [Table.add_unique_constraint] of
    [sqlscope/catalog/catalog.py] appends a constraint, with no deduplication. *)
Definition add_unique_constraint (cols : gset string) (ct : ConstraintType) (t : Table)
  : Table :=
  {| table_columns := table_columns t;
     unique_constraints :=
       unique_constraints t ++ [{| columns := cols; constraint_type := ct |}] |}.

Definition apply_call (cat : Catalog) (c : Call) : Catalog :=
  match c with
  | AddColumn s t col => on_table (add_column col) cat s t
  | AddUniqueConstraint s t cols ct => on_table (add_unique_constraint cols ct) cat s t
  end.

(** The catalog a sequence of calls leaves, from the empty [Catalog()]. *)
Definition replay (calls : list Call) : Catalog := fold_left apply_call calls [].

(** [catalog[schema][table]] read without creating anything. *)
Definition table_of (cat : Catalog) (schema_name table_name : string) : option Table :=
  match lookup cat schema_name with
  | Some sch => lookup sch table_name
  | None => None
  end.

(** The constraints of a table that have kind [ct]. *)
Definition constraints_of_type (ct : ConstraintType) (t : Table) : list UniqueConstraint :=
  List.filter (fun u => bool_decide (constraint_type u = ct)) (unique_constraints t).

(** The table a call is made on. *)
Definition targets (s t : string) (c : Call) : bool :=
  match c with
  | AddColumn s' t' _ | AddUniqueConstraint s' t' _ _ => String.eqb s' s && String.eqb t' t
  end.

(** The method a call runs on its table. *)
Definition apply_to_table (tbl : Table) (c : Call) : Table :=
  match c with
  | AddColumn _ _ col => add_column col tbl
  | AddUniqueConstraint _ _ cols ct => add_unique_constraint cols ct tbl
  end.



(** The columns of a catalog as [(schema, table, column)] names. *)
Definition column_paths (cat : Catalog) : list (string * string * string) :=
  flat_map (fun ssch =>
    flat_map (fun ttbl =>
      List.map (fun col => (fst ssch, fst ttbl, name col)) (table_columns (snd ttbl)))
      (snd ssch)) cat.

(** The foreign-key reference of a column is whole: schema, table and column
    are all present or all absent. *)
Definition reference_whole (c : Column) : bool :=
  match fk_schema c, fk_table c, fk_column c with
  | Some _, Some _, Some _ | None, None, None => true
  | _, _, _ => false
  end.

(** The schema and the table a call is made on. *)
Definition call_target (c : Call) : string * string :=
  match c with
  | AddColumn s t _ | AddUniqueConstraint s t _ _ => (s, t)
  end.

End Catalog.

(* ===================================================================== *)
(** ** sqlscope/catalog/builder/sql.py *)
(* ===================================================================== *)

Module Builder.
Import Sqlglot.

(** The exceptions the builder can end in. *)
Inductive PyError :=
| AssertionError (msg : string)
| AttributeError
| IndexError
| ParseError.

Inductive result (A : Type) :=
| Ok (a : A)
| Raise (e : PyError).
Arguments Ok {A} a.
Arguments Raise {A} e.

#[global] Instance result_ret : MRet result := fun A a => Ok a.
#[global] Instance result_bind : MBind result := fun A B k r =>
  match r with
  | Ok a => k a
  | Raise e => Raise e
  end.

(** [assert cond, msg]. *)
Definition assert (cond : bool) (msg : string) : result unit :=
  if cond then Ok tt else Raise (AssertionError msg).

(** A list comprehension whose body may raise. *)
Fixpoint mapM {A B} (f : A -> result B) (l : list A) : result (list B) :=
  match l with
  | [] => Ok []
  | x :: r => y ← f x; ys ← mapM f r; Ok (y :: ys)
  end.

(** A [for] loop over [l] that updates the state [s]. *)
Fixpoint foldM {S A} (body : S -> A -> result S) (l : list A) (s : S) : result S :=
  match l with
  | [] => Ok s
  | x :: r => s' ← body s x; foldM body r s'
  end.

(** A foreign-key reference [(schema, table, column)]. *)
Abbreviation FkRef := (string * string * string)%type.

Section Generator.

(** [sql_of] is sqlglot's SQL generator, which [str] applies to an
    expression. *)
Variable sql_of : Value -> string.

(** [str(v)]. *)
Definition py_str (v : Value) : string :=
  match v with
  | VStr s => s
  | VNone => "None"
  | VBool true => "True"
  | VBool false => "False"
  | _ => sql_of v
  end.

(** An attribute of an [Expression], read on [v]: [AttributeError] when [v] is
    no expression. *)
Definition on_expression {A} (v : Value) (k : result A) : result A :=
  match v with
  | VExp _ _ => k
  | _ => Raise AttributeError
  end.

(** [c.kind], a property of [ColumnConstraint], [ColumnDef] and [Create]. *)
Definition get_kind (c : Value) : result Value :=
  match c with
  | VExp ColumnConstraint _ | VExp ColumnDef _ | VExp Create _ => Ok (kind c)
  | _ => Raise AttributeError
  end.

Definition _get_identifier_name (identifier_exp : Value) : result string :=
  match identifier_exp with
  | VExp Identifier _ =>
      if quoted identifier_exp then Ok (Sqlglot.name identifier_exp)
      else Ok (PyStr.lower (Sqlglot.name identifier_exp))
  | _ => Raise AttributeError
  end.

Definition _get_table_name (table_exp : Value) : result string :=
  if isinstance (this table_exp) Identifier
  then _get_identifier_name (this table_exp)
  else Ok (PyStr.lower (py_str (this table_exp))).

(** [table_exp.db] is the string [Table.db] returns. *)
Definition _get_schema_name (table_exp : Value) (default_schema : string) : result string :=
  let table_db := VStr (db table_exp) in
  if PyStr.truthy (db table_exp) then
    if isinstance table_db Identifier
    then _get_identifier_name table_db
    else Ok (PyStr.lower (py_str table_db))
  else Ok default_schema.

Definition _get_column_name (column_exp : Value) : result string :=
  if isinstance (this column_exp) Identifier
  then _get_identifier_name (this column_exp)
  else Ok (PyStr.lower (py_str (this column_exp))).

Definition numeric_types : list string := ["DECIMAL"; "NUMERIC"; "NUMBER"; "FLOAT"].

Definition in_strings (s : string) (l : list string) : bool :=
  existsb (String.eqb s) l.

(** [int(e.name)] under the guard [isinstance(e, Literal) and e.is_int]. *)
Definition literal_int (e : Value) : option Z :=
  if isinstance e Literal && is_int e then PyStr.py_int (Sqlglot.name e) else None.

Definition _extract_datatype (column_exp : Value)
  : result (string * option Z * option Z) :=
  let datatype_exp := kind column_exp in
  _ ← assert (isinstance datatype_exp DataType)
         "Expected DataType expression in ColumnDef";
  datatype ← match this datatype_exp with
              | VEnum value => Ok value
              | _ => Raise AttributeError
              end;
  let args := expressions datatype_exp in
  let in_family :=
    match args with [] => false | _ => in_strings datatype numeric_types end in
  let numeric_precision :=
    if in_family && (1 <=? length args)%nat
    then match args with precision_exp :: _ => literal_int precision_exp | [] => None end
    else None in
  let numeric_scale :=
    if in_family && (length args =? 2)%nat
    then match args with _ :: scale_exp :: _ => literal_int scale_exp | _ => None end
    else None in
  Ok (datatype, numeric_precision, numeric_scale).

(** [any(isinstance(c.kind, cls) for c in cs)]: stops at the first hit. *)
Fixpoint any_kind (cls : ExpClass) (cs : list Value) : result bool :=
  match cs with
  | [] => Ok false
  | c :: r =>
      k ← get_kind c;
      if isinstance k cls then Ok true else any_kind cls r
  end.

(** [next((c for c in cs if isinstance(c.kind, cls)), None)]. *)
Fixpoint first_kind (cls : ExpClass) (cs : list Value) : result Value :=
  match cs with
  | [] => Ok VNone
  | c :: r =>
      k ← get_kind c;
      if isinstance k cls then Ok c else first_kind cls r
  end.

Definition is_none (v : Value) : bool :=
  match v with VNone => true | _ => false end.

(** The column definition carries an inline PRIMARY KEY marker (line 131). *)
Definition has_inline_primary_key (column_exp : Value) : bool :=
  match any_kind PrimaryKeyColumnConstraint (Sqlglot.constraints column_exp) with
  | Ok true => true
  | _ => false
  end.

(** No column definition of the statement carries an inline PRIMARY KEY
    marker and the statement has no table-level PRIMARY KEY node. *)
Definition no_primary_key (statement : Value) : bool :=
  forallb (fun c => negb (has_inline_primary_key c)) (find_all statement ColumnDef)
  && is_none (find statement PrimaryKey).


(** Lines 103-124, the body of the loop over the table-level FOREIGN KEY
    nodes: [fks[fk_col_name] = (ref_schema_name, ref_table_name, ref_col_name)]
    for the zipped column names. *)
Definition scan_foreign_key (search_path : string)
    (fks : gmap string FkRef) (fk_exp : Value) : result (gmap string FkRef) :=
  fk_column_names ← mapM _get_identifier_name (expressions fk_exp);
  let ref_exp := find fk_exp Reference in
  _ ← assert (negb (is_none ref_exp))
         "Expected Reference expression in Foreign Key definition";
  let ref_schema_exp := this ref_exp in
  _ ← assert (isinstance ref_schema_exp Schema)
         "Expected Schema expression in Foreign Key reference";
  let ref_table_exp := this ref_schema_exp in
  _ ← assert (isinstance ref_table_exp Table)
         "Expected Table expression in Foreign Key reference";
  ref_schema_name ← _get_schema_name ref_table_exp search_path;
  ref_table_name ← _get_table_name ref_table_exp;
  ref_column_names ← mapM _get_identifier_name (expressions ref_schema_exp);
  Ok (fold_left
        (fun m '(fk_col_name, ref_col_name) =>
           <[fk_col_name := (ref_schema_name, ref_table_name, ref_col_name)]> m)
        (combine fk_column_names ref_column_names) fks).


(** The per-table working state: the two accumulators and the calls made on
    the catalog so far. *)
Record TableState := {
  pk_col_names : gset string;
  unique_col_names : list (gset string);
  calls : list Catalog.Call
}.

(** Lines 143-167: the foreign key of one column. *)
Definition resolve_foreign_key (search_path : string) (fks : gmap string FkRef)
    (column_exp : Value) (column_name : string)
  : result (option string * option string * option string) :=
  fk_constraint ← first_kind Reference (Sqlglot.constraints column_exp);
  if negb (is_none fk_constraint) then
    fk_reference ← get_kind fk_constraint;
    _ ← assert (isinstance fk_reference Reference)
           "Expected Reference expression in Foreign Key constraint";
    let fk_schema_exp := this fk_reference in
    _ ← assert (isinstance fk_schema_exp Schema)
           "Expected Schema expression in Foreign Key constraint";
    let fk_table_exp := this fk_schema_exp in
    _ ← assert (isinstance fk_table_exp Table)
           "Expected Table expression in Foreign Key constraint";
    fk_schema_name ← _get_schema_name fk_table_exp search_path;
    fk_table_name ← _get_table_name fk_table_exp;
    fk_column_exp ← match expressions fk_schema_exp with
                     | e :: _ => Ok e
                     | [] => Raise IndexError
                     end;
    _ ← assert (isinstance fk_column_exp Identifier)
           "Expected Identifier expression in Foreign Key column";
    fk_column_name ← _get_identifier_name fk_column_exp;
    Ok (Some fk_schema_name, Some fk_table_name, Some fk_column_name)
  else
    match fks !! column_name with
    | Some (fk_schema_name, fk_table_name, fk_column_name) =>
        Ok (Some fk_schema_name, Some fk_table_name, Some fk_column_name)
    | None => Ok (None, None, None)
    end.

(** Lines 127-182, the body of the loop over the column definitions. *)
Definition process_column (search_path schema_name table_name : string)
    (fks : gmap string FkRef) (st : TableState) (column_exp : Value)
  : result TableState :=
  column_name ← _get_column_name column_exp;
  is_pk ← any_kind PrimaryKeyColumnConstraint (Sqlglot.constraints column_exp);
  let pks := if (is_pk : bool) then pk_col_names st ∪ {[column_name]} else pk_col_names st in
  is_unique ← any_kind UniqueColumnConstraint (Sqlglot.constraints column_exp);
  let uqs :=
    if (is_unique : bool) then unique_col_names st ++ [{[column_name]}]
    else unique_col_names st in
  is_not_null ← any_kind NotNullColumnConstraint (Sqlglot.constraints column_exp);
  '(fk_schema_name, fk_table_name, fk_column_name) ←
    resolve_foreign_key search_path fks column_exp column_name;
  '(column_type, numeric_precision, numeric_scale) ← _extract_datatype column_exp;
  Ok {| pk_col_names := pks;
        unique_col_names := uqs;
        calls := calls st ++
          [Catalog.AddColumn schema_name table_name
             {| Catalog.name := column_name;
                Catalog.column_type := column_type;
                Catalog.real_name := column_name;
                Catalog.numeric_precision := numeric_precision;
                Catalog.numeric_scale := numeric_scale;
                Catalog.is_nullable := negb is_not_null;
                Catalog.fk_schema := fk_schema_name;
                Catalog.fk_table := fk_table_name;
                Catalog.fk_column := fk_column_name |}] |}.

(** Lines 186-190, the body of the loop over the table-level PRIMARY KEY
    node's expressions. *)
Definition add_primary_key_part (pks : gset string) (ordered_exp : Value)
  : result (gset string) :=
  on_expression ordered_exp (
    let col_exp := find ordered_exp Column in
    _ ← assert (negb (is_none col_exp))
           "Expected Column expression in Primary Key definition";
    col_name ← _get_column_name col_exp;
    Ok (pks ∪ {[col_name]})).

(** Lines 193-201, the body of the loop over the UNIQUE nodes. *)
Definition add_unique (uqs : list (gset string)) (unique_exp : Value)
  : result (list (gset string)) :=
  let unique_schema_exp := this unique_exp in
  _ ← assert (isinstance unique_schema_exp Schema)
         "Expected Schema expression in Unique constraint";
  unique_column_names ←
    foldM (fun acc col_id_exp =>
             col_name ← _get_identifier_name col_id_exp;
             Ok (acc ∪ {[col_name]}))
          (expressions unique_exp) (∅ : gset string);
  Ok (uqs ++ [unique_column_names]).

(** Lines 71-217, the body of the loop over the statements: the calls it adds
    to [log], the calls made on the catalog before it. *)
Definition build_table (search_path : string) (log : list Catalog.Call) (statement : Value)
  : result (list Catalog.Call) :=
  let table_exp := find statement Table in
  _ ← assert (negb (is_none table_exp))
         "Expected Table expression in CREATE TABLE statement";
  table_name ← _get_table_name table_exp;
  schema_name ← _get_schema_name table_exp search_path;
  let column_exps := find_all statement ColumnDef in
  let pk_exp := find statement PrimaryKey in
  let fk_exps := find_all statement ForeignKey in
  let unique_exps := find_all statement UniqueColumnConstraint in
  fks ← foldM (scan_foreign_key search_path) fk_exps ∅;
  st ← foldM (process_column search_path schema_name table_name fks) column_exps
          {| pk_col_names := ∅; unique_col_names := []; calls := log |};
  pks ← (if negb (is_none pk_exp)
          then foldM add_primary_key_part (expressions pk_exp) (pk_col_names st)
          else Ok (pk_col_names st));
  uqs ← foldM add_unique unique_exps (unique_col_names st);
  _ ← assert (negb (bool_decide (pks = ∅)))
         "Primary Key columns should have been identified";
  Ok (calls st
        ++ [Catalog.AddUniqueConstraint schema_name table_name pks Catalog.PRIMARY_KEY]
        ++ List.map (fun unique_col_name_set =>
                  Catalog.AddUniqueConstraint schema_name table_name unique_col_name_set Catalog.UNIQUE)
               uqs).

(** Line 66, the filter on one parsed statement:
    [isinstance(stmt, exp.Create) and stmt.kind and stmt.kind.upper() == 'TABLE']. *)
Definition is_create_table (stmt : Value) : result bool :=
  if isinstance stmt Create then
    match kind stmt with
    | VStr s => Ok (PyStr.truthy s && String.eqb (PyStr.upper s) "TABLE")
    | VNone | VBool false | VList [] => Ok false
    | _ => Raise AttributeError
    end
  else Ok false.

Fixpoint filterM {A} (p : A -> result bool) (l : list A) : result (list A) :=
  match l with
  | [] => Ok []
  | x :: r =>
      b ← p x;
      ys ← filterM p r;
      Ok (if (b : bool) then x :: ys else ys)
  end.

(** Lines 65-219, on the list [sqlglot.parse] returned. *)
Definition build_catalog_from_statements (statements : list Value) (search_path : string)
  : result Catalog.Catalog :=
  statements ← filterM is_create_table statements;
  log ← foldM (build_table search_path) statements [];
  Ok (Catalog.replay log).

(** [parse] is [sqlglot.parse]: the statements of a text, [None] for an empty
    one, or a [ParseError]. *)
Variable parse : string -> result (list Value).

Definition build_catalog_from_sql (sql_string : string) (search_path : string)
  : result Catalog.Catalog :=
  statements ← parse sql_string;
  build_catalog_from_statements statements search_path.

End Generator.
End Builder.

(* ===================================================================== *)
(** ** The trees of CREATE TABLE statements *)
(* ===================================================================== *)

(** A CREATE TABLE statement as written (its table, and its column
    definitions and table-level constraints in source order), and the tree
    sqlglot's parser builds for it. The parser is outside the repository;
    [create_ast] records the shape of its output that [sql.py] relies on
    ([Reference.this] a [Schema] over a [Table], the parts of a table-level
    PRIMARY KEY as [Ordered] over [Column], and so on). *)
Module Ddl.
Import Sqlglot.

Record Ident := { id_text : string; id_quoted : bool }.

Record TableRef := { tr_name : Ident; tr_db : option Ident }.

(** An argument of a type. The parser puts every argument under a
    [DataTypeParam] ([ArgParam]); [ArgLiteral] is a literal at the place of the
    argument itself, where [_extract_datatype] looks for one. *)
Inductive TypeArg :=
| ArgLiteral (txt : string) (is_string : bool)
| ArgParam (txt : string) (is_string : bool).

Record ColType := { ty_keyword : string; ty_args : list TypeArg }.

Inductive ColConstraint :=
| CPrimaryKey
| CUnique
| CNotNull
| CAutoIncrement
| CReferences (t : TableRef) (col : Ident) (more : list Ident).

Record ColumnSpec := {
  col_name : Ident;
  col_type : ColType;
  col_constraints : list ColConstraint
}.

Inductive TableItem :=
| IColumn (c : ColumnSpec)
| IPrimaryKey (cols : list Ident)
| IForeignKey (cols : list Ident) (t : TableRef) (refs : list Ident)
| IUnique (cols : list Ident).

Record CreateTable := { ct_table : TableRef; ct_items : list TableItem }.

Definition ident_ast (i : Ident) : Value :=
  VExp Identifier [("this", VStr (id_text i)); ("quoted", VBool (id_quoted i))].

Definition table_ast (t : TableRef) : Value :=
  VExp Table [("this", ident_ast (tr_name t));
              ("db", match tr_db t with Some d => ident_ast d | None => VNone end);
              ("catalog", VNone)].

Definition literal_ast (txt : string) (is_string : bool) : Value :=
  VExp Literal [("this", VStr txt); ("is_string", VBool is_string)].

Definition type_arg_ast (a : TypeArg) : Value :=
  match a with
  | ArgLiteral txt s => literal_ast txt s
  | ArgParam txt s => VExp DataTypeParam [("this", literal_ast txt s)]
  end.

Definition type_ast (t : ColType) : Value :=
  VExp DataType
    [("this", VEnum (ty_keyword t));
     ("expressions",
      match ty_args t with [] => VNone | l => VList (List.map type_arg_ast l) end);
     ("nested", VBool false)].

(** A reference [t (c1, c2, ...)]. *)
Definition reference_ast (t : TableRef) (cols : list Ident) : Value :=
  VExp Reference
    [("this", VExp Schema [("this", table_ast t);
                           ("expressions", VList (List.map ident_ast cols))])].

Definition constraint_kind_ast (c : ColConstraint) : Value :=
  match c with
  | CPrimaryKey => VExp PrimaryKeyColumnConstraint []
  | CUnique => VExp UniqueColumnConstraint [("this", VNone)]
  | CNotNull => VExp NotNullColumnConstraint []
  | CAutoIncrement => VExp AutoIncrementColumnConstraint []
  | CReferences t col more => reference_ast t (col :: more)
  end.

Definition constraint_ast (c : ColConstraint) : Value :=
  VExp ColumnConstraint [("this", VNone); ("kind", constraint_kind_ast c)].

Definition column_ast (c : ColumnSpec) : Value :=
  VExp ColumnDef
    [("this", ident_ast (col_name c));
     ("kind", type_ast (col_type c));
     ("constraints", VList (List.map constraint_ast (col_constraints c)))].

Definition ordered_ast (i : Ident) : Value :=
  VExp Ordered [("this", VExp Column [("this", ident_ast i)])].

Definition item_ast (i : TableItem) : Value :=
  match i with
  | IColumn c => column_ast c
  | IPrimaryKey cols =>
      VExp PrimaryKey [("expressions", VList (List.map ordered_ast cols))]
  | IForeignKey cols t refs =>
      VExp ForeignKey [("expressions", VList (List.map ident_ast cols));
                       ("reference", reference_ast t refs)]
  | IUnique cols =>
      VExp UniqueColumnConstraint
        [("this", VExp Schema [("this", VNone);
                               ("expressions", VList (List.map ident_ast cols))])]
  end.

Definition create_ast (d : CreateTable) : Value :=
  VExp Create
    [("this", VExp Schema [("this", table_ast (ct_table d));
                           ("expressions", VList (List.map item_ast (ct_items d)))]);
     ("kind", VStr "TABLE")].

(** *** What the statement says, read off the description *)

(** The identifier normalization of the spec: a quoted identifier as it is,
    an unquoted one in lower case. *)
Definition norm (i : Ident) : string :=
  if id_quoted i then id_text i else PyStr.lower (id_text i).

Definition columns_of (d : CreateTable) : list ColumnSpec :=
  flat_map (fun i => match i with IColumn c => [c] | _ => [] end) (ct_items d).

Definition has_primary_key (c : ColumnSpec) : bool :=
  existsb (fun k => match k with CPrimaryKey => true | _ => false end) (col_constraints c).

Definition has_unique (c : ColumnSpec) : bool :=
  existsb (fun k => match k with CUnique => true | _ => false end) (col_constraints c).

Definition has_not_null (c : ColumnSpec) : bool :=
  existsb (fun k => match k with CNotNull => true | _ => false end) (col_constraints c).

(** The first inline REFERENCES of a column. *)
Definition inline_reference (c : ColumnSpec) : option (TableRef * Ident) :=
  head (flat_map (fun k => match k with CReferences t col _ => [(t, col)] | _ => [] end)
          (col_constraints c)).

(** The names of the columns that carry an inline PRIMARY KEY marker. *)
Definition inline_pk_names (d : CreateTable) : gset string :=
  list_to_set (List.map (fun c => norm (col_name c))
                 (List.filter has_primary_key (columns_of d))).

(** The table-level PRIMARY KEY nodes, in source order. *)
Definition primary_key_items (d : CreateTable) : list (list Ident) :=
  flat_map (fun i => match i with IPrimaryKey cols => [cols] | _ => [] end) (ct_items d).

(** The names listed in the table-level PRIMARY KEY node. *)
Definition table_pk_names (d : CreateTable) : gset string :=
  match primary_key_items d with
  | cols :: _ => list_to_set (List.map norm cols)
  | [] => ∅
  end.

(** The table-level UNIQUE nodes, in source order. *)
Definition unique_items (d : CreateTable) : list (list Ident) :=
  flat_map (fun i => match i with IUnique cols => [cols] | _ => [] end) (ct_items d).

(** The table-level FOREIGN KEY nodes, in source order. *)
Definition foreign_key_items (d : CreateTable)
  : list (list Ident * TableRef * list Ident) :=
  flat_map (fun i => match i with IForeignKey cols t refs => [(cols, t, refs)] | _ => [] end)
    (ct_items d).

(** The schema the builder files a table under: the text of the qualifier in
    lower case, the search path when there is none. *)
Definition resolved_schema (search_path : string) (t : TableRef) : string :=
  match tr_db t with
  | Some i => if PyStr.truthy (id_text i) then PyStr.lower (id_text i) else search_path
  | None => search_path
  end.

Definition resolved_ref (search_path : string) (t : TableRef) (col : Ident)
  : Builder.FkRef :=
  (resolved_schema search_path t, norm (tr_name t), norm col).

(** The entries of one table-level FOREIGN KEY clause: the local columns
    paired by position with the referenced ones. *)
Definition clause_entries (search_path : string)
    (cl : list Ident * TableRef * list Ident) : list (string * Builder.FkRef) :=
  let '(cols, t, refs) := cl in
  List.map (fun cr => (norm (fst cr), resolved_ref search_path t (snd cr)))
    (combine cols refs).

(** The mapping a list of entries leaves when each is stored in turn. *)
Definition store_entries (m : gmap string Builder.FkRef)
    (es : list (string * Builder.FkRef)) : gmap string Builder.FkRef :=
  fold_left (fun m e => <[fst e := snd e]> m) es m.

(** The mapping of the table-level FOREIGN KEY clauses of a statement. *)
Definition fk_map (search_path : string) (d : CreateTable) : gmap string Builder.FkRef :=
  store_entries ∅ (flat_map (clause_entries search_path) (foreign_key_items d)).

Definition arg_int (a : TypeArg) : option Z :=
  match a with
  | ArgLiteral txt false => PyStr.py_int txt
  | _ => None
  end.

Definition type_precision (t : ColType) : option Z :=
  if Builder.in_strings (ty_keyword t) Builder.numeric_types
  then match ty_args t with a :: _ => arg_int a | [] => None end
  else None.

Definition type_scale (t : ColType) : option Z :=
  if Builder.in_strings (ty_keyword t) Builder.numeric_types
  then match ty_args t with [_; b] => arg_int b | _ => None end
  else None.

(** The foreign key of a column: its first inline REFERENCES, else the entry
    of the table-level mapping under its name, else nothing. *)
Definition column_fk (search_path : string) (fks : gmap string Builder.FkRef)
    (c : ColumnSpec) : option string * option string * option string :=
  match inline_reference c with
  | Some (t, col) =>
      (Some (resolved_schema search_path t), Some (norm (tr_name t)), Some (norm col))
  | None =>
      match fks !! norm (col_name c) with
      | Some (s, t, k) => (Some s, Some t, Some k)
      | None => (None, None, None)
      end
  end.

Definition column_of (search_path : string) (fks : gmap string Builder.FkRef)
    (c : ColumnSpec) : Catalog.Column :=
  {| Catalog.name := norm (col_name c);
     Catalog.column_type := ty_keyword (col_type c);
     Catalog.real_name := norm (col_name c);
     Catalog.numeric_precision := type_precision (col_type c);
     Catalog.numeric_scale := type_scale (col_type c);
     Catalog.is_nullable := negb (has_not_null c);
     Catalog.fk_schema := fst (fst (column_fk search_path fks c));
     Catalog.fk_table := snd (fst (column_fk search_path fks c));
     Catalog.fk_column := snd (column_fk search_path fks c) |}.

(** The calls for the columns of a statement, in declaration order. *)
Definition column_calls (search_path : string) (d : CreateTable) : list Catalog.Call :=
  List.map (fun c =>
         Catalog.AddColumn (resolved_schema search_path (ct_table d))
           (norm (tr_name (ct_table d)))
           (column_of search_path (fk_map search_path d) c))
    (columns_of d).

(** The primary key of a statement: inline markers and table-level node. *)
Definition pk_names (d : CreateTable) : gset string :=
  inline_pk_names d ∪ table_pk_names d.

Definition primary_key_call (search_path : string) (d : CreateTable) : Catalog.Call :=
  Catalog.AddUniqueConstraint (resolved_schema search_path (ct_table d))
    (norm (tr_name (ct_table d))) (pk_names d) Catalog.PRIMARY_KEY.

(** The calls for the table-level UNIQUE nodes: one each, on the column set
    the builder reads from the node's own [expressions], which is empty. *)
Definition unique_calls (search_path : string) (d : CreateTable) : list Catalog.Call :=
  List.map (fun _ : list Ident =>
         Catalog.AddUniqueConstraint (resolved_schema search_path (ct_table d))
           (norm (tr_name (ct_table d))) ∅ Catalog.UNIQUE)
    (unique_items d).

(** The calls the builder makes for a statement it accepts. *)
Definition table_calls (search_path : string) (d : CreateTable) : list Catalog.Call :=
  column_calls search_path d ++ [primary_key_call search_path d]
  ++ unique_calls search_path d.

(** What the builder does with a statement. *)
Definition table_outcome (search_path : string) (log : list Catalog.Call) (d : CreateTable)
  : Builder.result (list Catalog.Call) :=
  if existsb has_unique (columns_of d)
  then Builder.Raise (Builder.AssertionError "Expected Schema expression in Unique constraint")
  else if bool_decide (pk_names d = ∅)
  then Builder.Raise (Builder.AssertionError "Primary Key columns should have been identified")
  else Builder.Ok (log ++ table_calls search_path d).

(** *** Where the nodes of a statement's tree are *)

(** The node under the [Create]: the table and the items. *)
Definition schema_node (d : CreateTable) : Value :=
  VExp Schema [("this", table_ast (ct_table d));
               ("expressions", VList (List.map item_ast (ct_items d)))].

(** The nodes below the table and the items. *)
Definition below_items (d : CreateTable) : list Value :=
  List.tl (subnodes (table_ast (ct_table d)))
  ++ flat_map (fun i => List.tl (subnodes (item_ast i))) (ct_items d).

(** The classes of the items of a statement. *)
Definition item_class (cls : ExpClass) : bool :=
  match cls with
  | ColumnDef | PrimaryKey | ForeignKey => true
  | _ => false
  end.

(** The node of an inline UNIQUE marker. *)
Definition inline_unique_node : Value := VExp UniqueColumnConstraint [("this", VNone)].

(** The nodes of the inline UNIQUE markers of a column. *)
Definition inline_unique_nodes (c : ColumnSpec) : list Value :=
  flat_map (fun k => match k with CUnique => [inline_unique_node] | _ => [] end)
    (col_constraints c).

(** The classes met at the items or as an inline UNIQUE marker. *)
Definition searched_class (cls : ExpClass) : bool :=
  match cls with
  | ColumnDef | PrimaryKey | ForeignKey | UniqueColumnConstraint => true
  | _ => false
  end.


(** What the builder does with a sequence of statements, from the calls
    [log] made before. *)
Definition tables_outcome (search_path : string) (log : list Catalog.Call)
    (ds : list CreateTable) : Builder.result (list Catalog.Call) :=
  Builder.foldM (table_outcome search_path) ds log.

(** The statement is one the builder accepts. *)
Definition accepted (d : CreateTable) : bool :=
  negb (existsb has_unique (columns_of d)) && negb (bool_decide (pk_names d = ∅)).



(** *** Statements that differ in the case of unquoted identifiers *)







(** *** Statements that name the schema of every table *)





(** The assertion that fails on a statement the builder does not accept. *)
Definition rejection (d : CreateTable) : Builder.PyError :=
  Builder.AssertionError
    (if existsb has_unique (columns_of d)
     then "Expected Schema expression in Unique constraint"
     else "Primary Key columns should have been identified").

End Ddl.

(* ===================================================================== *)
(** ** sqlparse tokens *)
(* ===================================================================== *)

(** The token trees [sqlparse.parse] returns and the attributes of
    [sqlparse.sql.Token] that [extractors.py] reads. *)
Module Sqlparse.

(** The token types of [sqlparse.tokens]; [Keyword] has the subtypes [DML],
    [DDL], [CTE] and [KeywordOrder], [Whitespace] has [Newline], [Operator]
    has [Comparison]. *)
Inductive TokenType :=
| Keyword | DML | DDL | CTE | KeywordOrder
| Whitespace | Newline
| Operator | Comparison
| Punctuation | Wildcard | Name | Number | StringLiteral | Comment | Error.

#[global] Instance TokenType_eq_dec : EqDecision TokenType.
Proof. solve_decision. Defined.

(** The classes of [sqlparse.sql] that group tokens. *)
Inductive GroupClass :=
| Statement | Parenthesis | Identifier | IdentifierList | Function
| ComparisonGroup | Where | Having | Operation | Values | OtherGroup.

#[global] Instance GroupClass_eq_dec : EqDecision GroupClass.
Proof. solve_decision. Defined.

(** A token: a leaf with its type and text, or a [TokenList] of a class. *)
Inductive Token :=
| Leaf (ttype : TokenType) (value : string)
| Group (cls : GroupClass) (tokens : list Token).

Definition is_group (t : Token) : bool :=
  match t with Group _ _ => true | Leaf _ _ => false end.

(** [getattr(t, 'tokens', [])]. *)
Definition tokens_of (t : Token) : list Token :=
  match t with Group _ ts => ts | Leaf _ _ => [] end.

(** [TokenList.flatten]: the leaves, left to right. *)
Fixpoint flatten (t : Token) : list Token :=
  match t with
  | Leaf _ _ => [t]
  | Group _ ts => flat_map flatten ts
  end.

(** [ttype in T.Keyword]. *)
Definition in_keyword (ty : TokenType) : bool :=
  match ty with
  | Keyword | DML | DDL | CTE | KeywordOrder => true
  | _ => false
  end.

(** [Token.value]; a group's is the text of its leaves. *)
Fixpoint value (t : Token) : string :=
  match t with
  | Leaf _ v => v
  | Group _ ts => fold_right (fun t acc => String.append (value t) acc) EmptyString ts
  end.

(** [Token.normalized]: upper case for a keyword, the value otherwise. *)
Definition normalized (t : Token) : string :=
  match t with
  | Leaf ty v => if in_keyword ty then PyStr.upper v else v
  | Group _ _ => value t
  end.

(** [Token.is_whitespace] is [ttype in T.Whitespace]. *)
Definition is_whitespace (t : Token) : bool :=
  match t with
  | Leaf Whitespace _ | Leaf Newline _ => true
  | _ => false
  end.

(** [t.ttype is ty]; the type of a group is [None]. *)
Definition ttype_is (t : Token) (ty : TokenType) : bool :=
  match t with
  | Leaf ty' _ => bool_decide (ty' = ty)
  | Group _ _ => false
  end.

Definition isinstance (t : Token) (cls : GroupClass) : bool :=
  match t with
  | Group c _ => bool_decide (c = cls)
  | Leaf _ _ => false
  end.

End Sqlparse.

(* ===================================================================== *)
(** ** sqlscope/query/extractors.py *)
(* ===================================================================== *)

Module Extractors.
Import Sqlparse.

(** *** [extract_subqueries_tokens] *)

(** One reported subquery: [(subquery_sql, clause, depth)]. *)
Definition Subquery : Type := string * string * nat.

Definition _has_select_inside (group : Token) : bool :=
  existsb (fun t => ttype_is t DML && String.eqb (normalized t) "SELECT") (flatten group).

Definition _inner_text_once (p : Token) : string :=
  let v := PyStr.strip (value p) in
  if PyStr.startswith_char v "("%char && PyStr.endswith_char v ")"%char
  then PyStr.strip (PyStr.slice_1_m1 v)
  else v.

(** Lines 99-104: the clause context after [tok]. *)
Definition update_clause (tok : Token) (current_clause : option string) : option string :=
  let current_clause :=
    if ttype_is tok Keyword || ttype_is tok DML
    then Some (PyStr.upper (normalized tok))
    else current_clause in
  if isinstance tok Identifier
     && (String.eqb (PyStr.upper (value tok)) "ALL"
         || String.eqb (PyStr.upper (value tok)) "ANY")
  then Some "ALL/ANY"
  else if ttype_is tok Comparison then Some "COMPARISON"
  else current_clause.

(** [current_clause or 'UNKNOWN']. *)
Definition clause_label (current_clause : option string) : string :=
  match current_clause with
  | Some c => if PyStr.truthy c then c else "UNKNOWN"
  | None => "UNKNOWN"
  end.

Section Walk.

(** [rewalk inner depth] stands for lines 114-115: the results of walking the
    statements of the re-parsed [inner] text from the clause [None] at
    [depth]; [None] when the walk does not finish. *)
Variable rewalk : string -> nat -> option (list Subquery).

(** The parenthesized group is taken for a subquery (line 108). *)
Definition is_subquery (tok : Token) : bool :=
  isinstance tok Parenthesis && _has_select_inside tok.

(** Lines 94-118, the loop over the tokens of a token list; [walk] is the
    recursive call of line 118. The results are returned in the order the
    source appends them to [results]. *)
Fixpoint walk_tokens (walk : Token -> option string -> nat -> option (list Subquery))
    (toks : list Token) (current_clause : option string) (depth : nat)
  : option (list Subquery) :=
  match toks with
  | [] => Some []
  | tok :: rest =>
      if is_whitespace tok then walk_tokens walk rest current_clause depth
      else
        let current_clause := update_clause tok current_clause in
        here ←
          (if is_group tok then
             if is_subquery tok then
               let inner := _inner_text_once tok in
               let subq_depth := S depth in
               deeper ← rewalk inner subq_depth;
               Some ((inner, clause_label current_clause, subq_depth) :: deeper)
             else walk tok current_clause depth
           else Some []);
        after ← walk_tokens walk rest current_clause depth;
        Some (here ++ after)
  end.

(** Lines 92-118. *)
Fixpoint _walk (tokenlist : Token) (current_clause : option string) (depth : nat)
  {struct tokenlist} : option (list Subquery) :=
  match tokenlist with
  | Leaf _ _ => Some []
  | Group _ tokens => walk_tokens _walk tokens current_clause depth
  end.

(** [for stmt in stmts: _walk(stmt, None, depth)]. *)
Fixpoint walk_statements (stmts : list Token) (depth : nat) : option (list Subquery) :=
  match stmts with
  | [] => Some []
  | stmt :: rest =>
      here ← _walk stmt None depth;
      after ← walk_statements rest depth;
      Some (here ++ after)
  end.

End Walk.

Section Extract.

(** [parse] is [sqlparse.parse]. *)
Variable parse : string -> list Token.

(** The walk of the statements of a text, re-parsing at most [fuel] levels of
    subqueries. *)
Fixpoint walk_text (fuel : nat) (sql : string) (depth : nat) : option (list Subquery) :=
  match fuel with
  | 0 => None
  | S fuel' => walk_statements (walk_text fuel') (parse sql) depth
  end.

(** Lines 69-123. Every re-parse is of a text shorter than the one it comes
    from, so the length of [sql] bounds the levels. *)
Definition extract_subqueries_tokens (sql : string) : option (list Subquery) :=
  walk_text (S (String.length sql)) sql 0.

End Extract.

(** [Reached tok toks]: the walk of [toks] comes to [tok], at the top level
    or inside groups that are not taken for subqueries. *)
Inductive Reached (tok : Token) : list Token -> Prop :=
| reached_here rest : Reached tok (tok :: rest)
| reached_later t rest : Reached tok rest -> Reached tok (t :: rest)
| reached_inside cls inner rest :
    is_subquery (Group cls inner) = false ->
    Reached tok inner -> Reached tok (Group cls inner :: rest).

(** Every [Parenthesis] group of the tree carries its parentheses, as the
    groups sqlparse builds do. *)
Fixpoint parenthesized (t : Token) : bool :=
  match t with
  | Leaf _ _ => true
  | Group cls ts =>
      (if bool_decide (cls = Parenthesis)
       then PyStr.startswith_char (value t) "("%char
            && PyStr.endswith_char (value t) ")"%char
       else true)
      && forallb parenthesized ts
  end.

(** The length of the text of a list of tokens. *)
Definition text_length (ts : list Token) : nat :=
  list_sum (List.map (fun t => String.length (value t)) ts).

(** What [extract_subqueries_tokens] relies on from [sqlparse.parse]: the
    statements carry no more text than the input, and parentheses are
    grouped with their content. *)
Definition parser_contract (parse : string -> list Token) : Prop :=
  forall sql,
    forallb parenthesized (parse sql) = true
    /\ text_length (parse sql) <= String.length sql.

(** *** [remove_ctes] *)

(** The expression objects live in a store; an argument holds a scalar, a
    reference to an expression, or a list of such references. *)
Abbreviation loc := nat.

Inductive HVal :=
| HNone
| HBool (b : bool)
| HStr (s : string)
| HEnum (s : string)
| HRef (l : loc)
| HRefs (ls : list loc).

Record Obj := { obj_cls : Sqlglot.ExpClass; obj_args : list (string * HVal) }.

Abbreviation Store := (gmap nat Obj).

(** A location no object of the store lives at. *)
Definition fresh_loc (h : Store) : loc := fresh (dom h).

Section Read.
(** [rd] reads the tree under a reference. *)
Variable rd : loc -> option Sqlglot.Value.

Fixpoint read_refs (cs : list loc) : option (list Sqlglot.Value) :=
  match cs with
  | [] => Some []
  | c :: cs' => t ← rd c; ts ← read_refs cs'; Some (t :: ts)
  end.

Definition read_val (v : HVal) : option Sqlglot.Value :=
  match v with
  | HNone => Some Sqlglot.VNone
  | HBool b => Some (Sqlglot.VBool b)
  | HStr s => Some (Sqlglot.VStr s)
  | HEnum s => Some (Sqlglot.VEnum s)
  | HRef c => rd c
  | HRefs cs => vs ← read_refs cs; Some (Sqlglot.VList vs)
  end.

Fixpoint read_args (a : list (string * HVal)) : option (list (string * Sqlglot.Value)) :=
  match a with
  | [] => Some []
  | (k, v) :: r => v' ← read_val v; r' ← read_args r; Some ((k, v') :: r')
  end.

End Read.

(** The tree a store holds at a location, down to [fuel] levels. *)
Fixpoint read_tree (fuel : nat) (h : Store) (l : loc) : option Sqlglot.Value :=
  match fuel with
  | 0 => None
  | S fuel' =>
      o ← h !! l;
      args ← read_args (read_tree fuel' h) (obj_args o);
      Some (Sqlglot.VExp (obj_cls o) args)
  end.

Section Copy.
(** [cp] copies the tree under a reference into the store. *)
Variable cp : Store -> loc -> option (Store * loc).

Fixpoint copy_refs (h : Store) (cs : list loc) : option (Store * list loc) :=
  match cs with
  | [] => Some (h, [])
  | c :: cs' =>
      '(h1, c') ← cp h c;
      '(h2, r') ← copy_refs h1 cs';
      Some (h2, c' :: r')
  end.

Definition copy_val (h : Store) (v : HVal) : option (Store * HVal) :=
  match v with
  | HRef c => '(h1, c') ← cp h c; Some (h1, HRef c')
  | HRefs cs => '(h1, cs') ← copy_refs h cs; Some (h1, HRefs cs')
  | _ => Some (h, v)
  end.

Fixpoint copy_args (h : Store) (a : list (string * HVal))
  : option (Store * list (string * HVal)) :=
  match a with
  | [] => Some (h, [])
  | (k, v) :: r =>
      '(h1, v') ← copy_val h v;
      '(h2, r') ← copy_args h1 r;
      Some (h2, (k, v') :: r')
  end.

End Copy.

(** [copy.deepcopy(ast)], which runs [Expression.__deepcopy__]: a new object
    for every expression under [l], scalars kept as they are. *)
Fixpoint deepcopy (fuel : nat) (h : Store) (l : loc) : option (Store * loc) :=
  match fuel with
  | 0 => None
  | S fuel' =>
      o ← h !! l;
      '(h1, args) ← copy_args (deepcopy fuel') h (obj_args o);
      let l' := fresh_loc h1 in
      Some (<[l' := {| obj_cls := obj_cls o; obj_args := args |}]> h1, l')
  end.

(** [args.pop(key, None)]. *)
Fixpoint pop {A} (a : list (string * A)) (key : string) : list (string * A) :=
  match a with
  | [] => []
  | (k, v) :: r => if String.eqb k key then pop r key else (k, v) :: pop r key
  end.

(** [e.set(key, None)]: the argument is removed from the object at [l]. *)
Definition set_none (h : Store) (l : loc) (key : string) : Store :=
  match h !! l with
  | Some o => <[l := {| obj_cls := obj_cls o; obj_args := pop (obj_args o) key |}]> h
  | None => h
  end.

(** A tree without the argument under [with] at its root. *)
Definition without_with (t : Sqlglot.Value) : Sqlglot.Value :=
  match t with
  | Sqlglot.VExp c a => Sqlglot.VExp c (pop a "with")
  | _ => t
  end.

Section Render.

(** [sql_of] is sqlglot's SQL generator, [Expression.sql]. *)
Variable sql_of : Sqlglot.Value -> string.

(** Lines 45-54, on a store: the store the call leaves and the text it
    returns; [None] when [fuel] is less than the height of the tree. *)
Definition remove_ctes (fuel : nat) (h : Store) (ast : option loc)
  : option (Store * string) :=
  match ast with
  | None => Some (h, "")
  | Some l =>
      '(h1, ast_copy) ← deepcopy fuel h l;
      let h2 := set_none h1 ast_copy "with" in
      t ← read_tree fuel h2 ast_copy;
      Some (h2, sql_of t)
  end.

End Render.

(** *** [extract_functions] and [extract_comparisons] *)

(** One reported group: [(token, clause)]. *)
Definition Reported : Type := Token * string.

(** The default of [current_clause]. *)
Definition default_clause : string := "NONE".

(** The keywords that open a clause (lines 16 and 35). *)
Definition clause_keywords : list string :=
  ["WITH"; "SELECT"; "FROM"; "WHERE"; "GROUP BY"; "ORDER BY"; "HAVING"; "LIMIT"].

(** Lines 15 and 34:
    [token.ttype is Keyword or token.ttype is DML or token.ttype is CTE]. *)
Definition is_keyword_token (token : Token) : bool :=
  ttype_is token Keyword || ttype_is token DML || ttype_is token CTE.

(** Lines 16-17 and 35-36: the clause after a keyword token. *)
Definition next_clause (token : Token) (current_clause : string) : string :=
  if existsb (String.eqb (PyStr.upper (value token))) clause_keywords
  then PyStr.upper (value token)
  else current_clause.

(** Lines 14-27, the loop of [extract_functions] over [tokens]; [inside token
    clause] is the recursive call [extract_functions(token.tokens, clause)]. *)
Fixpoint functions_loop (inside : Token -> string -> list Reported)
    (tokens : list Token) (current_clause : string) : list Reported :=
  match tokens with
  | [] => []
  | token :: rest =>
      if is_keyword_token token
      then functions_loop inside rest (next_clause token current_clause)
      else
        (if isinstance token Function
         then (token, current_clause) :: inside token current_clause
         else if is_group token then inside token current_clause
         else [])
        ++ functions_loop inside rest current_clause
  end.

Fixpoint functions_inside (token : Token) (current_clause : string) {struct token}
  : list Reported :=
  match token with
  | Group _ tokens => functions_loop functions_inside tokens current_clause
  | Leaf _ _ => []
  end.

(** Lines 11-28. *)
Definition extract_functions (tokens : list Token) (current_clause : string)
  : list Reported :=
  functions_loop functions_inside tokens current_clause.

(** Lines 33-42, the loop of [extract_comparisons]. *)
Fixpoint comparisons_loop (inside : Token -> string -> list Reported)
    (tokens : list Token) (current_clause : string) : list Reported :=
  match tokens with
  | [] => []
  | token :: rest =>
      if is_keyword_token token
      then comparisons_loop inside rest (next_clause token current_clause)
      else
        (if isinstance token ComparisonGroup then [(token, current_clause)]
         else if is_group token then inside token current_clause
         else [])
        ++ comparisons_loop inside rest current_clause
  end.

Fixpoint comparisons_inside (token : Token) (current_clause : string) {struct token}
  : list Reported :=
  match token with
  | Group _ tokens => comparisons_loop comparisons_inside tokens current_clause
  | Leaf _ _ => []
  end.

(** Lines 30-43. *)
Definition extract_comparisons (tokens : list Token) (current_clause : string)
  : list Reported :=
  comparisons_loop comparisons_inside tokens current_clause.

(** The groups of class [cls] in a token tree, the token itself included: a
    group before the groups inside it, left to right. *)
Fixpoint groups_of (cls : GroupClass) (t : Token) : list Token :=
  match t with
  | Leaf _ _ => []
  | Group c ts =>
      (if bool_decide (c = cls) then [t] else []) ++ flat_map (groups_of cls) ts
  end.

(** The groups of class [cls] that lie inside no other group of class [cls]. *)
Fixpoint outermost (cls : GroupClass) (t : Token) : list Token :=
  match t with
  | Leaf _ _ => []
  | Group c ts => if bool_decide (c = cls) then [t] else flat_map (outermost cls) ts
  end.

(** The clause at the end of a token list: the last clause keyword among the
    keyword tokens of the list itself, [current_clause] when there is none. *)
Definition clause_after (tokens : list Token) (current_clause : string) : string :=
  fold_left (fun c token => if is_keyword_token token then next_clause token c else c)
    tokens current_clause.

(** *** [extract_subqueries_ast] *)

(** Lines 56-66. *)
Definition extract_subqueries_ast (ast : option Sqlglot.Value) : list Sqlglot.Value :=
  match ast with
  | None => []
  | Some e => Sqlglot.find_all e Sqlglot.Subquery
  end.

(** The first [n] levels of a forest: the forest, the children of its nodes,
    their children, and so on. *)
Fixpoint levels (n : nat) (q : list Sqlglot.Value) : list (list Sqlglot.Value) :=
  match n with
  | 0 => []
  | S n' => q :: levels n' (flat_map Sqlglot.iter_expressions q)
  end.

End Extractors.

(* ===================================================================== *)
(** ** sqlscope/catalog/builder/postgres.py *)
(* ===================================================================== *)

Module Postgres.

(** [CatalogColumnInfo], one row of the columns query. *)
Record CatalogColumnInfo := {
  ci_schema_name : string;
  ci_table_name : string;
  ci_column_name : string;
  ci_column_type : string;
  ci_numeric_precision : option Z;
  ci_numeric_scale : option Z;
  ci_is_nullable : bool;
  ci_foreign_key_schema : option string;
  ci_foreign_key_table : option string;
  ci_foreign_key_column : option string
}.

(** [CatalogUniqueConstraintInfo], one row of the constraints query;
    [ui_columns] is the text Postgres returns for the array of column names. *)
Record CatalogUniqueConstraintInfo := {
  ui_schema_name : string;
  ui_table_name : string;
  ui_constraint_type : string;
  ui_columns : string
}.

(** Modelled from the spec: the [Column] that [Catalog.add_column] of
    [sqlscope/catalog/catalog.py] appends for the attributes of a row; it is
    filed under the name it is given. *)
Definition column_of_info (column : CatalogColumnInfo) : Catalog.Column :=
  {| Catalog.name := ci_column_name column;
     Catalog.column_type := ci_column_type column;
     Catalog.real_name := ci_column_name column;
     Catalog.numeric_precision := ci_numeric_precision column;
     Catalog.numeric_scale := ci_numeric_scale column;
     Catalog.is_nullable := ci_is_nullable column;
     Catalog.fk_schema := ci_foreign_key_schema column;
     Catalog.fk_table := ci_foreign_key_table column;
     Catalog.fk_column := ci_foreign_key_column column |}.

(** Lines 60-71, the call [result.add_column(...)]: the table is created
    when absent and the column appended. *)
Definition add_column_call (column : CatalogColumnInfo) : Catalog.Call :=
  Catalog.AddColumn (ci_schema_name column) (ci_table_name column) (column_of_info column).

(** Line 74: [set(constraint.columns.strip('{}').split(','))]. *)
Definition constraint_columns (columns : string) : gset string :=
  list_to_set (PyStr.split_on ","%char (PyStr.strip_of "{}" columns)).

(** Line 75. *)
Definition constraint_kind (constraint_type : string) : Catalog.ConstraintType :=
  if String.eqb constraint_type "PRIMARY KEY" then Catalog.PRIMARY_KEY else Catalog.UNIQUE.

(** Line 77, the call on [result[schema_name][table_name]]. *)
Definition add_constraint_call (constraint : CatalogUniqueConstraintInfo) : Catalog.Call :=
  Catalog.AddUniqueConstraint (ui_schema_name constraint) (ui_table_name constraint)
    (constraint_columns (ui_columns constraint))
    (constraint_kind (ui_constraint_type constraint)).

(** Lines 55-79. *)
Definition build_catalog (columns_info : list CatalogColumnInfo)
    (unique_constraints_info : list CatalogUniqueConstraintInfo) : Catalog.Catalog :=
  let result :=
    fold_left (fun result column => Catalog.apply_call result (add_column_call column))
      columns_info [] in
  fold_left (fun result constraint =>
               Catalog.apply_call result (add_constraint_call constraint))
    unique_constraints_info result.

(** The constraint line 77 appends. *)
Definition constraint_of_info (constraint : CatalogUniqueConstraintInfo)
  : Catalog.UniqueConstraint :=
  {| Catalog.columns := constraint_columns (ui_columns constraint);
     Catalog.constraint_type := constraint_kind (ui_constraint_type constraint) |}.

(** The row is about the table [t] of the schema [s]. *)
Definition column_on (s t : string) (column : CatalogColumnInfo) : bool :=
  String.eqb (ci_schema_name column) s && String.eqb (ci_table_name column) t.

Definition constraint_on (s t : string) (constraint : CatalogUniqueConstraintInfo) : bool :=
  String.eqb (ui_schema_name constraint) s && String.eqb (ui_table_name constraint) t.

(** The text Postgres returns for an array of names: [{n1,n2,...}]. *)
Definition array_text (names : list string) : string :=
  String "{"%char (String.append (PyStr.join "," names) "}").

(** A name the array text carries as it is: no comma and no brace in it. *)
Definition plain_name (n : string) : bool :=
  forallb (fun c => negb (PyStr.in_chars ",{}" c)) (list_ascii_of_string n).

End Postgres.

(* ===================================================================== *)
(** ** Example statements *)
(* ===================================================================== *)

Module Examples.
Import Ddl.

Definition ident (s : string) : Ident := {| id_text := s; id_quoted := false |}.
Definition quoted_ident (s : string) : Ident := {| id_text := s; id_quoted := true |}.
Definition plain_table (s : string) : TableRef := {| tr_name := ident s; tr_db := None |}.
Definition int_type : ColType := {| ty_keyword := "INT"; ty_args := [] |}.
Definition column (n : Ident) (cs : list ColConstraint) : TableItem :=
  IColumn {| col_name := n; col_type := int_type; col_constraints := cs |}.

(** A generator that is never consulted. *)
Definition no_sql (_ : Sqlglot.Value) : string := "".

(** [CREATE TABLE t (a INT PRIMARY KEY, b INT, PRIMARY KEY (a, b))] *)
Definition merged_key : CreateTable :=
  {| ct_table := plain_table "t";
     ct_items := [column (ident "a") [CPrimaryKey]; column (ident "b") [];
                  IPrimaryKey [ident "a"; ident "b"]] |}.


(** [CREATE TABLE u (k INT PRIMARY KEY)] *)
Definition other_table : CreateTable :=
  {| ct_table := plain_table "u"; ct_items := [column (ident "k") [CPrimaryKey]] |}.

(** [CREATE TABLE t (a INT)] *)
Definition no_key : CreateTable :=
  {| ct_table := plain_table "t"; ct_items := [column (ident "a") []] |}.

(** [CREATE TABLE Users (Id INT PRIMARY KEY)] *)
Definition unquoted_users : CreateTable :=
  {| ct_table := plain_table "Users"; ct_items := [column (ident "Id") [CPrimaryKey]] |}.


(** [CREATE TABLE "Users" ("Id" INT PRIMARY KEY)] *)
Definition quoted_users : CreateTable :=
  {| ct_table := {| tr_name := quoted_ident "Users"; tr_db := None |};
     ct_items := [column (quoted_ident "Id") [CPrimaryKey]] |}.

(** [CREATE TABLE "Sales"."Users" ("Id" INT PRIMARY KEY)] *)
Definition quoted_schema_users : CreateTable :=
  {| ct_table := {| tr_name := quoted_ident "Users"; tr_db := Some (quoted_ident "Sales") |};
     ct_items := [column (quoted_ident "Id") [CPrimaryKey]] |}.

(** [CREATE TABLE t (a INT PRIMARY KEY, b INT UNIQUE)] *)
Definition inline_unique : CreateTable :=
  {| ct_table := plain_table "t";
     ct_items := [column (ident "a") [CPrimaryKey]; column (ident "b") [CUnique]] |}.

(** [CREATE TABLE t (a INT PRIMARY KEY, b INT, c INT, UNIQUE (b, c))] *)
Definition table_unique : CreateTable :=
  {| ct_table := plain_table "t";
     ct_items := [column (ident "a") [CPrimaryKey]; column (ident "b") [];
                  column (ident "c") []; IUnique [ident "b"; ident "c"]] |}.

(** [CREATE TABLE t (a INT PRIMARY KEY REFERENCES other (x), b INT, c INT,
      FOREIGN KEY (a, b) REFERENCES other2 (y, z))] *)
Definition both_references : CreateTable :=
  {| ct_table := plain_table "t";
     ct_items := [column (ident "a") [CPrimaryKey; CReferences (plain_table "other") (ident "x") []];
                  column (ident "b") []; column (ident "c") [];
                  IForeignKey [ident "a"; ident "b"] (plain_table "other2")
                    [ident "y"; ident "z"]] |}.





(** [CREATE TABLE t (id INT PRIMARY KEY, price NUMERIC(10,2))]: the type of
    [price] as the parser builds it, NUMERIC read as the type DECIMAL. *)
Definition price_column : ColumnSpec :=
  {| col_name := ident "price";
     col_type := {| ty_keyword := "DECIMAL";
                    ty_args := [ArgParam "10" false; ArgParam "2" false] |};
     col_constraints := [] |}.

(** The tokens of
    [SELECT * FROM t WHERE id IN (SELECT id FROM u WHERE x IN (SELECT y FROM v))]
    as sqlparse groups them, and of its two subqueries. *)
Definition space : Sqlparse.Token := Sqlparse.Leaf Sqlparse.Whitespace " ".
Definition name_token (s : string) : Sqlparse.Token :=
  Sqlparse.Group Sqlparse.Identifier [Sqlparse.Leaf Sqlparse.Name s].
Definition parenthesis (ts : list Sqlparse.Token) : Sqlparse.Token :=
  Sqlparse.Group Sqlparse.Parenthesis
    ([Sqlparse.Leaf Sqlparse.Punctuation "("] ++ ts ++ [Sqlparse.Leaf Sqlparse.Punctuation ")"]).

Definition query_v : list Sqlparse.Token :=
  [Sqlparse.Leaf Sqlparse.DML "SELECT"; space; name_token "y"; space;
   Sqlparse.Leaf Sqlparse.Keyword "FROM"; space; name_token "v"].

Definition query_u : list Sqlparse.Token :=
  [Sqlparse.Leaf Sqlparse.DML "SELECT"; space; name_token "id"; space;
   Sqlparse.Leaf Sqlparse.Keyword "FROM"; space; name_token "u"; space;
   Sqlparse.Group Sqlparse.Where
     [Sqlparse.Leaf Sqlparse.Keyword "WHERE"; space; name_token "x"; space;
      Sqlparse.Leaf Sqlparse.Keyword "IN"; space; parenthesis query_v]].

Definition query_t : list Sqlparse.Token :=
  [Sqlparse.Leaf Sqlparse.DML "SELECT"; space; Sqlparse.Leaf Sqlparse.Wildcard "*"; space;
   Sqlparse.Leaf Sqlparse.Keyword "FROM"; space; name_token "t"; space;
   Sqlparse.Group Sqlparse.Where
     [Sqlparse.Leaf Sqlparse.Keyword "WHERE"; space; name_token "id"; space;
      Sqlparse.Leaf Sqlparse.Keyword "IN"; space; parenthesis query_u]].

Definition text_of (ts : list Sqlparse.Token) : string :=
  Sqlparse.value (Sqlparse.Group Sqlparse.Statement ts).

(** A parser that knows these three texts. *)
Definition parse_queries (s : string) : list Sqlparse.Token :=
  if String.eqb s (text_of query_t) then [Sqlparse.Group Sqlparse.Statement query_t]
  else if String.eqb s (text_of query_u) then [Sqlparse.Group Sqlparse.Statement query_u]
  else if String.eqb s (text_of query_v) then [Sqlparse.Group Sqlparse.Statement query_v]
  else [].

(** The objects of [WITH x AS (SELECT 1) SELECT * FROM x]. *)
Definition cte_store : gmap nat Extractors.Obj :=
  list_to_map
    [(0, {| Extractors.obj_cls := Sqlglot.Select;
            Extractors.obj_args := [("with", Extractors.HRef 1);
                                    ("expressions", Extractors.HRefs [5]);
                                    ("from", Extractors.HRef 6)] |});
     (1, {| Extractors.obj_cls := Sqlglot.With;
            Extractors.obj_args := [("expressions", Extractors.HRefs [2])] |});
     (2, {| Extractors.obj_cls := Sqlglot.CTE;
            Extractors.obj_args := [("this", Extractors.HRef 3);
                                    ("alias", Extractors.HStr "x")] |});
     (3, {| Extractors.obj_cls := Sqlglot.Select;
            Extractors.obj_args := [("expressions", Extractors.HRefs [4])] |});
     (4, {| Extractors.obj_cls := Sqlglot.Literal;
            Extractors.obj_args := [("this", Extractors.HStr "1");
                                    ("is_string", Extractors.HBool false)] |});
     (5, {| Extractors.obj_cls := Sqlglot.Star; Extractors.obj_args := [] |});
     (6, {| Extractors.obj_cls := Sqlglot.From;
            Extractors.obj_args := [("this", Extractors.HRef 7)] |});
     (7, {| Extractors.obj_cls := Sqlglot.Table;
            Extractors.obj_args := [("this", Extractors.HStr "x")] |})].

(** The tree these objects hold at location 0. *)
Definition cte_tree : Sqlglot.Value :=
  Sqlglot.VExp Sqlglot.Select
    [("with", Sqlglot.VExp Sqlglot.With
                [("expressions",
                  Sqlglot.VList
                    [Sqlglot.VExp Sqlglot.CTE
                       [("this", Sqlglot.VExp Sqlglot.Select
                                   [("expressions",
                                     Sqlglot.VList
                                       [Sqlglot.VExp Sqlglot.Literal
                                          [("this", Sqlglot.VStr "1");
                                           ("is_string", Sqlglot.VBool false)]])]);
                        ("alias", Sqlglot.VStr "x")]])]);
     ("expressions", Sqlglot.VList [Sqlglot.VExp Sqlglot.Star []]);
     ("from", Sqlglot.VExp Sqlglot.From
                [("this", Sqlglot.VExp Sqlglot.Table [("this", Sqlglot.VStr "x")])])].

(** A generator for this query: with or without its WITH clause. *)
Definition render_query (t : Sqlglot.Value) : string :=
  match Sqlglot.arg t "with" with
  | Sqlglot.VNone => "SELECT * FROM x"
  | _ => "WITH x AS (SELECT 1) SELECT * FROM x"
  end.

End Examples.

(* ===================================================================== *)
(** ** Facts about the traversal of expressions *)
(* ===================================================================== *)

Module SqlglotFacts.
Import Sqlglot.

Lemma exprs_expression b v : is_expression v = true -> exprs b v = exprs false v.
Proof. now destruct v. Qed.

Lemma exprs_not_expression v : is_expression v = false -> exprs true v = [].
Proof. now destruct v. Qed.

Lemma subnodes_children v :
  is_expression v = true ->
  subnodes v = v :: flat_map subnodes (iter_expressions v).
Proof.
  destruct v as [| | | |vs|c a]; try discriminate. intros _.
  unfold subnodes, iter_expressions. simpl. f_equal.
  induction a as [|[k x] a IH]; simpl; [reflexivity|].
  rewrite flat_map_app, <- IH. f_equal.
  destruct x as [| | | |vs|c' a']; simpl; try reflexivity.
  - induction vs as [|y vs IHv]; simpl; [reflexivity|].
    destruct (is_expression y) eqn:E; simpl.
    + now rewrite IHv, (exprs_expression true y E).
    + now rewrite IHv, (exprs_not_expression y E).
  - now rewrite app_nil_r.
Qed.

Lemma iter_expressions_are_expressions v :
  forallb is_expression (iter_expressions v) = true.
Proof.
  unfold iter_expressions. induction (args_of v) as [|[k x] a IH]; simpl; [reflexivity|].
  rewrite forallb_app, IH, andb_true_r.
  destruct x as [| | | |vs|c' a']; simpl; try reflexivity.
  induction vs as [|y vs IHv]; simpl; [reflexivity|].
  destruct (is_expression y) eqn:E; simpl; [now rewrite E|assumption].
Qed.

Lemma forest_size_app q1 q2 :
  forest_size (q1 ++ q2) = forest_size q1 + forest_size q2.
Proof. unfold forest_size. now rewrite List.map_app, list_sum_app. Qed.

Lemma size_pos v : 1 <= size v.
Proof. destruct v; simpl; lia. Qed.

Lemma forest_size_children v :
  forest_size (iter_expressions v) < size v.
Proof.
  destruct v as [| | | |vs|c a]; simpl; try (unfold forest_size; simpl; lia).
  unfold iter_expressions. simpl.
  enough (forest_size (flat_map (fun kv => value_children (snd kv)) a)
          <= list_sum (List.map (fun kv => size (snd kv)) a)) by lia.
  induction a as [|[k x] a IH]; simpl; [unfold forest_size; simpl; lia|].
  rewrite forest_size_app.
  enough (forest_size (value_children x) <= size x) by lia.
  destruct x as [| | | |vs|c' a']; try (unfold forest_size; simpl; lia).
  simpl. enough (forest_size (List.filter is_expression vs) <= list_sum (List.map size vs)) by lia.
  clear. induction vs as [|y vs IHv]; simpl; [unfold forest_size; simpl; lia|].
  destruct (is_expression y); unfold forest_size in *; simpl; lia.
Qed.

(** With enough fuel the queue is emptied: the traversal yields the nodes of
    the forest, each once. *)
Lemma bfs_queue_perm f q :
  forallb is_expression q = true ->
  forest_size q <= f -> Permutation (bfs_queue f q) (flat_map subnodes q).
Proof.
  revert q. induction f as [|f IH]; intros q Hq Hf.
  - destruct q as [|n q]; [reflexivity|].
    unfold forest_size in Hf. simpl in Hf. pose proof (size_pos n). lia.
  - destruct q as [|n q]; [reflexivity|]. simpl in Hq |- *.
    apply andb_true_iff in Hq as [Hn Hq].
    rewrite (subnodes_children n Hn). simpl. constructor.
    rewrite IH.
    + rewrite flat_map_app. apply Permutation_app_comm.
    + now rewrite forallb_app, Hq, iter_expressions_are_expressions.
    + rewrite forest_size_app. pose proof (forest_size_children n).
      unfold forest_size in *. simpl in Hf. lia.
Qed.

(** One level of the queue at a time. *)
Lemma bfs_queue_level f q1 q2 :
  bfs_queue (length q1 + f) (q1 ++ q2)
  = q1 ++ bfs_queue f (q2 ++ flat_map iter_expressions q1).
Proof.
  revert q2. induction q1 as [|n q1 IH]; intros q2; simpl.
  - now rewrite app_nil_r.
  - f_equal. rewrite <- app_assoc, IH. now rewrite <- app_assoc.
Qed.

(** More fuel than the forest needs changes nothing. *)
Lemma bfs_queue_fuel f1 f2 q :
  forest_size q <= f1 -> forest_size q <= f2 -> bfs_queue f1 q = bfs_queue f2 q.
Proof.
  revert f2 q. induction f1 as [|f1 IH]; intros f2 q H1 H2.
  - destruct q as [|n q]; [now destruct f2|].
    unfold forest_size in H1. simpl in H1. pose proof (size_pos n). lia.
  - destruct q as [|n q]; [now destruct f2|].
    destruct f2 as [|f2].
    + unfold forest_size in H2. simpl in H2. pose proof (size_pos n). lia.
    + simpl. f_equal. apply IH; rewrite forest_size_app;
        pose proof (forest_size_children n); unfold forest_size in *; simpl in *; lia.
Qed.

Lemma forest_size_level q :
  forest_size (flat_map iter_expressions q) <= forest_size q.
Proof.
  induction q as [|n q IH]; simpl; [lia|].
  rewrite forest_size_app. pose proof (forest_size_children n).
  unfold forest_size in *. simpl. lia.
Qed.

(** With enough fuel, the queue comes out first, then the traversal of the
    next level. *)
Lemma bfs_queue_unfold f q :
  forest_size q <= f ->
  bfs_queue f q = q ++ bfs_queue f (flat_map iter_expressions q).
Proof.
  intros H. rewrite (bfs_queue_fuel f (length q + f) q) by lia.
  pose proof (bfs_queue_level f q []) as L. rewrite app_nil_r in L. exact L.
Qed.

Lemma filter_perm {A} (P : A -> bool) (l l' : list A) :
  Permutation l l' -> Permutation (List.filter P l) (List.filter P l').
Proof.
  induction 1; simpl.
  - constructor.
  - destruct (P x); [now constructor|assumption].
  - destruct (P x), (P y); first [apply perm_swap | reflexivity].
  - etransitivity; eassumption.
Qed.

(** The nodes of class [cls] the traversal of a forest yields. *)
Lemma bfs_queue_filter cls f q :
  forallb is_expression q = true -> forest_size q <= f ->
  Permutation (List.filter (fun n => isinstance n cls) (bfs_queue f q)) (nodes_of cls q).
Proof. intros Hq Hf. apply filter_perm, bfs_queue_perm; assumption. Qed.

(** The nodes below a level. *)
Lemma subnodes_level q :
  forallb is_expression q = true ->
  flat_map subnodes (flat_map iter_expressions q)
  = flat_map (fun n => List.tl (subnodes n)) q.
Proof.
  induction q as [|n q IH]; simpl; [reflexivity|]. intros H.
  apply andb_true_iff in H as [Hn Hq].
  rewrite flat_map_app, IH by assumption. now rewrite (subnodes_children n Hn).
Qed.

Lemma iter_expressions_level q :
  forallb is_expression (flat_map iter_expressions q) = true.
Proof.
  induction q as [|n q IH]; simpl; [reflexivity|].
  now rewrite forallb_app, iter_expressions_are_expressions, IH.
Qed.

(** The traversal of an expression starts with the expression and its
    children. *)
Lemma walk_unfold e :
  walk e
  = e :: iter_expressions e
      ++ bfs_queue (size e) (flat_map iter_expressions (iter_expressions e)).
Proof.
  unfold walk.
  assert (H0 : forest_size [e] <= size e) by (unfold forest_size; simpl; lia).
  rewrite (bfs_queue_unfold _ _ H0). simpl. rewrite app_nil_r.
  rewrite bfs_queue_unfold; [reflexivity|].
  pose proof (forest_size_children e). lia.
Qed.

(** [find] returns the first node of the class in traversal order. *)
Lemma find_first e cls pre n post :
  walk e = pre ++ n :: post ->
  List.filter (fun x => isinstance x cls) pre = [] ->
  isinstance n cls = true ->
  find e cls = n.
Proof.
  intros E Hpre Hn. unfold find, find_all.
  rewrite E, List.filter_app, Hpre. simpl. now rewrite Hn.
Qed.

End SqlglotFacts.

(* ===================================================================== *)
(** ** Facts about the trees of CREATE TABLE statements *)
(* ===================================================================== *)

Module DdlFacts.
Import Sqlglot Ddl SqlglotFacts.

Lemma filter_expression_map {A} (f : A -> Value) (l : list A) :
  (forall x, is_expression (f x) = true) ->
  List.filter is_expression (List.map f l) = List.map f l.
Proof.
  intros H. induction l as [|x l IH]; simpl; [reflexivity|].
  now rewrite H, IH.
Qed.

Lemma exprs_true_map {A} (f : A -> Value) (l : list A) :
  (forall x, is_expression (f x) = true) ->
  flat_map (exprs true) (List.map f l) = flat_map (fun x => subnodes (f x)) l.
Proof.
  intros H. induction l as [|x l IH]; simpl; [reflexivity|].
  now rewrite IH, (exprs_expression true (f x) (H x)).
Qed.

Lemma subnodes_map {A} (f : A -> Value) (l : list A) :
  flat_map subnodes (List.map f l) = flat_map (fun x => subnodes (f x)) l.
Proof. induction l as [|x l IH]; simpl; [reflexivity|]. now rewrite IH. Qed.

Lemma filter_flat_map {A B} (P : B -> bool) (g : A -> list B) (l : list A) :
  List.filter P (flat_map g l) = flat_map (fun x => List.filter P (g x)) l.
Proof.
  induction l as [|x l IH]; simpl; [reflexivity|].
  now rewrite List.filter_app, IH.
Qed.

Lemma flat_map_nil {A B} (g : A -> list B) (l : list A) :
  (forall x, g x = []) -> flat_map g l = [].
Proof. intros H. induction l as [|x l IH]; simpl; [reflexivity|]. now rewrite H, IH. Qed.

(** *** The nodes of each part of a statement *)

Lemma subnodes_ident i : subnodes (ident_ast i) = [ident_ast i].
Proof. reflexivity. Qed.

Lemma subnodes_table t :
  subnodes (table_ast t)
  = table_ast t :: ident_ast (tr_name t)
      :: match tr_db t with Some d => [ident_ast d] | None => [] end.
Proof. unfold table_ast. destruct (tr_db t); reflexivity. Qed.

Lemma idents_subnodes cols :
  flat_map (exprs true) (List.map ident_ast cols) = List.map ident_ast cols.
Proof. induction cols as [|c cols IH]; simpl; [reflexivity|]. now rewrite IH. Qed.

Lemma subnodes_reference t cols :
  subnodes (reference_ast t cols)
  = reference_ast t cols
      :: VExp Schema [("this", table_ast t);
                      ("expressions", VList (List.map ident_ast cols))]
      :: subnodes (table_ast t) ++ List.map ident_ast cols.
Proof.
  unfold subnodes, reference_ast.
  remember (table_ast t) as T eqn:ET. remember (List.map ident_ast cols) as I eqn:EI.
  simpl. rewrite !app_nil_r. subst I. now rewrite idents_subnodes.
Qed.

Lemma subnodes_type_arg a :
  subnodes (type_arg_ast a)
  = match a with
    | ArgLiteral txt s => [literal_ast txt s]
    | ArgParam txt s => [type_arg_ast a; literal_ast txt s]
    end.
Proof. now destruct a. Qed.

Lemma subnodes_type t :
  subnodes (type_ast t)
  = type_ast t :: flat_map (fun a => subnodes (type_arg_ast a)) (ty_args t).
Proof.
  unfold subnodes, type_ast. destruct (ty_args t) as [|a l]; [reflexivity|].
  remember (List.map type_arg_ast (a :: l)) as A eqn:EA.
  simpl. rewrite app_nil_r. subst A. f_equal.
  apply (exprs_true_map type_arg_ast (a :: l)). now intros [].
Qed.

Lemma subnodes_constraint c :
  subnodes (constraint_ast c) = constraint_ast c :: subnodes (constraint_kind_ast c).
Proof.
  unfold subnodes, constraint_ast. remember (constraint_kind_ast c) as K eqn:EK.
  simpl. now rewrite app_nil_r.
Qed.

Lemma subnodes_column c :
  subnodes (column_ast c)
  = column_ast c :: ident_ast (col_name c) :: subnodes (type_ast (col_type c))
      ++ flat_map (fun k => subnodes (constraint_ast k)) (col_constraints c).
Proof.
  unfold subnodes, column_ast.
  remember (type_ast (col_type c)) as T eqn:ET.
  remember (List.map constraint_ast (col_constraints c)) as K eqn:EK.
  simpl. rewrite !app_nil_r. subst K. do 3 f_equal.
  apply exprs_true_map. reflexivity.
Qed.

Lemma subnodes_ordered i :
  subnodes (ordered_ast i)
  = [ordered_ast i; VExp Column [("this", ident_ast i)]; ident_ast i].
Proof. reflexivity. Qed.

Lemma subnodes_item i :
  subnodes (item_ast i)
  = item_ast i ::
    match i with
    | IColumn c => List.tl (subnodes (column_ast c))
    | IPrimaryKey cols => flat_map (fun c => subnodes (ordered_ast c)) cols
    | IForeignKey cols t refs => List.map ident_ast cols ++ subnodes (reference_ast t refs)
    | IUnique cols =>
        VExp Schema [("this", VNone); ("expressions", VList (List.map ident_ast cols))]
        :: List.map ident_ast cols
    end.
Proof.
  destruct i as [c|cols|cols t refs|cols].
  - change (item_ast (IColumn c)) with (column_ast c).
    now rewrite subnodes_column.
  - unfold subnodes, item_ast. remember (List.map ordered_ast cols) as O eqn:EO.
    simpl. rewrite app_nil_r. subst O. f_equal.
    apply exprs_true_map. reflexivity.
  - unfold subnodes, item_ast.
    remember (reference_ast t refs) as R eqn:ER.
    remember (List.map ident_ast cols) as I eqn:EI.
    simpl. rewrite !app_nil_r. subst I. now rewrite idents_subnodes.
  - unfold subnodes, item_ast.
    remember (List.map ident_ast cols) as I eqn:EI.
    simpl. rewrite !app_nil_r. subst I. now rewrite idents_subnodes.
Qed.

End DdlFacts.

Module DdlTraversal.
Import Sqlglot Ddl SqlglotFacts DdlFacts.

Lemma flat_map_map {A B C} (f : A -> B) (g : B -> list C) (l : list A) :
  flat_map g (List.map f l) = flat_map (fun x => g (f x)) l.
Proof. induction l as [|x l IH]; simpl; [reflexivity|]. now rewrite IH. Qed.

Lemma walk_create d :
  exists tail,
    walk (create_ast d)
    = create_ast d :: schema_node d :: table_ast (ct_table d)
        :: List.map item_ast (ct_items d) ++ tail
    /\ Permutation tail (below_items d).
Proof.
  set (e := create_ast d).
  set (L2 := table_ast (ct_table d) :: List.map item_ast (ct_items d)).
  assert (H0 : forest_size [e] <= size e) by (unfold forest_size; simpl; lia).
  assert (E1 : flat_map iter_expressions [e] = [schema_node d]) by reflexivity.
  assert (E2 : flat_map iter_expressions [schema_node d] = L2).
  { unfold schema_node, iter_expressions, table_ast. simpl.
    rewrite !app_nil_r, filter_expression_map; [reflexivity|now intros []]. }
  assert (H1 : forest_size [schema_node d] <= size e).
  { rewrite <- E1. etransitivity; [apply forest_size_level|exact H0]. }
  assert (H2 : forest_size L2 <= size e).
  { rewrite <- E2. etransitivity; [apply forest_size_level|exact H1]. }
  exists (bfs_queue (size e) (flat_map iter_expressions L2)). split.
  - unfold walk. rewrite (bfs_queue_unfold _ _ H0), E1.
    rewrite (bfs_queue_unfold _ _ H1), E2.
    now rewrite (bfs_queue_unfold _ _ H2).
  - assert (HL : forallb is_expression L2 = true).
    { unfold L2. simpl. apply forallb_forall. intros x Hx.
      apply in_map_iff in Hx as [i [<- _]]. now destruct i. }
    rewrite bfs_queue_perm.
    + rewrite (subnodes_level L2 HL). unfold L2, below_items.
      change (flat_map (fun n => List.tl (subnodes n))
                (table_ast (ct_table d) :: List.map item_ast (ct_items d)))
        with (List.tl (subnodes (table_ast (ct_table d)))
              ++ flat_map (fun n => List.tl (subnodes n)) (List.map item_ast (ct_items d))).
      now rewrite flat_map_map.
    + apply iter_expressions_level.
    + etransitivity; [apply forest_size_level|exact H2].
Qed.

Abbreviation is_cls cls := (fun n : Value => isinstance n cls) (only parsing).

Lemma filter_cons_false {A} (P : A -> bool) (x : A) (l : list A) :
  P x = false -> List.filter P (x :: l) = List.filter P l.
Proof. intros H. simpl. now rewrite H. Qed.

Lemma filter_idents cls l :
  searched_class cls = true -> List.filter (is_cls cls) (List.map ident_ast l) = [].
Proof.
  intros H. induction l as [|i l IH]; [reflexivity|].
  destruct cls; try discriminate H; simpl in *; exact IH.
Qed.

Lemma filter_table cls t :
  searched_class cls = true -> List.filter (is_cls cls) (subnodes (table_ast t)) = [].
Proof.
  intros H. rewrite subnodes_table.
  destruct cls; try discriminate H; destruct (tr_db t); reflexivity.
Qed.

Lemma filter_reference cls t cols :
  searched_class cls = true ->
  List.filter (is_cls cls) (subnodes (reference_ast t cols)) = [].
Proof.
  intros H. rewrite subnodes_reference.
  change (List.filter (is_cls cls)
            (reference_ast t cols
             :: VExp Schema [("this", table_ast t);
                             ("expressions", VList (List.map ident_ast cols))]
             :: subnodes (table_ast t) ++ List.map ident_ast cols))
    with (List.filter (is_cls cls)
            ([reference_ast t cols;
              VExp Schema [("this", table_ast t);
                           ("expressions", VList (List.map ident_ast cols))]]
             ++ subnodes (table_ast t) ++ List.map ident_ast cols)).
  rewrite !List.filter_app, filter_table, filter_idents by assumption.
  destruct cls; try discriminate H; reflexivity.
Qed.

Lemma filter_type cls t :
  searched_class cls = true -> List.filter (is_cls cls) (subnodes (type_ast t)) = [].
Proof.
  intros H. rewrite subnodes_type.
  change (List.filter (is_cls cls) ?l) with (List.filter (is_cls cls) l).
  assert (E : List.filter (is_cls cls)
                (flat_map (fun a => subnodes (type_arg_ast a)) (ty_args t)) = []).
  { rewrite filter_flat_map. apply flat_map_nil. intros a. rewrite subnodes_type_arg.
    destruct cls; try discriminate H; destruct a; reflexivity. }
  unfold type_ast at 1.
  destruct cls; try discriminate H; simpl; exact E.
Qed.

Lemma filter_constraint_item cls k :
  item_class cls = true ->
  List.filter (is_cls cls) (subnodes (constraint_ast k)) = [].
Proof.
  intros H. rewrite subnodes_constraint.
  assert (S : searched_class cls = true) by (destruct cls; try discriminate H; reflexivity).
  assert (E : List.filter (is_cls cls) (subnodes (constraint_kind_ast k)) = []).
  { destruct k; try (destruct cls; try discriminate H; reflexivity).
    apply filter_reference, S. }
  unfold constraint_ast at 1.
  destruct cls; try discriminate H; simpl; exact E.
Qed.

Lemma filter_constraint_unique k :
  List.filter (is_cls UniqueColumnConstraint) (subnodes (constraint_ast k))
  = match k with CUnique => [inline_unique_node] | _ => [] end.
Proof.
  rewrite subnodes_constraint, filter_cons_false by reflexivity.
  destruct k; try reflexivity.
  apply (filter_reference UniqueColumnConstraint). reflexivity.
Qed.

Lemma filter_ordered cls l :
  searched_class cls = true ->
  List.filter (is_cls cls) (flat_map (fun c => subnodes (ordered_ast c)) l) = [].
Proof.
  intros H. rewrite filter_flat_map. apply flat_map_nil. intros i.
  destruct cls; try discriminate H; reflexivity.
Qed.

(** Below a column: nothing of the items' classes, and its inline UNIQUE
    markers. *)
Lemma filter_below_column_item cls c :
  item_class cls = true ->
  List.filter (is_cls cls) (List.tl (subnodes (column_ast c))) = [].
Proof.
  intros H. rewrite subnodes_column.
  assert (S : searched_class cls = true) by (destruct cls; try discriminate H; reflexivity).
  change (List.tl (column_ast c :: ident_ast (col_name c) :: ?l))
    with ([ident_ast (col_name c)] ++ l).
  rewrite !List.filter_app, filter_type, filter_flat_map by assumption.
  rewrite (flat_map_nil _ (col_constraints c))
    by (intros k; now apply filter_constraint_item).
  destruct cls; try discriminate H; reflexivity.
Qed.

Lemma filter_below_column_unique c :
  List.filter (is_cls UniqueColumnConstraint) (List.tl (subnodes (column_ast c)))
  = inline_unique_nodes c.
Proof.
  rewrite subnodes_column.
  change (List.tl (column_ast c :: ident_ast (col_name c) :: ?l))
    with (List.map ident_ast [col_name c] ++ l).
  rewrite !List.filter_app, (filter_type UniqueColumnConstraint), filter_flat_map,
    filter_idents by reflexivity.
  cbn [app]. unfold inline_unique_nodes.
  apply flat_map_ext. intros k. apply filter_constraint_unique.
Qed.

Lemma filter_below_other cls i :
  searched_class cls = true ->
  match i with IColumn _ => False | _ => True end ->
  List.filter (is_cls cls) (List.tl (subnodes (item_ast i))) = [].
Proof.
  intros H Hi. rewrite subnodes_item.
  destruct i as [c|cols|cols t refs|cols]; [contradiction| | |]; cbn [List.tl].
  - now apply filter_ordered.
  - rewrite List.filter_app, filter_idents, filter_reference by assumption. reflexivity.
  - change (VExp Schema [("this", VNone); ("expressions", VList (List.map ident_ast cols))]
            :: List.map ident_ast cols)
      with ([VExp Schema [("this", VNone); ("expressions", VList (List.map ident_ast cols))]]
            ++ List.map ident_ast cols).
    rewrite List.filter_app, filter_idents by assumption.
    destruct cls; try discriminate H; reflexivity.
Qed.

Lemma filter_below_items_item cls d :
  item_class cls = true -> List.filter (is_cls cls) (below_items d) = [].
Proof.
  intros H. unfold below_items.
  assert (S : searched_class cls = true) by (destruct cls; try discriminate H; reflexivity).
  rewrite List.filter_app, filter_flat_map.
  rewrite (flat_map_nil _ (ct_items d)).
  - rewrite app_nil_r. pose proof (filter_table cls (ct_table d) S) as T.
    rewrite subnodes_table in *. unfold table_ast in T at 1.
    destruct cls; try discriminate H; exact T.
  - intros [c| | |]; try (apply filter_below_other; [exact S|exact I]).
    now apply filter_below_column_item.
Qed.

Lemma filter_below_items_unique d :
  List.filter (is_cls UniqueColumnConstraint) (below_items d)
  = flat_map inline_unique_nodes (columns_of d).
Proof.
  unfold below_items, columns_of. rewrite List.filter_app, filter_flat_map.
  assert (T : List.filter (is_cls UniqueColumnConstraint)
                (List.tl (subnodes (table_ast (ct_table d)))) = []).
  { rewrite subnodes_table. destruct (tr_db (ct_table d)); reflexivity. }
  rewrite T. cbn [app].
  induction (ct_items d) as [|i l IH]; [reflexivity|].
  cbn [flat_map]. rewrite flat_map_app, <- IH. f_equal.
  destruct i as [c|cols|cols t refs|cols]; cbn [flat_map app].
  - rewrite app_nil_r. apply filter_below_column_unique.
  - now apply filter_below_other.
  - now apply filter_below_other.
  - now apply filter_below_other.
Qed.

(** *** What [find] and [find_all] return on a statement *)

Lemma find_all_create cls d :
  exists tail,
    find_all (create_ast d) cls
    = List.filter (is_cls cls) [create_ast d; schema_node d; table_ast (ct_table d)]
      ++ List.filter (is_cls cls) (List.map item_ast (ct_items d)) ++ tail
    /\ Permutation tail (List.filter (is_cls cls) (below_items d)).
Proof.
  destruct (walk_create d) as [tail [E P]].
  exists (List.filter (is_cls cls) tail). split.
  - unfold find_all. rewrite E.
    change (create_ast d :: schema_node d :: table_ast (ct_table d)
              :: List.map item_ast (ct_items d) ++ tail)
      with ([create_ast d; schema_node d; table_ast (ct_table d)]
              ++ List.map item_ast (ct_items d) ++ tail).
    now rewrite !List.filter_app.
  - now apply filter_perm.
Qed.

Lemma find_table d : find (create_ast d) Table = table_ast (ct_table d).
Proof.
  unfold find. destruct (find_all_create Table d) as [tail [E _]]. now rewrite E.
Qed.

Lemma find_all_item_class cls d :
  item_class cls = true ->
  find_all (create_ast d) cls = List.filter (is_cls cls) (List.map item_ast (ct_items d)).
Proof.
  intros H. destruct (find_all_create cls d) as [tail [E P]].
  rewrite (filter_below_items_item cls d H) in P.
  apply Permutation_sym, Permutation_nil in P. subst tail.
  rewrite E, app_nil_r. destruct cls; try discriminate H; reflexivity.
Qed.

Lemma find_all_columns d :
  find_all (create_ast d) ColumnDef = List.map column_ast (columns_of d).
Proof.
  rewrite find_all_item_class by reflexivity. unfold columns_of.
  induction (ct_items d) as [|[c|cols|cols t refs|cols] l IH]; simpl;
    first [reflexivity | exact IH | f_equal; exact IH].
Qed.

Lemma find_all_foreign_keys d :
  find_all (create_ast d) ForeignKey
  = List.map (fun cl => item_ast (IForeignKey (fst (fst cl)) (snd (fst cl)) (snd cl)))
      (foreign_key_items d).
Proof.
  rewrite find_all_item_class by reflexivity. unfold foreign_key_items.
  induction (ct_items d) as [|[c|cols|cols t refs|cols] l IH]; simpl;
    first [reflexivity | exact IH | f_equal; exact IH].
Qed.

Lemma find_primary_key d :
  find (create_ast d) PrimaryKey
  = match primary_key_items d with
    | cols :: _ => item_ast (IPrimaryKey cols)
    | [] => VNone
    end.
Proof.
  unfold find. rewrite find_all_item_class by reflexivity. unfold primary_key_items.
  induction (ct_items d) as [|[c|cols|cols t refs|cols] l IH]; simpl;
    first [reflexivity | exact IH | f_equal; exact IH].
Qed.

Lemma find_all_unique d :
  exists inline,
    find_all (create_ast d) UniqueColumnConstraint
    = List.map (fun cols => item_ast (IUnique cols)) (unique_items d) ++ inline
    /\ Forall (eq inline_unique_node) inline
    /\ (inline = [] <-> existsb has_unique (columns_of d) = false).
Proof.
  destruct (find_all_create UniqueColumnConstraint d) as [tail [E P]].
  rewrite filter_below_items_unique in P.
  exists tail. split; [|split].
  - rewrite E. cbn [List.filter isinstance]. simpl app. f_equal.
    clear E P. unfold unique_items.
    induction (ct_items d) as [|[c|cols|cols t refs|cols] l IH]; simpl;
    first [reflexivity | exact IH | f_equal; exact IH].
  - eapply Permutation_Forall; [apply Permutation_sym, P|].
    apply Forall_flat_map, Forall_forall. intros c _. unfold inline_unique_nodes.
    apply Forall_flat_map, Forall_forall. intros k _.
    destruct k; repeat constructor.
  - assert (N : flat_map inline_unique_nodes (columns_of d) = []
                <-> existsb has_unique (columns_of d) = false).
    { clear E P. induction (columns_of d) as [|c l IH]; simpl; [tauto|].
      rewrite orb_false_iff, <- IH. clear IH.
      assert (C : inline_unique_nodes c = [] <-> has_unique c = false).
      { unfold inline_unique_nodes, has_unique.
        induction (col_constraints c) as [|k ks IHk]; simpl; [tauto|].
        destruct k; simpl; try exact IHk. split; discriminate. }
      rewrite <- C. split.
      + intros H. now apply app_eq_nil in H.
      + intros [H1 H2]. now rewrite H1, H2. }
    rewrite <- N. split.
    + intros ->. now apply Permutation_nil in P.
    + intros H. rewrite H in P. now apply Permutation_sym, Permutation_nil in P.
Qed.

End DdlTraversal.

(* ===================================================================== *)
(** ** The builder on the tree of a CREATE TABLE statement *)
(* ===================================================================== *)

Module BuilderFacts.
Import Sqlglot Builder Ddl SqlglotFacts DdlFacts DdlTraversal.

Set Warnings "-clear-no-such-hyp".

(** Runs the binds whose first computation has returned. *)
Ltac ok := repeat (progress (cbn [mbind result_bind assert])).

Section Generator.
Variable sql_of : Value -> string.


Lemma identifier_name_ident i : _get_identifier_name (ident_ast i) = Ok (norm i).
Proof. unfold _get_identifier_name, norm, ident_ast. simpl. now destruct (id_quoted i). Qed.

Lemma table_name_table t : _get_table_name sql_of (table_ast t) = Ok (norm (tr_name t)).
Proof. apply identifier_name_ident. Qed.

Lemma schema_name_table t sp :
  _get_schema_name sql_of (table_ast t) sp = Ok (resolved_schema sp t).
Proof.
  unfold _get_schema_name, resolved_schema, table_ast, db, text, arg. simpl.
  destruct (tr_db t) as [i|]; simpl; [|reflexivity].
  now destruct (PyStr.truthy (id_text i)).
Qed.

Lemma column_name_column c :
  _get_column_name sql_of (column_ast c) = Ok (norm (col_name c)).
Proof. apply identifier_name_ident. Qed.

Lemma identifier_names l :
  mapM _get_identifier_name (List.map ident_ast l) = Ok (List.map norm l).
Proof.
  induction l as [|i l IH]; [reflexivity|].
  cbn [List.map mapM]. now rewrite identifier_name_ident, IH.
Qed.

(** *** The pre-scan of the table-level foreign keys *)

Lemma foreign_key_children cols t refs :
  iter_expressions (item_ast (IForeignKey cols t refs))
  = List.map ident_ast cols ++ [reference_ast t refs].
Proof.
  unfold iter_expressions, item_ast, reference_ast. cbn [args_of flat_map snd value_children].
  rewrite filter_expression_map by reflexivity. now rewrite app_nil_r.
Qed.

Lemma find_reference cols t refs :
  find (item_ast (IForeignKey cols t refs)) Reference = reference_ast t refs.
Proof.
  eapply (find_first _ _ (item_ast (IForeignKey cols t refs) :: List.map ident_ast cols)).
  - rewrite walk_unfold, foreign_key_children, <- app_assoc. reflexivity.
  - rewrite filter_cons_false by reflexivity.
    induction cols as [|c cols IH]; [reflexivity|exact IH].
  - reflexivity.
Qed.

Lemma store_entries_app m a b :
  store_entries (store_entries m a) b = store_entries m (a ++ b).
Proof. unfold store_entries. now rewrite fold_left_app. Qed.

Lemma scan_foreign_key_item sp fks cols t refs :
  scan_foreign_key sql_of sp fks (item_ast (IForeignKey cols t refs))
  = Ok (store_entries fks (clause_entries sp (cols, t, refs))).
Proof.
  unfold scan_foreign_key. rewrite find_reference.
  change (expressions (item_ast (IForeignKey cols t refs))) with (List.map ident_ast cols).
  rewrite identifier_names; ok.
  change (this (reference_ast t refs))
    with (VExp Schema [("this", table_ast t); ("expressions", VList (List.map ident_ast refs))]).
  cbn [is_none reference_ast negb assert isinstance bool_decide]. ok.
  change (this (VExp Schema [("this", table_ast t);
                             ("expressions", VList (List.map ident_ast refs))]))
    with (table_ast t).
  change (expressions (VExp Schema [("this", table_ast t);
                                    ("expressions", VList (List.map ident_ast refs))]))
    with (List.map ident_ast refs).
  change (isinstance (table_ast t) Table) with true.
  cbn [assert]. ok; rewrite schema_name_table; ok; rewrite table_name_table; ok.
  rewrite identifier_names; ok. f_equal.
  unfold store_entries, clause_entries, resolved_ref.
  generalize fks. clear fks. revert refs.
  induction cols as [|c cols IH]; intros refs fks; [reflexivity|].
  destruct refs as [|r refs]; [reflexivity|]. cbn [List.map combine fold_left fst snd].
  apply IH.
Qed.

Lemma scan_foreign_keys sp fks cls :
  foldM (scan_foreign_key sql_of sp)
    (List.map (fun cl => item_ast (IForeignKey (fst (fst cl)) (snd (fst cl)) (snd cl))) cls)
    fks
  = Ok (store_entries fks (flat_map (clause_entries sp) cls)).
Proof.
  revert fks. induction cls as [|[[cols t] refs] cls IH]; intros fks; [reflexivity|].
  cbn [List.map foldM fst snd flat_map]. rewrite scan_foreign_key_item; ok; rewrite IH.
  now rewrite store_entries_app.
Qed.

(** *** One column *)

Lemma kind_constraint k : get_kind (constraint_ast k) = Ok (constraint_kind_ast k).
Proof. reflexivity. Qed.

Lemma any_primary_key cs :
  any_kind PrimaryKeyColumnConstraint (List.map constraint_ast cs)
  = Ok (existsb (fun k => match k with CPrimaryKey => true | _ => false end) cs).
Proof.
  induction cs as [|k cs IH]; [reflexivity|].
  cbn [List.map any_kind existsb]. rewrite kind_constraint; ok.
  destruct k; try exact IH; reflexivity.
Qed.

Lemma any_unique cs :
  any_kind UniqueColumnConstraint (List.map constraint_ast cs)
  = Ok (existsb (fun k => match k with CUnique => true | _ => false end) cs).
Proof.
  induction cs as [|k cs IH]; [reflexivity|].
  cbn [List.map any_kind existsb]. rewrite kind_constraint; ok.
  destruct k; try exact IH; reflexivity.
Qed.

Lemma any_not_null cs :
  any_kind NotNullColumnConstraint (List.map constraint_ast cs)
  = Ok (existsb (fun k => match k with CNotNull => true | _ => false end) cs).
Proof.
  induction cs as [|k cs IH]; [reflexivity|].
  cbn [List.map any_kind existsb]. rewrite kind_constraint; ok.
  destruct k; try exact IH; reflexivity.
Qed.

Lemma first_reference cs :
  first_kind Reference (List.map constraint_ast cs)
  = Ok (match List.find (fun k => match k with CReferences _ _ _ => true | _ => false end) cs with
        | Some k => constraint_ast k
        | None => VNone
        end).
Proof.
  induction cs as [|k cs IH]; [reflexivity|].
  cbn [List.map first_kind List.find]. rewrite kind_constraint; ok.
  destruct k; try exact IH; reflexivity.
Qed.

Lemma inline_reference_find cs :
  head (flat_map (fun k => match k with CReferences t col _ => [(t, col)] | _ => [] end) cs)
  = match List.find (fun k => match k with CReferences _ _ _ => true | _ => false end) cs with
    | Some (CReferences t col _) => Some (t, col)
    | _ => None
    end.
Proof.
  induction cs as [|k cs IH]; [reflexivity|].
  destruct k; try exact IH; reflexivity.
Qed.

Lemma resolve_foreign_key_column sp fks c :
  resolve_foreign_key sql_of sp fks (column_ast c) (norm (col_name c))
  = Ok (column_fk sp fks c).
Proof.
  unfold resolve_foreign_key, column_fk, inline_reference.
  change (Sqlglot.constraints (column_ast c)) with (List.map constraint_ast (col_constraints c)).
  rewrite first_reference; ok; rewrite inline_reference_find.
  destruct (List.find _ (col_constraints c)) as [k|] eqn:F.
  - apply find_some in F as [_ F]. destruct k as [| | | |t col more]; try discriminate F.
    change (negb (is_none (constraint_ast (CReferences t col more)))) with true.
    cbv iota. rewrite kind_constraint; ok.
    change (constraint_kind_ast (CReferences t col more)) with (reference_ast t (col :: more)).
    change (isinstance (reference_ast t (col :: more)) Reference) with true.
    change (this (reference_ast t (col :: more)))
      with (VExp Schema [("this", table_ast t);
                         ("expressions", VList (List.map ident_ast (col :: more)))]).
    change (this (VExp Schema [("this", table_ast t);
                               ("expressions", VList (List.map ident_ast (col :: more)))]))
      with (table_ast t).
    change (expressions (VExp Schema [("this", table_ast t);
                               ("expressions", VList (List.map ident_ast (col :: more)))]))
      with (ident_ast col :: List.map ident_ast more).
    change (isinstance (VExp Schema [("this", table_ast t);
                               ("expressions", VList (List.map ident_ast (col :: more)))])
              Schema) with true.
    change (isinstance (table_ast t) Table) with true.
    change (isinstance (ident_ast col) Identifier) with true.
    cbn [assert]. ok.
    rewrite schema_name_table; ok; rewrite table_name_table; ok.
    now rewrite identifier_name_ident; ok.
  - cbn [is_none negb].
    destruct (fks !! norm (col_name c)) as [[[s t] k]|]; reflexivity.
Qed.

Lemma literal_int_arg a : literal_int (type_arg_ast a) = arg_int a.
Proof.
  destruct a as [txt [|]|txt s]; try reflexivity.
  unfold literal_int, is_int, arg_int. simpl.
  change (Sqlglot.name (literal_ast txt false)) with txt.
  now destruct (PyStr.py_int txt).
Qed.

Lemma extract_datatype_column c :
  _extract_datatype (column_ast c)
  = Ok (ty_keyword (col_type c), type_precision (col_type c), type_scale (col_type c)).
Proof.
  unfold _extract_datatype, type_precision, type_scale. cbv zeta.
  change (kind (column_ast c)) with (type_ast (col_type c)).
  change (isinstance (type_ast (col_type c)) DataType) with true.
  cbn [assert]. ok.
  change (this (type_ast (col_type c))) with (VEnum (ty_keyword (col_type c))).
  ok.
  assert (E : expressions (type_ast (col_type c))
              = List.map type_arg_ast (ty_args (col_type c))).
  { unfold type_ast, expressions, arg. simpl. now destruct (ty_args (col_type c)). }
  rewrite E. destruct (ty_args (col_type c)) as [|a [|b [|x l]]]; cbn [List.map length].
  - now destruct (in_strings _ _).
  - destruct (in_strings _ _); simpl; now rewrite ?literal_int_arg.
  - destruct (in_strings _ _); simpl; now rewrite ?literal_int_arg.
  - destruct (in_strings _ _); simpl; now rewrite ?literal_int_arg.
Qed.

Lemma process_column_column sp s t fks st c :
  process_column sql_of sp s t fks st (column_ast c)
  = Ok {| pk_col_names :=
            if has_primary_key c then pk_col_names st ∪ {[norm (col_name c)]}
            else pk_col_names st;
          unique_col_names :=
            if has_unique c then unique_col_names st ++ [{[norm (col_name c)]}]
            else unique_col_names st;
          calls := calls st ++ [Catalog.AddColumn s t (column_of sp fks c)] |}.
Proof.
  unfold process_column.
  change (Sqlglot.constraints (column_ast c)) with (List.map constraint_ast (col_constraints c)).
  rewrite column_name_column; ok; rewrite any_primary_key; ok; rewrite any_unique; ok; rewrite any_not_null; ok; rewrite resolve_foreign_key_column; ok.
  destruct (column_fk sp fks c) as [[fs ft] fc] eqn:F.
  rewrite extract_datatype_column; ok.
  unfold column_of. now rewrite F.
Qed.

(** *** The loops over the columns, the primary key and the UNIQUE nodes *)

Lemma process_columns sp s t fks cols st :
  foldM (process_column sql_of sp s t fks) (List.map column_ast cols) st
  = Ok {| pk_col_names :=
            pk_col_names st
            ∪ list_to_set (List.map (fun c => norm (col_name c))
                             (List.filter has_primary_key cols));
          unique_col_names :=
            unique_col_names st
            ++ List.map (fun c => {[norm (col_name c)]}) (List.filter has_unique cols);
          calls :=
            calls st ++ List.map (fun c => Catalog.AddColumn s t (column_of sp fks c)) cols |}.
Proof.
  revert st. induction cols as [|c cols IH]; intros [pk uq log].
  - cbn [List.map foldM List.filter pk_col_names unique_col_names calls list_to_set].
    f_equal. f_equal; [set_solver|now rewrite app_nil_r|now rewrite app_nil_r].
  - cbn [List.map foldM]. rewrite process_column_column. ok. rewrite IH.
    cbn [pk_col_names unique_col_names calls List.filter]. f_equal.
    destruct (has_primary_key c), (has_unique c);
      cbn [List.map list_to_set]; rewrite <- ?app_assoc; cbn [app];
      f_equal; set_solver.
Qed.

Lemma find_column i : find (ordered_ast i) Column = VExp Column [("this", ident_ast i)].
Proof. reflexivity. Qed.

Lemma add_primary_key_part_ordered pks i :
  add_primary_key_part sql_of pks (ordered_ast i) = Ok (pks ∪ {[norm i]}).
Proof.
  unfold add_primary_key_part.
  change (on_expression (ordered_ast i) ?k) with k.
  rewrite find_column. cbn [is_none negb]. ok.
  change (_get_column_name sql_of (VExp Column [("this", ident_ast i)]))
    with (_get_identifier_name (ident_ast i)).
  rewrite identifier_name_ident. now ok.
Qed.

Lemma add_primary_key_parts cols pks :
  foldM (add_primary_key_part sql_of) (List.map ordered_ast cols) pks
  = Ok (pks ∪ list_to_set (List.map norm cols)).
Proof.
  revert pks. induction cols as [|i cols IH]; intros pks.
  - cbn [List.map foldM list_to_set]. f_equal. set_solver.
  - cbn [List.map foldM]. rewrite add_primary_key_part_ordered. ok. rewrite IH.
    cbn [list_to_set]. f_equal. set_solver.
Qed.

Lemma add_unique_item uqs cols :
  add_unique uqs (item_ast (IUnique cols)) = Ok (uqs ++ [∅]).
Proof. reflexivity. Qed.

Lemma add_unique_inline uqs :
  add_unique uqs inline_unique_node
  = Raise (AssertionError "Expected Schema expression in Unique constraint").
Proof. reflexivity. Qed.

Lemma add_uniques items inline uqs :
  Forall (eq inline_unique_node) inline ->
  foldM add_unique (List.map (fun cols => item_ast (IUnique cols)) items ++ inline) uqs
  = match inline with
    | [] => Ok (uqs ++ List.map (fun _ => ∅) items)
    | _ :: _ => Raise (AssertionError "Expected Schema expression in Unique constraint")
    end.
Proof.
  intros H. revert uqs. induction items as [|cols items IH]; intros uqs.
  - cbn [List.map app]. destruct H as [|n inline <- _].
    + cbn [foldM]. now rewrite app_nil_r.
    + cbn [foldM]. now rewrite add_unique_inline.
  - cbn [List.map app foldM]. rewrite add_unique_item. ok. rewrite IH.
    destruct inline; [|reflexivity]. now rewrite <- app_assoc.
Qed.

(** *** The whole statement *)

Theorem build_table_create sp log d :
  build_table sql_of sp log (create_ast d) = table_outcome sp log d.
Proof.
  unfold build_table, table_outcome. cbv zeta.
  rewrite find_table, find_all_columns, find_primary_key, find_all_foreign_keys.
  change (negb (is_none (table_ast (ct_table d)))) with true. ok.
  rewrite table_name_table. ok. rewrite schema_name_table. ok.
  rewrite scan_foreign_keys. ok. fold (fk_map sp d).
  rewrite process_columns. ok. cbn [pk_col_names unique_col_names calls].
  destruct (find_all_unique d) as [inline [EU [FU NU]]]. rewrite EU.
  assert (PK : (if negb (is_none match primary_key_items d with
                                  | cols :: _ => item_ast (IPrimaryKey cols)
                                  | [] => VNone
                                  end)
                then foldM (add_primary_key_part sql_of)
                       (expressions match primary_key_items d with
                                    | cols :: _ => item_ast (IPrimaryKey cols)
                                    | [] => VNone
                                    end)
                       (∅ ∪ list_to_set (List.map (fun c => norm (col_name c))
                                           (List.filter has_primary_key (columns_of d))))
                else Ok (∅ ∪ list_to_set (List.map (fun c => norm (col_name c))
                                            (List.filter has_primary_key (columns_of d)))))
               = Ok (pk_names d)).
  { unfold pk_names, inline_pk_names, table_pk_names.
    destruct (primary_key_items d) as [|cols rest].
    - cbn [is_none negb]. f_equal. set_solver.
    - change (negb (is_none (item_ast (IPrimaryKey cols)))) with true. cbv iota.
      change (expressions (item_ast (IPrimaryKey cols))) with (List.map ordered_ast cols).
      rewrite add_primary_key_parts. f_equal. set_solver. }
  rewrite PK. ok. rewrite (add_uniques _ _ _ FU).
  destruct (existsb has_unique (columns_of d)) eqn:HU.
  - destruct inline as [|n inline]; [|reflexivity].
    destruct NU as [NU _]. discriminate (NU eq_refl).
  - destruct NU as [_ NU]. rewrite (NU eq_refl). ok.
    assert (NF : List.filter has_unique (columns_of d) = []).
    { clear -HU. induction (columns_of d) as [|c l IH]; [reflexivity|].
      simpl in *. apply orb_false_iff in HU as [-> H]. now apply IH. }
    rewrite NF. cbn [List.map app].
    destruct (bool_decide (pk_names d = ∅)); [reflexivity|].
    cbn [negb]. ok. unfold table_calls, column_calls, primary_key_call, unique_calls.
    rewrite List.map_map, <- !app_assoc. reflexivity.
Qed.

End Generator.
End BuilderFacts.

(* ===================================================================== *)
(** ** Facts about the Catalog *)
(* ===================================================================== *)

Module CatalogFacts.
Import Catalog.

Lemma lookup_update {A} (dflt : A) (f : A -> A) (m : list (string * A)) (k k' : string) :
  lookup (update dflt f m k) k'
  = if String.eqb k k' then Some (f (default dflt (lookup m k))) else lookup m k'.
Proof.
  induction m as [|[k0 v] m IH]; simpl.
  - destruct (String.eqb k k'); reflexivity.
  - destruct (String.eqb k0 k) eqn:E0; simpl.
    + apply String.eqb_eq in E0. subst k0.
      destruct (String.eqb k k'); reflexivity.
    + rewrite IH. destruct (String.eqb k k') eqn:E.
      * apply String.eqb_eq in E. subst k'. now rewrite E0.
      * reflexivity.
Qed.

(** A call changes the table it is made on, creating it when absent, and no
    other. *)
Lemma table_of_apply_call cat c s t :
  table_of (apply_call cat c) s t
  = if targets s t c
    then Some (apply_to_table (default empty_table (table_of cat s t)) c)
    else table_of cat s t.
Proof.
  assert (G : forall f s' t',
             table_of (on_table f cat s' t') s t
             = if String.eqb s' s && String.eqb t' t
               then Some (f (default empty_table (table_of cat s t)))
               else table_of cat s t).
  { intros f s' t'. unfold table_of, on_table. rewrite lookup_update.
    destruct (String.eqb s' s) eqn:Es; simpl; [|reflexivity].
    apply String.eqb_eq in Es. subst s'. rewrite lookup_update.
    destruct (String.eqb t' t) eqn:Et.
    - apply String.eqb_eq in Et. subst t'. now destruct (lookup cat s).
    - now destruct (lookup cat s). }
  destruct c; simpl; apply G.
Qed.

(** The table a sequence of calls leaves is the table that the calls made on
    it build. *)
Lemma table_of_calls calls cat s t :
  table_of (fold_left apply_call calls cat) s t
  = match List.filter (targets s t) calls with
    | [] => table_of cat s t
    | l => Some (fold_left apply_to_table l (default empty_table (table_of cat s t)))
    end.
Proof.
  revert cat. induction calls as [|c calls IH]; intros cat; [reflexivity|].
  cbn [fold_left List.filter]. rewrite IH, table_of_apply_call.
  destruct (targets s t c); [|reflexivity].
  cbn [default]. now destruct (List.filter (targets s t) calls).
Qed.

Lemma columns_after_calls l tbl :
  table_columns (fold_left apply_to_table l tbl)
  = table_columns tbl
    ++ flat_map (fun c => match c with AddColumn _ _ col => [col] | _ => [] end) l.
Proof.
  revert tbl. induction l as [|c l IH]; intros tbl; simpl; [now rewrite app_nil_r|].
  rewrite IH. destruct c; simpl; [now rewrite <- app_assoc|reflexivity].
Qed.

Lemma constraints_after_calls l tbl :
  unique_constraints (fold_left apply_to_table l tbl)
  = unique_constraints tbl
    ++ flat_map (fun c => match c with
                          | AddUniqueConstraint _ _ cols ct =>
                              [{| columns := cols; constraint_type := ct |}]
                          | _ => []
                          end) l.
Proof.
  revert tbl. induction l as [|c l IH]; intros tbl; simpl; [now rewrite app_nil_r|].
  rewrite IH. destruct c; simpl; [reflexivity|now rewrite <- app_assoc].
Qed.

End CatalogFacts.

(* ===================================================================== *)
(** ** The builder on a sequence of statements *)
(* ===================================================================== *)

Module BuilderStatements.
Import Sqlglot Builder Ddl BuilderFacts CatalogFacts.

Section Generator.
Variable sql_of : Value -> string.

Lemma is_create_table_create d : is_create_table (create_ast d) = Ok true.
Proof. reflexivity. Qed.

Lemma filter_create_tables ds :
  filterM is_create_table (List.map create_ast ds) = Ok (List.map create_ast ds).
Proof.
  induction ds as [|d ds IH]; [reflexivity|].
  cbn [List.map filterM]. rewrite is_create_table_create. ok. rewrite IH. now ok.
Qed.

Lemma build_tables sp ds log :
  foldM (build_table sql_of sp) (List.map create_ast ds) log = tables_outcome sp log ds.
Proof.
  unfold tables_outcome. revert log. induction ds as [|d ds IH]; intros log; [reflexivity|].
  cbn [List.map foldM]. rewrite build_table_create.
  destruct (table_outcome sp log d); ok; [apply IH|reflexivity].
Qed.


Lemma table_outcome_accepted sp log d :
  accepted d = true -> table_outcome sp log d = Ok (log ++ table_calls sp d).
Proof.
  unfold table_outcome, accepted. intros H. apply andb_true_iff in H as [H1 H2].
  apply negb_true_iff in H1, H2. now rewrite H1, H2.
Qed.


Lemma tables_outcome_accepted sp ds log :
  forallb accepted ds = true ->
  tables_outcome sp log ds = Ok (log ++ flat_map (table_calls sp) ds).
Proof.
  unfold tables_outcome. revert log. induction ds as [|d ds IH]; intros log H.
  - cbn [foldM flat_map]. now rewrite app_nil_r.
  - cbn [forallb] in H. apply andb_true_iff in H as [A As].
    cbn [foldM]. rewrite (table_outcome_accepted _ _ _ A). ok. rewrite (IH _ As).
    cbn [flat_map]. now rewrite <- app_assoc.
Qed.

(** The catalog of a sequence of CREATE TABLE statements. *)
Lemma build_catalog_create sp ds :
  build_catalog_from_statements sql_of (List.map create_ast ds) sp
  = (log ← tables_outcome sp [] ds; Ok (Catalog.replay log)).
Proof.
  unfold build_catalog_from_statements. rewrite filter_create_tables. ok.
  now rewrite build_tables.
Qed.




End Generator.
End BuilderStatements.

(* ===================================================================== *)
(** ** The claims about [build_catalog_from_sql] *)
(* ===================================================================== *)

Module BuilderClaims.
Import Sqlglot Builder Ddl BuilderFacts CatalogFacts BuilderStatements Examples.






(** *** Statements without a primary key *)

Lemma bind_raises {A B} (r : result A) (k : A -> result B) :
  (forall a, r = Ok a -> exists e, k a = Raise e) -> exists e, (r ≫= k) = Raise e.
Proof.
  intros H. destruct r as [a|e]; ok; [now apply H|]. now exists e.
Qed.

Section Generator.
Variable sql_of : Value -> string.

(** A column without an inline PRIMARY KEY marker leaves the accumulated
    primary key as it is. *)
Lemma process_column_no_pk sp s t fks st c st' :
  has_inline_primary_key c = false ->
  process_column sql_of sp s t fks st c = Ok st' ->
  pk_col_names st' = pk_col_names st.
Proof.
  unfold has_inline_primary_key, process_column. intros N.
  destruct (_get_column_name sql_of c) as [n|]; ok; [|discriminate].
  destruct (any_kind PrimaryKeyColumnConstraint (Sqlglot.constraints c)) as [[|]|];
    ok; try discriminate.
  destruct (any_kind UniqueColumnConstraint (Sqlglot.constraints c)) as [u|];
    ok; [|discriminate].
  destruct (any_kind NotNullColumnConstraint (Sqlglot.constraints c)) as [nn|];
    ok; [|discriminate].
  destruct (resolve_foreign_key sql_of sp fks c n) as [[[fs ft] fc]|]; ok; [|discriminate].
  destruct (_extract_datatype c) as [[[ty p] sc]|]; ok; [|discriminate].
  now intros [= <-].
Qed.

Lemma process_columns_no_pk sp s t fks cols st st' :
  forallb (fun c => negb (has_inline_primary_key c)) cols = true ->
  foldM (process_column sql_of sp s t fks) cols st = Ok st' ->
  pk_col_names st' = pk_col_names st.
Proof.
  revert st. induction cols as [|c cols IH]; intros st N.
  - now intros [= <-].
  - cbn [forallb] in N. apply andb_true_iff in N as [Nc N]. apply negb_true_iff in Nc.
    cbn [foldM]. destruct (process_column sql_of sp s t fks st c) as [st1|] eqn:E;
      ok; [|discriminate].
    intros H. rewrite (IH _ N H). now apply (process_column_no_pk sp s t fks st c).
Qed.

(** The builder does not return from a statement without a primary key. *)
Lemma build_table_no_pk sp log statement :
  no_primary_key statement = true ->
  exists e, build_table sql_of sp log statement = Raise e.
Proof.
  unfold no_primary_key, build_table. intros N. apply andb_true_iff in N as [Nc Nk].
  cbv zeta. apply bind_raises. intros _ _.
  apply bind_raises. intros table_name _.
  apply bind_raises. intros schema_name _.
  apply bind_raises. intros fks _.
  apply bind_raises. intros st Hst.
  apply (process_columns_no_pk _ _ _ _ _ _ _ Nc) in Hst. cbn in Hst.
  rewrite Nk, Hst. cbn [negb]. ok.
  apply bind_raises. intros uqs _.
  eexists. reflexivity.
Qed.

Lemma foldM_raises {S A} (f : S -> A -> result S) (l : list A) (x : A) :
  In x l -> (forall s, exists e, f s x = Raise e) ->
  forall s, exists e, foldM f l s = Raise e.
Proof.
  intros I H. induction l as [|y l IH]; [destruct I|]. intros s. cbn [foldM].
  destruct I as [->|I].
  - destruct (H s) as [e ->]. now exists e.
  - apply bind_raises. intros s' _. now apply IH.
Qed.

Lemma foldM_app {S A} (f : S -> A -> result S) (l1 l2 : list A) (s : S) :
  foldM f (l1 ++ l2) s = (s' ← foldM f l1 s; foldM f l2 s').
Proof.
  revert s. induction l1 as [|x l1 IH]; intros s; [reflexivity|].
  cbn [app foldM]. destruct (f s x); ok; [apply IH|reflexivity].
Qed.

Lemma filterM_keeps {A} (p : A -> result bool) (l l' : list A) (x : A) :
  filterM p l = Ok l' -> In x l -> p x = Ok true -> In x l'.
Proof.
  revert l'. induction l as [|y l IH]; intros l' F I P; [destruct I|].
  cbn [filterM] in F. destruct (p y) as [b|] eqn:Py; ok; [|discriminate F].
  destruct (filterM p l) as [ys|]; ok; [|discriminate F]. injection F as <-.
  destruct I as [->|I].
  - rewrite P in Py. injection Py as <-. now left.
  - specialize (IH ys eq_refl I P). destruct b; [now right|assumption].
Qed.

(** C2. A CREATE TABLE statement in which no column carries an inline
    PRIMARY KEY marker and which has no table-level PRIMARY KEY node makes
    [build_catalog_from_sql] fail: whatever the other statements of the input
    are, the call ends in an exception and returns no Catalog. When the
    statements are as the parser builds them and those before it are
    accepted, the exception is the failed assertion on the primary key (or,
    for a statement with an inline UNIQUE marker, the one on the UNIQUE
    node). *)
Theorem missing_primary_key_is_fatal sp :
  (forall stmts stmt,
      In stmt stmts -> is_create_table stmt = Ok true -> no_primary_key stmt = true ->
      exists e, build_catalog_from_statements sql_of stmts sp = Raise e)
  /\ (forall ds1 d ds2,
        forallb accepted ds1 = true ->
        inline_pk_names d = ∅ -> primary_key_items d = [] ->
        build_catalog_from_statements sql_of (List.map create_ast (ds1 ++ d :: ds2)) sp
        = Raise (AssertionError
                   (if existsb has_unique (columns_of d)
                    then "Expected Schema expression in Unique constraint"
                    else "Primary Key columns should have been identified"))).
Proof.
  split.
  - intros stmts stmt I C N. unfold build_catalog_from_statements.
    apply bind_raises. intros l F.
    assert (R : forall s, exists e, foldM (build_table sql_of sp) l s = Raise e).
    { apply (foldM_raises _ _ stmt).
      - now apply (filterM_keeps is_create_table stmts).
      - intros s. now apply build_table_no_pk. }
    destruct (R []) as [e He]. rewrite He. now exists e.
  - intros ds1 d ds2 A1 NI NK. rewrite build_catalog_create.
    unfold tables_outcome. rewrite foldM_app. fold (tables_outcome sp [] ds1).
    rewrite (tables_outcome_accepted _ _ _ A1). ok. cbn [foldM].
    assert (P : pk_names d = ∅).
    { unfold pk_names, table_pk_names. rewrite NI, NK. set_solver. }
    unfold table_outcome. rewrite P.
    destruct (existsb has_unique (columns_of d)); [reflexivity|].
    assert (E : bool_decide ((∅ : gset string) = ∅) = true)
      by now apply bool_decide_eq_true.
    now rewrite E.
Qed.

End Generator.

(** The input [other_table; no_key]: the first statement is accepted, the
    second has no primary key, and the call fails. *)
Lemma missing_primary_key_witness :
  (exists e, build_catalog_from_statements no_sql
               [VNone; create_ast other_table; create_ast no_key] "public" = Raise e)
  /\ build_catalog_from_statements no_sql
       (List.map create_ast ([other_table] ++ no_key :: [merged_key])) "public"
     = Raise (AssertionError "Primary Key columns should have been identified").
Proof.
  destruct (missing_primary_key_is_fatal no_sql "public") as [G P]. split.
  - apply (G _ (create_ast no_key)); [right; right; now left|reflexivity|reflexivity].
  - apply (P [other_table] no_key [merged_key]); reflexivity.
Defined.

(** *** Foreign keys *)



Section ForeignKeys.
Variable sql_of : Value -> string.


End ForeignKeys.


(** *** UNIQUE constraints and identifiers *)

(** C5 (the code departs from it). A column definition with an inline UNIQUE
    marker makes the builder fail, whatever else the statement holds: the
    search for UNIQUE nodes also finds the marker, whose [this] is no
    [Schema]. And a table-level UNIQUE (b, c) of an accepted statement yields
    a UNIQUE constraint on the empty column set: the builder reads the
    [expressions] of the node, not those of the [Schema] under it. *)
Theorem inline_unique_is_fatal sql_of sp log tbl before name ty k1 k2 after :
  build_table sql_of sp log
    (create_ast
       {| ct_table := tbl;
          ct_items := before
                      ++ IColumn {| col_name := name; col_type := ty;
                                    col_constraints := k1 ++ CUnique :: k2 |}
                      :: after |})
  = Raise (AssertionError "Expected Schema expression in Unique constraint")
  /\ build_table sql_of sp log (create_ast table_unique)
     = Ok (log ++ column_calls sp table_unique
             ++ [Catalog.AddUniqueConstraint sp "t" {["a"]} Catalog.PRIMARY_KEY;
                 Catalog.AddUniqueConstraint sp "t" ∅ Catalog.UNIQUE]).
Proof.
  split; [|now rewrite build_table_create].
  rewrite build_table_create. unfold table_outcome.
  assert (E : existsb has_unique
                (columns_of {| ct_table := tbl;
                               ct_items := before
                                 ++ IColumn {| col_name := name; col_type := ty;
                                               col_constraints := k1 ++ CUnique :: k2 |}
                                 :: after |}) = true).
  { unfold columns_of. cbn [ct_items]. rewrite flat_map_app, existsb_app.
    cbn [flat_map app existsb]. unfold has_unique at 2. cbn [col_constraints].
    rewrite existsb_app. cbn [existsb]. now rewrite !orb_true_r. }
  now rewrite E.
Qed.

(** C6 (the code departs from it). Table and column names follow the rule:
    a quoted identifier is kept, an unquoted one is lower-cased. A schema name
    does not: [Table.db] is the text of the qualifier, so the test for an
    [Identifier] fails and the text is lower-cased, quoted or not. *)
Theorem quoted_schema_is_lowered sql_of sp tbl text :
  (forall t, _get_table_name sql_of (table_ast t) = Ok (norm (tr_name t)))
  /\ (forall c, _get_column_name sql_of (column_ast c) = Ok (norm (col_name c)))
  /\ _get_schema_name sql_of
       (table_ast {| tr_name := tbl;
                     tr_db := Some {| id_text := text; id_quoted := true |} |}) sp
     = Ok (if PyStr.truthy text then PyStr.lower text else sp)
  /\ (exists cat,
        build_catalog_from_statements sql_of [create_ast unquoted_users] "public" = Ok cat
        /\ Catalog.column_paths cat = [("public", "users", "id")])
  /\ (exists cat,
        build_catalog_from_statements sql_of [create_ast quoted_users] "public" = Ok cat
        /\ Catalog.column_paths cat = [("public", "Users", "Id")])
  /\ exists cat,
      build_catalog_from_statements sql_of [create_ast quoted_schema_users] "public" = Ok cat
      /\ Catalog.column_paths cat = [("sales", "Users", "Id")].
Proof.
  split; [apply table_name_table|]. split; [apply column_name_column|].
  split; [apply schema_name_table|].
  split; [|split].
  - change [create_ast unquoted_users] with (List.map create_ast [unquoted_users]).
    rewrite build_catalog_create. eexists. split; reflexivity.
  - change [create_ast quoted_users] with (List.map create_ast [quoted_users]).
    rewrite build_catalog_create. eexists. split; reflexivity.
  - change [create_ast quoted_schema_users] with (List.map create_ast [quoted_schema_users]).
    rewrite build_catalog_create. eexists. split; reflexivity.
Qed.

(** *** Empty input and other statements *)

Lemma filterM_app {A} (p : A -> result bool) (l1 l2 : list A) :
  filterM p (l1 ++ l2)
  = (ys1 ← filterM p l1; ys2 ← filterM p l2; Ok (ys1 ++ ys2)).
Proof.
  induction l1 as [|x l1 IH]; cbn [app filterM]; ok.
  - now destruct (filterM p l2).
  - destruct (p x) as [b|]; ok; [|reflexivity]. rewrite IH.
    destruct (filterM p l1); ok; [|reflexivity].
    destruct (filterM p l2); ok; [|reflexivity]. now destruct b.
Qed.

Lemma filterM_none (l : list Value) :
  Forall (fun s => is_create_table s = Ok false) l -> filterM is_create_table l = Ok [].
Proof.
  induction 1 as [|x l Hx _ IH]; [reflexivity|].
  cbn [filterM]. rewrite Hx. ok. rewrite IH. now ok.
Qed.

(** C9. On a text of blanks, for which the parser returns no statement but
    [None], [build_catalog_from_sql] returns the Catalog with no schema. On
    every input, a parsed statement that is not a CREATE TABLE (no [Create]
    node, or a [Create] of another kind) is skipped: the result is that of the
    input without it. *)
Theorem empty_input_and_skipped_statements sql_of parse sp :
  (forall sql, blank sql = true ->
     exists stmts, parse sql = Ok stmts /\ Forall (eq VNone) stmts) ->
  (forall sql, blank sql = true -> build_catalog_from_sql sql_of parse sql sp = Ok [])
  /\ (forall before stmt after,
        is_create_table stmt = Ok false ->
        build_catalog_from_statements sql_of (before ++ stmt :: after) sp
        = build_catalog_from_statements sql_of (before ++ after) sp)
  /\ (forall stmt, isinstance stmt Create = false -> is_create_table stmt = Ok false)
  /\ (forall args k,
        get args "kind" = VStr k -> PyStr.upper k <> "TABLE" ->
        is_create_table (VExp Create args) = Ok false).
Proof.
  intros P. split; [|split; [|split]].
  - intros sql B. destruct (P sql B) as [stmts [E N]].
    unfold build_catalog_from_sql, build_catalog_from_statements. rewrite E. ok.
    rewrite filterM_none; [reflexivity|].
    eapply Forall_impl; [exact N|]. now intros s <-.
  - intros before stmt after S. unfold build_catalog_from_statements.
    rewrite !filterM_app. cbn [filterM]. rewrite S. ok.
    destruct (filterM is_create_table before); ok; [|reflexivity].
    now destruct (filterM is_create_table after).
  - intros stmt I. unfold is_create_table. now rewrite I.
  - intros args k K U. unfold is_create_table, kind, arg. cbn. rewrite K.
    destruct (String.eqb (PyStr.upper k) "TABLE") eqn:E.
    + now apply String.eqb_eq in E.
    + now rewrite andb_false_r.
Qed.

(** The empty text and a text of two spaces, with a parser that returns
    [[None]] for every text. *)
Lemma empty_input_witness :
  build_catalog_from_sql no_sql (fun _ => Ok [VNone]) "" "public" = Ok []
  /\ build_catalog_from_sql no_sql (fun _ => Ok [VNone]) "  " "public" = Ok [].
Proof.
  assert (P : forall sql, blank sql = true ->
                exists stmts, (fun _ : string => Ok [VNone]) sql = Ok stmts
                              /\ Forall (eq VNone) stmts).
  { intros sql _. exists [VNone]. split; [reflexivity|]. now constructor. }
  destruct (empty_input_and_skipped_statements no_sql (fun _ => Ok [VNone]) "public" P)
    as [E _].
  split; apply E; reflexivity.
Defined.

(** *** Types *)

(** C7 (the code departs from it). The parser puts every argument of a type
    under a [DataTypeParam], and [_extract_datatype] looks for a [Literal] at
    the argument itself (lines 51 and 55): for a column definition as the
    parser builds it, the precision and the scale are [None] whatever the
    type keyword and its arguments are. NUMERIC(10,2) gets no precision and no
    scale, where the claim says 10 and 2. *)
Theorem datatype_arguments_are_ignored name keyword (args : list (string * bool)) constraints :
  _extract_datatype
    (column_ast {| col_name := name;
                   col_type := {| ty_keyword := keyword;
                                  ty_args := List.map (fun a => ArgParam (fst a) (snd a)) args |};
                   col_constraints := constraints |})
  = Ok (keyword, None, None)
  /\ _extract_datatype (column_ast price_column) = Ok ("DECIMAL", None, None).
Proof.
  split; [|reflexivity].
  rewrite extract_datatype_column. unfold type_precision, type_scale.
  cbn [col_type ty_keyword ty_args].
  destruct (in_strings keyword numeric_types); [|reflexivity].
  destruct args as [|a [|b [|c l]]]; reflexivity.
Qed.

(** *** The calls of one statement *)

(** On the tree [create_ast] gives for a statement of [Ddl.CreateTable]
    (every column with a type; inline PRIMARY KEY, UNIQUE, NOT NULL,
    AUTO_INCREMENT and REFERENCES with a list of columns; table-level PRIMARY
    KEY, FOREIGN KEY and UNIQUE clauses without a CONSTRAINT name), the body of
    the loop over the statements fails on the UNIQUE node when a column
    carries an inline UNIQUE marker, else on the primary key when none is
    declared, and else adds to the calls made before it: one [add_column] per
    column definition, in order, one PRIMARY_KEY constraint, and one UNIQUE
    constraint per table-level UNIQUE node. Statements outside this fragment
    (a column without a type, a REFERENCES without columns) fail on other
    assertions. *)
Theorem statement_calls sql_of sp log d :
  build_table sql_of sp log (create_ast d)
  = if existsb has_unique (columns_of d)
    then Raise (AssertionError "Expected Schema expression in Unique constraint")
    else if bool_decide (inline_pk_names d ∪ table_pk_names d = ∅)
    then Raise (AssertionError "Primary Key columns should have been identified")
    else Ok (log ++ column_calls sp d ++ [primary_key_call sp d] ++ unique_calls sp d).
Proof. apply build_table_create. Qed.

End BuilderClaims.

(* ===================================================================== *)
(** ** The order of the table-level FOREIGN KEY clauses *)
(* ===================================================================== *)

Module ForeignKeyOrder.
Import Sqlglot Builder Ddl BuilderFacts DdlTraversal BuilderClaims.

Section Generator.
Variable sql_of : Value -> string.

(** *** The pre-scan, on any tree *)






(** *** The columns, on any tree *)






End Generator.



End ForeignKeyOrder.

(* ===================================================================== *)
(** ** [remove_ctes] and the store *)
(* ===================================================================== *)

Module RemoveCtes.
Import Extractors.

(** *** Reading a tree in a larger store *)

Lemma read_refs_mono (rd rd' : loc -> option Sqlglot.Value) cs ts :
  (forall c t, rd c = Some t -> rd' c = Some t) ->
  read_refs rd cs = Some ts -> read_refs rd' cs = Some ts.
Proof.
  intros M. revert ts. induction cs as [|c cs IH]; intros ts; [trivial|].
  cbn [read_refs]. destruct (rd c) as [t|] eqn:E; [|discriminate].
  rewrite (M _ _ E). cbn. destruct (read_refs rd cs) as [ts'|]; [|discriminate].
  now rewrite (IH _ eq_refl).
Qed.

Lemma read_args_mono (rd rd' : loc -> option Sqlglot.Value) a ta :
  (forall c t, rd c = Some t -> rd' c = Some t) ->
  read_args rd a = Some ta -> read_args rd' a = Some ta.
Proof.
  intros M. revert ta. induction a as [|[k v] a IH]; intros ta; [trivial|].
  cbn [read_args].
  destruct (read_val rd v) as [v'|] eqn:E; [|discriminate].
  assert (E' : read_val rd' v = Some v').
  { destruct v as [| | | |c|cs]; cbn in *; try assumption; [now apply M|].
    destruct (read_refs rd cs) as [ts|] eqn:R; [|discriminate].
    now rewrite (read_refs_mono _ _ _ _ M R). }
  rewrite E'. cbn. destruct (read_args rd a) as [ta'|]; [|discriminate].
  now rewrite (IH _ eq_refl).
Qed.

Lemma read_tree_mono fuel (h h' : Store) l t :
  h ⊆ h' -> read_tree fuel h l = Some t -> read_tree fuel h' l = Some t.
Proof.
  intros S. revert l t. induction fuel as [|f IH]; intros l t; [discriminate|].
  cbn [read_tree]. destruct (h !! l) as [o|] eqn:E; [|discriminate].
  rewrite (lookup_weaken _ _ _ _ E S). cbn.
  destruct (read_args (read_tree f h) (obj_args o)) as [ta|] eqn:A; [|discriminate].
  now rewrite (read_args_mono _ _ _ _ IH A).
Qed.

Lemma fresh_loc_free (h : Store) : h !! fresh_loc h = None.
Proof. unfold fresh_loc. apply (not_elem_of_dom (D := gset nat)). apply is_fresh. Qed.

Lemma fresh_loc_subseteq (h : Store) o : h ⊆ <[fresh_loc h := o]> h.
Proof. apply insert_subseteq, fresh_loc_free. Qed.

Lemma read_tree_exp fuel (h : Store) l t :
  read_tree fuel h l = Some t -> exists c a, t = Sqlglot.VExp c a.
Proof.
  destruct fuel as [|f]; [discriminate|]. cbn [read_tree].
  destruct (h !! l) as [o|]; [|discriminate]. cbn.
  destruct (read_args (read_tree f h) (obj_args o)) as [ta|]; [|discriminate]. cbn.
  intros [= <-]. eauto.
Qed.

(** *** The copy *)

Section Copies.
Variable f : nat.

(** The copy of a tree within [f] levels: the store grows and holds the same
    tree at the new location. *)
Hypothesis deepcopy_children : forall h c t,
  read_tree f h c = Some t ->
  exists h' c', deepcopy f h c = Some (h', c') /\ h ⊆ h' /\ read_tree f h' c' = Some t.

Lemma copy_refs_spec h cs ts :
  read_refs (read_tree f h) cs = Some ts ->
  exists h' cs',
    copy_refs (deepcopy f) h cs = Some (h', cs') /\ h ⊆ h'
    /\ read_refs (read_tree f h') cs' = Some ts.
Proof.
  revert h ts. induction cs as [|c cs IH]; intros h ts.
  - intros [= <-]. now exists h, [].
  - cbn [read_refs copy_refs].
    destruct (read_tree f h c) as [t|] eqn:E; [|discriminate]. cbn.
    destruct (read_refs (read_tree f h) cs) as [ts'|] eqn:R; [|discriminate].
    intros [= <-].
    destruct (deepcopy_children _ _ _ E) as [h1 [c' [D [S1 T1]]]]. rewrite D. cbn.
    assert (R1 : read_refs (read_tree f h1) cs = Some ts').
    { eapply read_refs_mono; [|exact R]. intros x tx. now apply read_tree_mono. }
    destruct (IH _ _ R1) as [h2 [cs' [C [S2 T2]]]]. rewrite C. cbn.
    exists h2, (c' :: cs'). split; [reflexivity|]. split; [now transitivity h1|].
    cbn [read_refs]. rewrite (read_tree_mono _ _ _ _ _ S2 T1). cbn. now rewrite T2.
Qed.

Lemma copy_args_spec h a ta :
  read_args (read_tree f h) a = Some ta ->
  exists h' a',
    copy_args (deepcopy f) h a = Some (h', a') /\ h ⊆ h'
    /\ read_args (read_tree f h') a' = Some ta.
Proof.
  revert h ta. induction a as [|[k v] a IH]; intros h ta.
  - intros [= <-]. now exists h, [].
  - cbn [read_args copy_args].
    destruct (read_val (read_tree f h) v) as [tv|] eqn:E; [|discriminate]. cbn.
    destruct (read_args (read_tree f h) a) as [ta'|] eqn:R; [|discriminate].
    intros [= <-].
    assert (V : exists h1 v', copy_val (deepcopy f) h v = Some (h1, v') /\ h ⊆ h1
                              /\ read_val (read_tree f h1) v' = Some tv).
    { destruct v as [| | | |c|cs]; cbn in E |- *;
        try (injection E as <-; eexists h, _; split; [reflexivity|]; now split).
      - destruct (deepcopy_children _ _ _ E) as [h1 [c' [D [S1 T1]]]]. rewrite D. cbn.
        now exists h1, (HRef c').
      - destruct (read_refs (read_tree f h) cs) as [ts|] eqn:Rc; [|discriminate].
        injection E as <-.
        destruct (copy_refs_spec _ _ _ Rc) as [h1 [cs' [C [S1 T1]]]]. rewrite C. cbn.
        exists h1, (HRefs cs'). split; [reflexivity|]. split; [assumption|].
        cbn. now rewrite T1. }
    destruct V as [h1 [v' [C1 [S1 T1]]]]. rewrite C1. cbn.
    assert (R1 : read_args (read_tree f h1) a = Some ta').
    { eapply read_args_mono; [|exact R]. intros x tx. now apply read_tree_mono. }
    destruct (IH _ _ R1) as [h2 [a' [C2 [S2 T2]]]]. rewrite C2. cbn.
    exists h2, ((k, v') :: a'). split; [reflexivity|]. split; [now transitivity h1|].
    cbn [read_args].
    assert (T1' : read_val (read_tree f h2) v' = Some tv).
    { destruct v' as [| | | |c|cs]; cbn in T1 |- *; try assumption.
      - now apply (read_tree_mono _ h1).
      - destruct (read_refs (read_tree f h1) cs) as [ts|] eqn:Rc; [|discriminate].
        erewrite read_refs_mono; [exact T1| |exact Rc].
        intros x tx. now apply read_tree_mono. }
    rewrite T1'. cbn. now rewrite T2.
Qed.

End Copies.

(** The copy of a tree: a store [h1] that extends the input, a new object
    at a location free in [h1], and under it the arguments of the tree. *)
Lemma deepcopy_spec fuel h l c ta :
  read_tree fuel h l = Some (Sqlglot.VExp c ta) ->
  exists h1 a',
    deepcopy fuel h l
    = Some (<[fresh_loc h1 := {| obj_cls := c; obj_args := a' |}]> h1, fresh_loc h1)
    /\ h ⊆ h1
    /\ read_args (read_tree (pred fuel) h1) a' = Some ta.
Proof.
  revert h l c ta. induction fuel as [|f IH]; intros h l c ta; [discriminate|].
  cbn [read_tree deepcopy pred].
  destruct (h !! l) as [o|]; [|discriminate]. cbn.
  destruct (read_args (read_tree f h) (obj_args o)) as [ta'|] eqn:A; [|discriminate].
  intros [= <- <-].
  assert (CH : forall h c t,
             read_tree f h c = Some t ->
             exists h' c', deepcopy f h c = Some (h', c') /\ h ⊆ h'
                           /\ read_tree f h' c' = Some t).
  { intros h0 c0 t0 R0.
    destruct (read_tree_exp _ _ _ _ R0) as [c1 [a1 ->]].
    destruct (IH _ _ _ _ R0) as [h1 [a' [D [S1 T1]]]].
    eexists _, _. split; [exact D|]. split.
    - transitivity h1; [assumption|apply fresh_loc_subseteq].
    - destruct f; [discriminate|]. cbn [read_tree pred] in *.
      rewrite lookup_insert_eq. cbn.
      erewrite read_args_mono; [reflexivity| |exact T1].
      intros x tx. apply read_tree_mono, fresh_loc_subseteq. }
  destruct (copy_args_spec f CH _ _ _ A) as [h1 [a' [C [S1 T1]]]]. rewrite C. cbn.
  now exists h1, a'.
Qed.

Lemma read_args_pop rd a ta key :
  read_args rd a = Some ta -> read_args rd (pop a key) = Some (pop ta key).
Proof.
  revert ta. induction a as [|[k v] a IH]; intros ta.
  - now intros [= <-].
  - cbn [read_args pop]. destruct (read_val rd v) as [tv|] eqn:E; [|discriminate]. cbn.
    destruct (read_args rd a) as [ta'|]; [|discriminate]. intros [= <-].
    cbn [pop]. destruct (String.eqb k key); [now apply IH|].
    cbn [read_args]. rewrite E. cbn. now rewrite (IH _ eq_refl).
Qed.

(** C8. [remove_ctes] on a store that holds a tree at [l], with fuel for
    its height: the text returned is the generator's rendering of the tree
    without the argument under [with]; every object of the input store is
    left as it was, so the store still holds the same tree at [l]. For [None]
    the text is empty and the store unchanged. *)
Theorem remove_ctes_spec sql_of fuel (h : Store) l t :
  read_tree fuel h l = Some t ->
  (exists h',
      remove_ctes sql_of fuel h (Some l) = Some (h', sql_of (without_with t))
      /\ (forall l0 o, h !! l0 = Some o -> h' !! l0 = Some o)
      /\ read_tree fuel h' l = Some t)
  /\ remove_ctes sql_of fuel h None = Some (h, "").
Proof.
  intros R. split; [|reflexivity].
  destruct (read_tree_exp _ _ _ _ R) as [c [ta ->]].
  destruct (deepcopy_spec _ _ _ _ _ R) as [h1 [a' [D [S1 T1]]]].
  set (l' := fresh_loc h1) in *.
  set (h2 := <[l' := {| obj_cls := c; obj_args := pop a' "with" |}]> h1).
  assert (S2 : h1 ⊆ h2) by apply fresh_loc_subseteq.
  assert (E2 : set_none (<[l' := {| obj_cls := c; obj_args := a' |}]> h1) l' "with" = h2).
  { unfold set_none. rewrite lookup_insert_eq. cbn. apply insert_insert_eq. }
  assert (L2 : h2 !! l' = Some {| obj_cls := c; obj_args := pop a' "with" |})
    by apply lookup_insert_eq.
  exists h2. split; [|split].
  - unfold remove_ctes. rewrite D. cbn. rewrite E2.
    destruct fuel as [|f]; [discriminate|]. cbn [read_tree pred] in *.
    rewrite L2. cbn.
    erewrite read_args_mono; [reflexivity| |exact (read_args_pop _ _ _ "with" T1)].
    intros x tx. now apply read_tree_mono.
  - intros l0 o H. apply (lookup_weaken h _ _ _ H). now transitivity h1.
  - apply (read_tree_mono _ h); [now transitivity h1|exact R].
Qed.

(** The query [WITH x AS (SELECT 1) SELECT * FROM x] in [cte_store]. *)
Lemma remove_ctes_witness :
  (exists h',
      remove_ctes Examples.render_query 5 Examples.cte_store (Some 0)
      = Some (h', "SELECT * FROM x")
      /\ (forall l0 o, Examples.cte_store !! l0 = Some o -> h' !! l0 = Some o)
      /\ read_tree 5 h' 0 = Some Examples.cte_tree)
  /\ Examples.render_query Examples.cte_tree = "WITH x AS (SELECT 1) SELECT * FROM x".
Proof.
  split; [|reflexivity].
  apply (remove_ctes_spec Examples.render_query 5 Examples.cte_store 0 Examples.cte_tree).
  reflexivity.
Defined.

End RemoveCtes.

(* ===================================================================== *)
(** ** [extract_subqueries_tokens] *)
(* ===================================================================== *)

Module PyStrFacts.
Import PyStr.

Lemma list_ascii_of_string_app s1 s2 :
  list_ascii_of_string (String.append s1 s2)
  = list_ascii_of_string s1 ++ list_ascii_of_string s2.
Proof. induction s1 as [|c s1 IH]; simpl; [reflexivity|]. now rewrite IH. Qed.

Lemma removelast_snoc {A} (l : list A) (x : A) : removelast (l ++ [x]) = l.
Proof. rewrite removelast_app by discriminate. simpl. apply app_nil_r. Qed.

Lemma lstrip_chars_kept c l : is_space c = false -> lstrip_chars (c :: l) = c :: l.
Proof. intros H. cbn [lstrip_chars]. now rewrite H. Qed.

Lemma rstrip_chars_kept l c : is_space c = false -> rstrip_chars (l ++ [c]) = l ++ [c].
Proof.
  intros H. unfold rstrip_chars. rewrite rev_app_distr. cbn [rev app].
  rewrite (lstrip_chars_kept _ _ H). cbn [rev]. now rewrite rev_involutive.
Qed.

Lemma parenthesized_chars body :
  list_ascii_of_string (String "("%char (String.append body ")"))
  = ("("%char :: list_ascii_of_string body) ++ [")"%char].
Proof. cbn [list_ascii_of_string]. now rewrite list_ascii_of_string_app. Qed.

(** A parenthesized text: stripping it changes nothing, and the slice
    [1:-1] is the text between the parentheses. *)
Lemma strip_parenthesized body :
  strip (String "("%char (String.append body ")")) = String "("%char (String.append body ")").
Proof.
  unfold strip. rewrite parenthesized_chars.
  change (("("%char :: list_ascii_of_string body) ++ [")"%char])
    with ("("%char :: (list_ascii_of_string body ++ [")"%char])).
  rewrite lstrip_chars_kept by reflexivity.
  change ("("%char :: (list_ascii_of_string body ++ [")"%char]))
    with (("("%char :: list_ascii_of_string body) ++ [")"%char]).
  rewrite rstrip_chars_kept by reflexivity.
  rewrite <- parenthesized_chars. apply string_of_list_ascii_of_string.
Qed.

Lemma startswith_parenthesized s : startswith_char (String "("%char s) "("%char = true.
Proof. reflexivity. Qed.

Lemma endswith_parenthesized body :
  endswith_char (String "("%char (String.append body ")")) ")"%char = true.
Proof.
  unfold endswith_char. rewrite parenthesized_chars, rev_app_distr. reflexivity.
Qed.

Lemma slice_parenthesized body :
  slice_1_m1 (String "("%char (String.append body ")")) = body.
Proof.
  unfold slice_1_m1. rewrite parenthesized_chars. cbn [app tl].
  rewrite removelast_snoc. apply string_of_list_ascii_of_string.
Qed.

End PyStrFacts.

Module SubqueryFacts.
Import Sqlparse Extractors PyStrFacts.

(** The text of a subquery without its parentheses. *)
Lemma inner_text_parenthesized p body :
  value p = String "("%char (String.append body ")") ->
  _inner_text_once p = PyStr.strip body.
Proof.
  intros V. unfold _inner_text_once. rewrite V, strip_parenthesized.
  rewrite startswith_parenthesized, endswith_parenthesized. cbn [andb].
  now rewrite slice_parenthesized.
Qed.

(** A group that is no [Identifier] leaves the clause as it is. *)
Lemma update_clause_group cls toks c :
  cls <> Identifier -> update_clause (Group cls toks) c = c.
Proof.
  intros N. unfold update_clause. cbn [ttype_is orb isinstance].
  rewrite bool_decide_eq_false_2 by assumption. reflexivity.
Qed.

Lemma is_subquery_parenthesis tok :
  is_subquery tok = true ->
  exists toks, tok = Group Parenthesis toks /\ _has_select_inside tok = true.
Proof.
  unfold is_subquery. intros H. apply andb_true_iff in H as [I S].
  destruct tok as [ty v|cls toks]; [discriminate|]. cbn in I.
  apply bool_decide_eq_true in I. subst cls. eauto.
Qed.

Section Walk.
Variable rewalk : string -> nat -> option (list Subquery).

(** A subquery: its tuple, then what the re-walk of its text reports, then
    the rest of the token list under the same clause. *)
Lemma walk_subquery tok rest c d :
  is_subquery tok = true ->
  walk_tokens rewalk (_walk rewalk) (tok :: rest) c d
  = (deeper ← rewalk (_inner_text_once tok) (S d);
     after ← walk_tokens rewalk (_walk rewalk) rest c d;
     Some ((_inner_text_once tok, clause_label c, S d) :: deeper ++ after)).
Proof.
  intros S. destruct (is_subquery_parenthesis _ S) as [toks [-> _]].
  cbn [walk_tokens is_whitespace is_group]. rewrite S.
  rewrite update_clause_group by discriminate.
  destruct (rewalk _ _) as [deeper|]; [|reflexivity]. cbn.
  destruct (walk_tokens _ _ rest c d); reflexivity.
Qed.

(** A group that is not a subquery: what its own walk reports, at the same
    depth, then the rest. *)
Lemma walk_group cls toks rest c d :
  is_subquery (Group cls toks) = false ->
  walk_tokens rewalk (_walk rewalk) (Group cls toks :: rest) c d
  = (here ← walk_tokens rewalk (_walk rewalk) toks (update_clause (Group cls toks) c) d;
     after ← walk_tokens rewalk (_walk rewalk) rest (update_clause (Group cls toks) c) d;
     Some (here ++ after)).
Proof.
  intros S. cbn [walk_tokens is_whitespace is_group]. rewrite S. reflexivity.
Qed.

(** A token that is no group reports nothing. *)
Lemma walk_leaf ty v rest c d :
  walk_tokens rewalk (_walk rewalk) (Leaf ty v :: rest) c d
  = if is_whitespace (Leaf ty v) then walk_tokens rewalk (_walk rewalk) rest c d
    else walk_tokens rewalk (_walk rewalk) rest (update_clause (Leaf ty v) c) d.
Proof.
  cbn [walk_tokens is_group]. destruct (is_whitespace (Leaf ty v)); [reflexivity|].
  cbn. now destruct (walk_tokens _ _ rest _ d).
Qed.

(** What the walk of a token list reports contains what the walk of its
    tail reports, under some clause. *)
Lemma walk_tokens_tail tok rest c d rs :
  walk_tokens rewalk (_walk rewalk) (tok :: rest) c d = Some rs ->
  exists c' after,
    walk_tokens rewalk (_walk rewalk) rest c' d = Some after /\ incl after rs.
Proof.
  destruct tok as [ty v|cls toks].
  - rewrite walk_leaf. destruct (is_whitespace (Leaf ty v)); intros H;
      eexists _, rs; (split; [exact H|apply incl_refl]).
  - destruct (is_subquery (Group cls toks)) eqn:S.
    + rewrite (walk_subquery _ _ _ _ S).
      destruct (rewalk _ _) as [deeper|]; [|discriminate]. cbn.
      destruct (walk_tokens _ _ rest c d) as [after|] eqn:A; [|discriminate].
      intros [= <-]. exists c, after. split; [exact A|].
      apply incl_tl, incl_appr, incl_refl.
    + rewrite (walk_group _ _ _ _ _ S).
      destruct (walk_tokens _ _ toks _ d) as [here|]; [|discriminate]. cbn.
      destruct (walk_tokens _ _ rest _ d) as [after|] eqn:A; [|discriminate].
      intros [= <-]. eexists _, after. split; [exact A|]. apply incl_appr, incl_refl.
Qed.

(** Every subquery the walk comes to is reported one level deeper, with
    what the re-walk of its text reports. *)
Lemma reached_recorded toks p :
  Reached p toks -> is_subquery p = true ->
  forall c d rs,
    walk_tokens rewalk (_walk rewalk) toks c d = Some rs ->
    exists c' deeper,
      rewalk (_inner_text_once p) (S d) = Some deeper
      /\ In (_inner_text_once p, c', S d) rs
      /\ incl deeper rs.
Proof.
  intros R S. induction R as [rest|t rest R IH|cls inner rest N R IH]; intros c d rs.
  - rewrite (walk_subquery _ _ _ _ S).
    destruct (rewalk _ _) as [deeper|]; [|discriminate]. cbn.
    destruct (walk_tokens _ _ rest c d) as [after|]; [|discriminate].
    intros [= <-]. exists (clause_label c), deeper. split; [reflexivity|]. split.
    + now left.
    + apply incl_tl, incl_appl, incl_refl.
  - intros H. destruct (walk_tokens_tail _ _ _ _ _ H) as [c' [after [A I]]].
    destruct (IH _ _ _ A) as [c'' [deeper [W [M D]]]].
    exists c'', deeper. split; [exact W|]. split; [now apply I|].
    intros x Hx. now apply I, D.
  - rewrite (walk_group _ _ _ _ _ N).
    destruct (walk_tokens _ _ inner _ d) as [here|] eqn:H; [|discriminate]. cbn.
    destruct (walk_tokens _ _ rest _ d) as [after|]; [|discriminate].
    intros [= <-]. destruct (IH _ _ _ H) as [c'' [deeper [W [M D]]]].
    exists c'', deeper. split; [exact W|]. split.
    + apply in_or_app. now left.
    + intros x Hx. apply in_or_app. left. now apply D.
Qed.

(** The statements are walked from the clause [None]. *)
Lemma walk_statements_in stmts stmt d rs :
  walk_statements rewalk stmts d = Some rs -> In stmt stmts ->
  exists here, _walk rewalk stmt None d = Some here /\ incl here rs.
Proof.
  revert rs. induction stmts as [|s stmts IH]; intros rs H I; [destruct I|].
  cbn [walk_statements] in H.
  destruct (_walk rewalk s None d) as [here|] eqn:W; [|discriminate]. cbn in H.
  destruct (walk_statements rewalk stmts d) as [after|]; [|discriminate].
  injection H as <-. destruct I as [->|I].
  - exists here. split; [exact W|apply incl_appl, incl_refl].
  - destruct (IH _ eq_refl I) as [h [Wh Ih]]. exists h. split; [exact Wh|].
    apply incl_appr, Ih.
Qed.

End Walk.

End SubqueryFacts.

Module SubqueryClaims.
Import Sqlparse Extractors PyStrFacts SubqueryFacts.

(** C4. In the walk of [extract_subqueries_tokens]: a parenthesized group
    with a SELECT among its leaves is recorded as
    [(inner text, clause, depth + 1)], the clause being the current one
    (UNKNOWN for none), then come the results of its re-walk, then the rest of
    the list under the same clause; the inner text, for a group whose text is
    (body), is the stripped body; the re-walk parses the inner text and walks
    each statement from the clause None at depth + 1; a parenthesized group
    without SELECT is not recorded, and its tokens are walked at the same
    depth and clause; so a subquery the walk comes to in a statement is
    reported with depth 1, and a subquery the walk comes to in the
    statements of its inner text with depth 2. *)
Theorem subqueries_recorded parse :
  (forall rewalk tok rest c d,
      is_subquery tok = true ->
      walk_tokens rewalk (_walk rewalk) (tok :: rest) c d
      = (deeper ← rewalk (_inner_text_once tok) (S d);
         after ← walk_tokens rewalk (_walk rewalk) rest c d;
         Some ((_inner_text_once tok, clause_label c, S d) :: deeper ++ after)))
  /\ (forall p body,
        value p = String "("%char (String.append body ")") ->
        _inner_text_once p = PyStr.strip body)
  /\ (forall fuel inner d,
        walk_text parse (S fuel) inner d
        = walk_statements (walk_text parse fuel) (parse inner) d)
  /\ (forall rewalk stmt rest d,
        walk_statements rewalk (stmt :: rest) d
        = (here ← _walk rewalk stmt None d;
           after ← walk_statements rewalk rest d;
           Some (here ++ after)))
  /\ (forall rewalk toks rest c d,
        _has_select_inside (Group Parenthesis toks) = false ->
        walk_tokens rewalk (_walk rewalk) (Group Parenthesis toks :: rest) c d
        = (here ← walk_tokens rewalk (_walk rewalk) toks c d;
           after ← walk_tokens rewalk (_walk rewalk) rest c d;
           Some (here ++ after)))
  /\ (forall sql rs stmt p stmt' q,
        extract_subqueries_tokens parse sql = Some rs ->
        In stmt (parse sql) -> Reached p (tokens_of stmt) -> is_subquery p = true ->
        In stmt' (parse (_inner_text_once p)) -> Reached q (tokens_of stmt') ->
        is_subquery q = true ->
        exists c1 c2,
          In (_inner_text_once p, c1, 1) rs /\ In (_inner_text_once q, c2, 2) rs).
Proof.
  split; [apply walk_subquery|]. split; [apply inner_text_parenthesized|].
  split; [reflexivity|]. split; [reflexivity|]. split.
  - intros rewalk toks rest c d N.
    assert (S : is_subquery (Group Parenthesis toks) = false).
    { unfold is_subquery. now rewrite N, andb_false_r. }
    rewrite (walk_group _ _ _ _ _ _ S). now rewrite update_clause_group by discriminate.
  - intros sql rs stmt p stmt' q E I R S I' R' S'.
    unfold extract_subqueries_tokens in E. cbn [walk_text] in E.
    destruct (walk_statements_in _ _ _ _ _ E I) as [here [W H]].
    destruct stmt as [ty v|cls toks]; [inversion R|]. cbn [_walk tokens_of] in *.
    destruct (reached_recorded _ _ _ R S _ _ _ W) as [c1 [deeper [D [M1 ID]]]].
    destruct (String.length sql) as [|n]; [discriminate D|]. cbn [walk_text] in D.
    destruct (walk_statements_in _ _ _ _ _ D I') as [here' [W' H']].
    destruct stmt' as [ty v|cls' toks']; [inversion R'|]. cbn [_walk tokens_of] in *.
    destruct (reached_recorded _ _ _ R' S' _ _ _ W') as [c2 [deeper' [_ [M2 _]]]].
    exists c1, c2. split; [now apply H|]. now apply H, ID, H'.
Qed.

(** The query of the spec, with [parse_queries]: the subquery on u at depth
    1 and the subquery on v at depth 2, without their parentheses. *)
Lemma subqueries_recorded_witness :
  extract_subqueries_tokens Examples.parse_queries (Examples.text_of Examples.query_t)
  = Some [("SELECT id FROM u WHERE x IN (SELECT y FROM v)", "IN", 1);
          ("SELECT y FROM v", "IN", 2)]
  /\ exists c1 c2,
      In (_inner_text_once (Examples.parenthesis Examples.query_u), c1, 1)
        [("SELECT id FROM u WHERE x IN (SELECT y FROM v)", "IN", 1);
         ("SELECT y FROM v", "IN", 2)]
      /\ In (_inner_text_once (Examples.parenthesis Examples.query_v), c2, 2)
           [("SELECT id FROM u WHERE x IN (SELECT y FROM v)", "IN", 1);
            ("SELECT y FROM v", "IN", 2)].
Proof.
  split; [reflexivity|].
  destruct (subqueries_recorded Examples.parse_queries) as [_ [_ [_ [_ [_ N]]]]].
  apply (N (Examples.text_of Examples.query_t) _
           (Group Statement Examples.query_t) (Examples.parenthesis Examples.query_u)
           (Group Statement Examples.query_u) (Examples.parenthesis Examples.query_v)).
  - reflexivity.
  - now left.
  - do 8 apply reached_later. apply reached_inside; [reflexivity|].
    do 6 apply reached_later. apply reached_here.
  - reflexivity.
  - now left.
  - do 8 apply reached_later. apply reached_inside; [reflexivity|].
    do 6 apply reached_later. apply reached_here.
  - reflexivity.
Defined.

End SubqueryClaims.

(* ===================================================================== *)
(** ** The walk finishes *)
(* ===================================================================== *)

Module SubqueryTermination.
Import Sqlparse Extractors PyStrFacts SubqueryFacts.

Lemma length_list_ascii s : length (list_ascii_of_string s) = String.length s.
Proof. induction s as [|c s IH]; simpl; [reflexivity|]. now rewrite IH. Qed.

Lemma length_string_of_list l : String.length (string_of_list_ascii l) = length l.
Proof. induction l as [|c l IH]; simpl; [reflexivity|]. now rewrite IH. Qed.

Lemma length_append a b :
  String.length (String.append a b) = String.length a + String.length b.
Proof. induction a as [|c a IH]; simpl; [reflexivity|]. now rewrite IH. Qed.

Lemma lstrip_chars_length l : length (PyStr.lstrip_chars l) <= length l.
Proof.
  induction l as [|c l IH]; simpl; [lia|].
  destruct (PyStr.is_space c); simpl; lia.
Qed.

Lemma strip_length s : String.length (PyStr.strip s) <= String.length s.
Proof.
  unfold PyStr.strip, PyStr.rstrip_chars.
  rewrite length_string_of_list, length_rev.
  etransitivity; [apply lstrip_chars_length|]. rewrite length_rev.
  etransitivity; [apply lstrip_chars_length|]. now rewrite length_list_ascii.
Qed.

Lemma removelast_length {A} (l : list A) : length (removelast l) <= length l.
Proof.
  induction l as [|x l IH]; simpl; [lia|]. destruct l; simpl in *; lia.
Qed.

Lemma slice_length s :
  PyStr.startswith_char s "("%char = true ->
  String.length (PyStr.slice_1_m1 s) < String.length s.
Proof.
  unfold PyStr.startswith_char, PyStr.slice_1_m1.
  rewrite length_string_of_list, <- (length_list_ascii s).
  destruct (list_ascii_of_string s) as [|c l]; [discriminate|]. intros _.
  cbn [tl length]. pose proof (removelast_length l). lia.
Qed.

(** A text between parentheses is its own stripped form. *)
Lemma strip_between s :
  PyStr.startswith_char s "("%char = true -> PyStr.endswith_char s ")"%char = true ->
  PyStr.strip s = s.
Proof.
  unfold PyStr.startswith_char, PyStr.endswith_char, PyStr.strip, PyStr.rstrip_chars.
  intros S E. rewrite <- (string_of_list_ascii_of_string s) at 2. f_equal.
  destruct (list_ascii_of_string s) as [|c l]; [discriminate|].
  destruct (ascii_dec c "("%char) as [->|]; [|discriminate].
  rewrite lstrip_chars_kept by reflexivity.
  destruct (rev ("("%char :: l)) as [|x r] eqn:R; [discriminate|].
  destruct (ascii_dec x ")"%char) as [->|]; [|discriminate].
  rewrite lstrip_chars_kept by reflexivity. rewrite <- R. apply rev_involutive.
Qed.

(** The inner text of a parenthesized group is shorter than the group. *)
Lemma inner_text_shorter toks :
  parenthesized (Group Parenthesis toks) = true ->
  String.length (_inner_text_once (Group Parenthesis toks))
  < String.length (value (Group Parenthesis toks)).
Proof.
  cbn [parenthesized]. rewrite bool_decide_eq_true_2 by reflexivity.
  intros H. apply andb_true_iff in H as [H _]. apply andb_true_iff in H as [S E].
  unfold _inner_text_once. rewrite (strip_between _ S E), S, E. cbn [andb].
  eapply Nat.le_lt_trans; [apply strip_length|]. now apply slice_length.
Qed.

Lemma value_group_length cls ts : String.length (value (Group cls ts)) = text_length ts.
Proof.
  unfold text_length. cbn [value]. induction ts as [|t ts IH]; [reflexivity|].
  cbn [fold_right List.map list_sum]. now rewrite length_append, IH.
Qed.

Lemma text_length_cons t ts :
  text_length (t :: ts) = String.length (value t) + text_length ts.
Proof. reflexivity. Qed.

(** Induction on token trees. *)
Lemma Token_nested_ind (P : Token -> Prop) :
  (forall ty v, P (Leaf ty v)) ->
  (forall cls ts, Forall P ts -> P (Group cls ts)) ->
  forall t, P t.
Proof.
  intros HL HG. fix IH 1. intros [ty v|cls ts]; [apply HL|].
  apply HG. induction ts as [|t ts IHts]; constructor; [apply IH|exact IHts].
Qed.

Section Walk.
Variable rewalk : string -> nat -> option (list Subquery).
Variable m : nat.

(** The re-walk finishes on every text shorter than [m]. *)
Hypothesis rewalk_total : forall s d, String.length s < m -> is_Some (rewalk s d).

Lemma walk_tokens_total ts :
  Forall (fun t => parenthesized t = true -> String.length (value t) <= m ->
                   forall c d, is_Some (_walk rewalk t c d)) ts ->
  forallb parenthesized ts = true -> text_length ts <= m ->
  forall c d, is_Some (walk_tokens rewalk (_walk rewalk) ts c d).
Proof.
  induction 1 as [|t ts Ht _ IH]; intros P L c d; [now eexists|].
  cbn [forallb] in P. apply andb_true_iff in P as [Pt P].
  rewrite text_length_cons in L.
  assert (A : forall c', is_Some (walk_tokens rewalk (_walk rewalk) ts c' d))
    by (intros c'; apply IH; [assumption|lia]).
  destruct t as [ty v|cls toks].
  - rewrite walk_leaf. destruct (is_whitespace (Leaf ty v)); apply A.
  - destruct (is_subquery (Group cls toks)) eqn:Q.
    + rewrite (walk_subquery _ _ _ _ _ Q).
      destruct (is_subquery_parenthesis _ Q) as [toks' [[= -> ->] _]].
      pose proof (inner_text_shorter _ Pt) as I.
      destruct (rewalk_total (_inner_text_once (Group Parenthesis toks')) (S d)) as [deeper ->];
        [lia|].
      cbn. destruct (A c) as [after ->]. now eexists.
    + rewrite (walk_group _ _ _ _ _ _ Q).
      destruct (Ht Pt ltac:(lia) (update_clause (Group cls toks) c) d) as [here W].
      cbn [_walk] in W. rewrite W. cbn.
      destruct (A (update_clause (Group cls toks) c)) as [after ->]. now eexists.
Qed.

Lemma walk_total t :
  parenthesized t = true -> String.length (value t) <= m ->
  forall c d, is_Some (_walk rewalk t c d).
Proof.
  induction t as [ty v|cls ts IH] using Token_nested_ind; intros P L c d; [now eexists|].
  cbn [_walk]. apply walk_tokens_total.
  - exact IH.
  - cbn [parenthesized] in P. now apply andb_true_iff in P as [_ P].
  - now rewrite <- (value_group_length cls).
Qed.

Lemma walk_statements_total stmts d :
  forallb parenthesized stmts = true -> text_length stmts <= m ->
  is_Some (walk_statements rewalk stmts d).
Proof.
  induction stmts as [|s stmts IH]; intros P L; [now eexists|].
  cbn [forallb] in P. apply andb_true_iff in P as [Ps P].
  rewrite text_length_cons in L.
  cbn [walk_statements].
  destruct (walk_total s Ps ltac:(lia) None d) as [here ->]. cbn.
  destruct (IH P ltac:(lia)) as [after ->]. now eexists.
Qed.

End Walk.

Lemma walk_text_total parse :
  parser_contract parse ->
  forall fuel sql d, String.length sql < fuel -> is_Some (walk_text parse fuel sql d).
Proof.
  intros C. induction fuel as [|f IH]; intros sql d L; [lia|].
  cbn [walk_text]. destruct (C sql) as [P T].
  apply (walk_statements_total _ f); [exact IH|exact P|lia].
Qed.

(** With a parser that keeps to the contract, [extract_subqueries_tokens]
    returns a list for every text: its fuel, the length of the text, is never
    used up. *)
Theorem extract_subqueries_terminates parse :
  parser_contract parse ->
  forall sql, exists rs, extract_subqueries_tokens parse sql = Some rs.
Proof.
  intros C sql. unfold extract_subqueries_tokens.
  destruct (walk_text_total parse C (S (String.length sql)) sql 0) as [rs E]; [lia|].
  now exists rs.
Qed.

Lemma parse_queries_contract : parser_contract Examples.parse_queries.
Proof.
  intros sql. unfold Examples.parse_queries.
  destruct (String.eqb sql (Examples.text_of Examples.query_t)) eqn:E1.
  { apply String.eqb_eq in E1. subst. split; [reflexivity|vm_compute; lia]. }
  destruct (String.eqb sql (Examples.text_of Examples.query_u)) eqn:E2.
  { apply String.eqb_eq in E2. subst. split; [reflexivity|vm_compute; lia]. }
  destruct (String.eqb sql (Examples.text_of Examples.query_v)) eqn:E3.
  { apply String.eqb_eq in E3. subst. split; [reflexivity|vm_compute; lia]. }
  split; [reflexivity|]. unfold text_length. simpl. lia.
Qed.

(** [parse_queries] keeps to the contract. *)
Lemma extract_subqueries_terminates_witness :
  exists rs,
    extract_subqueries_tokens Examples.parse_queries (Examples.text_of Examples.query_t)
    = Some rs.
Proof.
  apply (extract_subqueries_terminates Examples.parse_queries parse_queries_contract).
Defined.

End SubqueryTermination.

(* ===================================================================== *)
(** ** Depths *)
(* ===================================================================== *)

Module SubqueryDepths.
Import Sqlparse Extractors SubqueryFacts SubqueryTermination.

(** Every tuple of [rs] has a depth greater than [d]. *)
Definition deeper_than (d : nat) (rs : list Subquery) : Prop :=
  Forall (fun r => d < snd r) rs.

Section Walk.
Variable rewalk : string -> nat -> option (list Subquery).

Hypothesis rewalk_deeper : forall s d rs, rewalk s d = Some rs -> deeper_than d rs.

Lemma deeper_than_weaken d rs : deeper_than (S d) rs -> deeper_than d rs.
Proof. unfold deeper_than. apply List.Forall_impl. intros r H. lia. Qed.

Lemma walk_tokens_deeper ts :
  Forall (fun t => forall c d rs, _walk rewalk t c d = Some rs -> deeper_than d rs) ts ->
  forall c d rs,
    walk_tokens rewalk (_walk rewalk) ts c d = Some rs -> deeper_than d rs.
Proof.
  induction 1 as [|t ts Ht _ IH]; intros c d rs.
  - intros [= <-]. constructor.
  - destruct t as [ty v|cls toks].
    + rewrite walk_leaf. destruct (is_whitespace (Leaf ty v)); apply IH.
    + destruct (is_subquery (Group cls toks)) eqn:Q.
      * rewrite (walk_subquery _ _ _ _ _ Q).
        destruct (rewalk _ _) as [deeper|] eqn:R; [|discriminate]. cbn.
        destruct (walk_tokens _ _ ts c d) as [after|] eqn:A; [|discriminate].
        intros [= <-]. constructor; [cbn; lia|]. apply Forall_app. split.
        -- apply deeper_than_weaken. now apply (rewalk_deeper _ _ _ R).
        -- now apply (IH _ _ _ A).
      * rewrite (walk_group _ _ _ _ _ _ Q).
        destruct (walk_tokens _ _ toks _ d) as [here|] eqn:W; [|discriminate]. cbn.
        destruct (walk_tokens _ _ ts _ d) as [after|] eqn:A; [|discriminate].
        intros [= <-]. apply Forall_app. split.
        -- now apply (Ht _ _ _ W).
        -- now apply (IH _ _ _ A).
Qed.

Lemma walk_deeper t c d rs : _walk rewalk t c d = Some rs -> deeper_than d rs.
Proof.
  revert c d rs. induction t as [ty v|cls ts IH] using Token_nested_ind; intros c d rs.
  - intros [= <-]. constructor.
  - cbn [_walk]. now apply walk_tokens_deeper.
Qed.

Lemma walk_statements_deeper stmts d rs :
  walk_statements rewalk stmts d = Some rs -> deeper_than d rs.
Proof.
  revert rs. induction stmts as [|s stmts IH]; intros rs.
  - intros [= <-]. constructor.
  - cbn [walk_statements].
    destruct (_walk rewalk s None d) as [here|] eqn:W; [|discriminate]. cbn.
    destruct (walk_statements rewalk stmts d) as [after|]; [|discriminate].
    intros [= <-]. apply Forall_app. split; [now apply (walk_deeper _ _ _ _ W)|now apply IH].
Qed.

End Walk.

Lemma walk_text_deeper parse fuel sql d rs :
  walk_text parse fuel sql d = Some rs -> deeper_than d rs.
Proof.
  revert sql d rs. induction fuel as [|f IH]; intros sql d rs; [discriminate|].
  cbn [walk_text]. now apply walk_statements_deeper.
Qed.

(** Every subquery [extract_subqueries_tokens] reports has a depth of at
    least 1. *)
Theorem reported_depths_positive parse sql rs :
  extract_subqueries_tokens parse sql = Some rs -> Forall (fun r => 1 <= snd r) rs.
Proof. apply walk_text_deeper. Qed.

(** The query of the spec, with [parse_queries]. *)
Lemma reported_depths_positive_witness :
  Forall (fun r : Subquery => 1 <= snd r)
    [("SELECT id FROM u WHERE x IN (SELECT y FROM v)", "IN", 1);
     ("SELECT y FROM v", "IN", 2)].
Proof.
  apply (reported_depths_positive Examples.parse_queries
           (Examples.text_of Examples.query_t)).
  reflexivity.
Defined.

End SubqueryDepths.

(* ===================================================================== *)
(** ** [extract_functions] and [extract_comparisons] *)
(* ===================================================================== *)

Module TokenExtractors.
Import Sqlparse Extractors.

(** Induction on a token and the tokens of its groups. *)
Lemma token_groups_ind (P : Token -> Prop) :
  (forall ty v, P (Leaf ty v)) ->
  (forall cls ts, Forall P ts -> P (Group cls ts)) ->
  forall t, P t.
Proof.
  intros HL HG. fix IH 1. intros [ty v|cls ts]; [apply HL|].
  apply HG. induction ts as [|t ts IHts]; constructor; [apply IH|exact IHts].
Qed.

(** A keyword token is a leaf. *)
Lemma keyword_token_leaf t : is_keyword_token t = true -> exists ty v, t = Leaf ty v.
Proof. destruct t as [ty v|cls ts]; [eauto|discriminate]. Qed.

(** *** The groups reported *)

Lemma functions_loop_groups ts :
  Forall (fun t => forall c,
            List.map fst (functions_inside t c) = flat_map (groups_of Function) (tokens_of t))
    ts ->
  forall c,
    List.map fst (functions_loop functions_inside ts c) = flat_map (groups_of Function) ts.
Proof.
  induction 1 as [|t ts Ht _ IH]; intros c; [reflexivity|].
  cbn [functions_loop flat_map].
  destruct (is_keyword_token t) eqn:K.
  - destruct (keyword_token_leaf _ K) as [ty [v ->]]. apply IH.
  - rewrite List.map_app, IH. f_equal.
    destruct t as [ty v|cls toks]; [reflexivity|].
    cbn [isinstance is_group groups_of]. specialize (Ht c). cbn [tokens_of] in Ht.
    destruct (bool_decide (cls = Function)); cbn [List.map fst app]; now rewrite Ht.
Qed.

Lemma functions_inside_groups t c :
  List.map fst (functions_inside t c) = flat_map (groups_of Function) (tokens_of t).
Proof.
  revert c. induction t as [ty v|cls ts IH] using token_groups_ind; intros c; [reflexivity|].
  cbn [functions_inside tokens_of]. now apply functions_loop_groups.
Qed.

(** [extract_functions] reports the [Function] groups of the tokens, those
    inside other groups and inside other functions included: each once, a
    function before the functions nested in it, left to right; and it reports
    nothing else. *)
Theorem functions_reported tokens current_clause :
  List.map fst (extract_functions tokens current_clause)
  = flat_map (groups_of Function) tokens.
Proof.
  apply functions_loop_groups. apply List.Forall_forall. intros t _ c.
  apply functions_inside_groups.
Qed.

Lemma comparisons_loop_groups ts :
  Forall (fun t => forall c,
            List.map fst (comparisons_inside t c)
            = flat_map (outermost ComparisonGroup) (tokens_of t))
    ts ->
  forall c,
    List.map fst (comparisons_loop comparisons_inside ts c)
    = flat_map (outermost ComparisonGroup) ts.
Proof.
  induction 1 as [|t ts Ht _ IH]; intros c; [reflexivity|].
  cbn [comparisons_loop flat_map].
  destruct (is_keyword_token t) eqn:K.
  - destruct (keyword_token_leaf _ K) as [ty [v ->]]. apply IH.
  - rewrite List.map_app, IH. f_equal.
    destruct t as [ty v|cls toks]; [reflexivity|].
    cbn [isinstance is_group outermost]. specialize (Ht c). cbn [tokens_of] in Ht.
    destruct (bool_decide (cls = ComparisonGroup)); [reflexivity|exact Ht].
Qed.

Lemma comparisons_inside_groups t c :
  List.map fst (comparisons_inside t c)
  = flat_map (outermost ComparisonGroup) (tokens_of t).
Proof.
  revert c. induction t as [ty v|cls ts IH] using token_groups_ind; intros c; [reflexivity|].
  cbn [comparisons_inside tokens_of]. now apply comparisons_loop_groups.
Qed.

(** [extract_comparisons] reports the [Comparison] groups that lie inside no
    other [Comparison] group, each once, left to right: a comparison inside a
    comparison (in a subquery on one of its sides, say) is not reported. *)
Theorem comparisons_reported tokens current_clause :
  List.map fst (extract_comparisons tokens current_clause)
  = flat_map (outermost ComparisonGroup) tokens.
Proof.
  apply comparisons_loop_groups. apply List.Forall_forall. intros t _ c.
  apply comparisons_inside_groups.
Qed.

(** *** The clauses reported *)

(** A clause label: the clause the extraction started from, or a clause
    keyword. *)
Definition label_of (start : string) (label : string) : Prop :=
  label = start \/ In label clause_keywords.

Lemma next_clause_label start t c : label_of start c -> label_of start (next_clause t c).
Proof.
  intros L. unfold next_clause.
  destruct (existsb _ clause_keywords) eqn:E; [|exact L].
  right. apply existsb_exists in E as [k [I E]]. apply String.eqb_eq in E. now rewrite E.
Qed.

Section Labels.
Variable start : string.
Variable loop : (Token -> string -> list Reported) -> list Token -> string -> list Reported.

(** The two loops differ in the groups they report and enter. *)
Hypothesis loop_nil : forall inside c, loop inside [] c = [].
Hypothesis loop_cons : forall inside t ts c,
  exists here,
    loop inside (t :: ts) c
    = here ++ loop inside ts (if is_keyword_token t then next_clause t c else c)
    /\ (here = [] \/ here = [(t, c)] \/ here = inside t c \/ here = (t, c) :: inside t c).

Lemma loop_labels inside ts :
  Forall (fun t => forall c, label_of start c ->
                   Forall (fun r => label_of start (snd r)) (inside t c)) ts ->
  forall c, label_of start c ->
            Forall (fun r => label_of start (snd r)) (loop inside ts c).
Proof.
  induction 1 as [|t ts Ht _ IH]; intros c L; [rewrite loop_nil; constructor|].
  destruct (loop_cons inside t ts c) as [here [-> H]].
  apply Forall_app. split.
  - destruct H as [-> | [-> | [-> | ->]]].
    + constructor.
    + constructor; [exact L|constructor].
    + now apply Ht.
    + constructor; [exact L|now apply Ht].
  - apply IH. destruct (is_keyword_token t); [now apply next_clause_label|exact L].
Qed.

End Labels.

Lemma functions_loop_cons inside t ts c :
  exists here,
    functions_loop inside (t :: ts) c
    = here ++ functions_loop inside ts (if is_keyword_token t then next_clause t c else c)
    /\ (here = [] \/ here = [(t, c)] \/ here = inside t c \/ here = (t, c) :: inside t c).
Proof.
  cbn [functions_loop]. destruct (is_keyword_token t); [exists []; auto|].
  eexists. split; [reflexivity|].
  destruct (isinstance t Function); [auto|]. destruct (is_group t); auto.
Qed.

Lemma comparisons_loop_cons inside t ts c :
  exists here,
    comparisons_loop inside (t :: ts) c
    = here ++ comparisons_loop inside ts (if is_keyword_token t then next_clause t c else c)
    /\ (here = [] \/ here = [(t, c)] \/ here = inside t c \/ here = (t, c) :: inside t c).
Proof.
  cbn [comparisons_loop]. destruct (is_keyword_token t); [exists []; auto|].
  eexists. split; [reflexivity|].
  destruct (isinstance t ComparisonGroup); [auto|]. destruct (is_group t); auto.
Qed.

Lemma functions_inside_labels start t c :
  label_of start c -> Forall (fun r => label_of start (snd r)) (functions_inside t c).
Proof.
  revert c. induction t as [ty v|cls ts IH] using token_groups_ind; intros c L;
    [constructor|].
  cbn [functions_inside].
  now apply (loop_labels start functions_loop (fun _ _ => eq_refl) functions_loop_cons).
Qed.

Lemma comparisons_inside_labels start t c :
  label_of start c -> Forall (fun r => label_of start (snd r)) (comparisons_inside t c).
Proof.
  revert c. induction t as [ty v|cls ts IH] using token_groups_ind; intros c L;
    [constructor|].
  cbn [comparisons_inside].
  now apply (loop_labels start comparisons_loop (fun _ _ => eq_refl) comparisons_loop_cons).
Qed.

(** Every clause [extract_functions] and [extract_comparisons] report is the
    clause the call was given or one of WITH, SELECT, FROM, WHERE, GROUP BY,
    ORDER BY, HAVING, LIMIT, in upper case: no other keyword (JOIN, ON, AND,
    ...) becomes a clause. *)
Theorem reported_clauses tokens current_clause :
  Forall (fun r => snd r = current_clause \/ In (snd r) clause_keywords)
    (extract_functions tokens current_clause)
  /\ Forall (fun r => snd r = current_clause \/ In (snd r) clause_keywords)
       (extract_comparisons tokens current_clause).
Proof.
  split.
  - apply (loop_labels current_clause functions_loop (fun _ _ => eq_refl)
             functions_loop_cons); [|now left].
    apply List.Forall_forall. intros t _ c. apply functions_inside_labels.
  - apply (loop_labels current_clause comparisons_loop (fun _ _ => eq_refl)
             comparisons_loop_cons); [|now left].
    apply List.Forall_forall. intros t _ c. apply comparisons_inside_labels.
Qed.

(** *** The scope of a clause *)

Lemma functions_loop_app inside ts1 ts2 c :
  functions_loop inside (ts1 ++ ts2) c
  = functions_loop inside ts1 c ++ functions_loop inside ts2 (clause_after ts1 c).
Proof.
  revert c. induction ts1 as [|t ts1 IH]; intros c; [reflexivity|].
  cbn [app functions_loop clause_after fold_left].
  destruct (is_keyword_token t); [apply IH|].
  rewrite <- app_assoc. f_equal. apply IH.
Qed.

Lemma comparisons_loop_app inside ts1 ts2 c :
  comparisons_loop inside (ts1 ++ ts2) c
  = comparisons_loop inside ts1 c ++ comparisons_loop inside ts2 (clause_after ts1 c).
Proof.
  revert c. induction ts1 as [|t ts1 IH]; intros c; [reflexivity|].
  cbn [app comparisons_loop clause_after fold_left].
  destruct (is_keyword_token t); [apply IH|].
  rewrite <- app_assoc. f_equal. apply IH.
Qed.

Lemma clause_after_app ts1 ts2 c :
  clause_after (ts1 ++ ts2) c = clause_after ts2 (clause_after ts1 c).
Proof. unfold clause_after. apply fold_left_app. Qed.

(** A clause keyword inside a group holds for the rest of that group only:
    the tokens after a group [g] are read under the clause in force before
    [g], whatever keywords [g] contains. So in both extractors the tokens
    after [before ++ [Group cls inner]] are read under the last clause
    keyword among the tokens of [before] themselves. *)
Theorem clause_scope before cls inner after current_clause :
  extract_functions (before ++ Group cls inner :: after) current_clause
  = extract_functions before current_clause
    ++ extract_functions [Group cls inner] (clause_after before current_clause)
    ++ extract_functions after (clause_after before current_clause)
  /\ extract_comparisons (before ++ Group cls inner :: after) current_clause
     = extract_comparisons before current_clause
       ++ extract_comparisons [Group cls inner] (clause_after before current_clause)
       ++ extract_comparisons after (clause_after before current_clause).
Proof.
  unfold extract_functions, extract_comparisons. split.
  - rewrite functions_loop_app. f_equal.
    change (Group cls inner :: after) with ([Group cls inner] ++ after).
    now rewrite functions_loop_app.
  - rewrite comparisons_loop_app. f_equal.
    change (Group cls inner :: after) with ([Group cls inner] ++ after).
    now rewrite comparisons_loop_app.
Qed.

End TokenExtractors.

(* ===================================================================== *)
(** ** [extract_subqueries_ast] *)
(* ===================================================================== *)

Module SubqueriesAst.
Import Sqlglot Extractors SqlglotFacts.

Lemma levels_nil n : concat (levels n []) = [].
Proof. induction n as [|n IH]; [reflexivity|exact IH]. Qed.

Lemma forest_size_next n q :
  forest_size (flat_map iter_expressions (n :: q)) < forest_size (n :: q).
Proof.
  cbn [flat_map]. rewrite forest_size_app.
  pose proof (forest_size_children n). pose proof (forest_size_level q).
  unfold forest_size in *. simpl. lia.
Qed.

(** The breadth-first walk lists the forest level by level. *)
Lemma bfs_queue_levels f q :
  forest_size q <= f -> bfs_queue f q = concat (levels f q).
Proof.
  revert q. induction f as [|f IH]; intros q H; [reflexivity|].
  destruct q as [|n q]; [now rewrite levels_nil|].
  rewrite bfs_queue_unfold by exact H. cbn [levels concat]. f_equal.
  pose proof (forest_size_next n q) as L.
  rewrite (bfs_queue_fuel (S f) f) by lia. apply IH. lia.
Qed.

(** [extract_subqueries_ast] returns the [Subquery] nodes of the tree, the
    root and the subqueries nested in subqueries included, each as many times
    as it occurs in the tree and nothing else; for [None] it returns the
    empty list. *)
Theorem subqueries_ast_nodes cls args :
  Permutation (extract_subqueries_ast (Some (VExp cls args)))
    (List.filter (fun n => isinstance n Sqlglot.Subquery) (subnodes (VExp cls args)))
  /\ extract_subqueries_ast None = [].
Proof.
  split; [|reflexivity]. unfold extract_subqueries_ast, find_all, walk.
  pose proof (bfs_queue_filter Sqlglot.Subquery (size (VExp cls args)) [VExp cls args]) as P.
  unfold nodes_of in P. cbn [flat_map] in P. rewrite app_nil_r in P.
  apply P; [reflexivity|]. unfold forest_size. simpl. lia.
Qed.

(** [extract_subqueries_ast] lists the subqueries by depth in the tree: those
    of a level before those of the next one, so a subquery comes before every
    subquery nested in it, and within a level in the order of the tree. *)
Theorem subqueries_ast_by_level cls args :
  extract_subqueries_ast (Some (VExp cls args))
  = flat_map (List.filter (fun n => isinstance n Sqlglot.Subquery))
      (levels (size (VExp cls args)) [VExp cls args]).
Proof.
  unfold extract_subqueries_ast, find_all, walk.
  rewrite bfs_queue_levels by (unfold forest_size; simpl; lia).
  generalize (levels (size (VExp cls args)) [VExp cls args]). intros ls.
  induction ls as [|l ls IH]; [reflexivity|].
  cbn [concat flat_map]. now rewrite List.filter_app, IH.
Qed.

End SubqueriesAst.

(* ===================================================================== *)
(** ** Queries without subqueries *)
(* ===================================================================== *)

Module SubqueryAbsence.
Import Sqlparse Extractors SubqueryFacts TokenExtractors.

Section Walk.
Variable rewalk : string -> nat -> option (list Subquery).

Lemma walk_tokens_nothing ts :
  Forall (fun t => forall c d,
            (forall p, Reached p (tokens_of t) -> is_subquery p = false) ->
            _walk rewalk t c d = Some []) ts ->
  (forall p, Reached p ts -> is_subquery p = false) ->
  forall c d, walk_tokens rewalk (_walk rewalk) ts c d = Some [].
Proof.
  induction 1 as [|t ts Ht _ IH]; intros N c d; [reflexivity|].
  assert (Nts : forall p, Reached p ts -> is_subquery p = false).
  { intros p R. apply N. now apply reached_later. }
  destruct t as [ty v|cls toks].
  - rewrite walk_leaf. destruct (is_whitespace (Leaf ty v)); now apply IH.
  - assert (Q : is_subquery (Group cls toks) = false) by (apply N; apply reached_here).
    rewrite (walk_group _ _ _ _ _ _ Q).
    specialize (Ht (update_clause (Group cls toks) c) d). cbn [_walk tokens_of] in Ht.
    rewrite Ht.
    + cbn. now rewrite (IH Nts).
    + intros p R. apply N. now apply reached_inside.
Qed.

Lemma walk_nothing t c d :
  (forall p, Reached p (tokens_of t) -> is_subquery p = false) ->
  _walk rewalk t c d = Some [].
Proof.
  revert c d. induction t as [ty v|cls ts IH] using token_groups_ind; intros c d N;
    [reflexivity|].
  cbn [_walk]. now apply walk_tokens_nothing.
Qed.

Lemma walk_statements_nothing stmts d :
  (forall stmt p, In stmt stmts -> Reached p (tokens_of stmt) -> is_subquery p = false) ->
  walk_statements rewalk stmts d = Some [].
Proof.
  induction stmts as [|s stmts IH]; intros N; [reflexivity|].
  cbn [walk_statements]. rewrite walk_nothing.
  - cbn. rewrite IH; [reflexivity|]. intros stmt p I. apply N. now right.
  - intros p. apply N. now left.
Qed.

End Walk.

(** [extract_subqueries_tokens] returns the empty list exactly when its walk
    of the statements comes to no parenthesized group with a SELECT inside. *)
Theorem no_subquery_reported parse sql rs :
  extract_subqueries_tokens parse sql = Some rs ->
  (rs = [] <->
   forall stmt p, In stmt (parse sql) -> Reached p (tokens_of stmt) -> is_subquery p = false).
Proof.
  unfold extract_subqueries_tokens. cbn [walk_text]. intros E. split.
  - intros -> stmt p I R. destruct (is_subquery p) eqn:Q; [|reflexivity].
    destruct (walk_statements_in _ _ _ _ _ E I) as [here [W H]].
    destruct stmt as [ty v|cls toks]; [inversion R|]. cbn [_walk tokens_of] in *.
    destruct (reached_recorded _ _ _ R Q _ _ _ W) as [c1 [deeper [_ [M _]]]].
    destruct (H _ M).
  - intros N. rewrite walk_statements_nothing in E by exact N. now injection E as <-.
Qed.

(** The query [query_v] has no subquery; [query_u] has one. *)
Lemma no_subquery_reported_witness :
  ([] = @nil Subquery <->
   forall stmt p, In stmt (Examples.parse_queries (Examples.text_of Examples.query_v)) ->
                  Reached p (tokens_of stmt) -> is_subquery p = false)
  /\ extract_subqueries_tokens Examples.parse_queries (Examples.text_of Examples.query_u)
     = Some [("SELECT y FROM v", "IN", 1)].
Proof.
  split; [|reflexivity].
  apply (no_subquery_reported Examples.parse_queries (Examples.text_of Examples.query_v)).
  reflexivity.
Defined.

End SubqueryAbsence.

(* ===================================================================== *)
(** ** The tuples [extract_subqueries_tokens] reports *)
(* ===================================================================== *)

Module SubqueryTuples.
Import Sqlparse Extractors SubqueryFacts TokenExtractors.

(** *** Stripping twice *)

Lemma lstrip_chars_head l :
  match PyStr.lstrip_chars l with c :: _ => PyStr.is_space c = false | [] => True end.
Proof.
  induction l as [|c l IH]; [exact I|]. cbn [PyStr.lstrip_chars].
  destruct (PyStr.is_space c) eqn:E; [exact IH|exact E].
Qed.

Lemma lstrip_chars_fixed l :
  match l with c :: _ => PyStr.is_space c = false | [] => True end ->
  PyStr.lstrip_chars l = l.
Proof. destruct l as [|c l]; [reflexivity|]. cbn [PyStr.lstrip_chars]. now intros ->. Qed.

Lemma lstrip_chars_suffix l : exists pre, l = pre ++ PyStr.lstrip_chars l.
Proof.
  induction l as [|c l [pre IH]]; [now exists []|]. cbn [PyStr.lstrip_chars].
  destruct (PyStr.is_space c); [|now exists []].
  exists (c :: pre). cbn [app]. now rewrite <- IH.
Qed.

(** What [strip] leaves has no blank at either end. *)
Lemma strip_chars_fixed l :
  let r := PyStr.rstrip_chars (PyStr.lstrip_chars l) in
  PyStr.lstrip_chars r = r /\ PyStr.rstrip_chars r = r.
Proof.
  cbv zeta. set (l' := PyStr.lstrip_chars l). unfold PyStr.rstrip_chars.
  set (k := PyStr.lstrip_chars (rev l')).
  assert (Hk : PyStr.lstrip_chars k = k) by (apply lstrip_chars_fixed, lstrip_chars_head).
  split.
  - destruct (lstrip_chars_suffix (rev l')) as [pre E]. fold k in E.
    assert (L : l' = rev k ++ rev pre).
    { rewrite <- rev_app_distr, <- E. symmetry. apply rev_involutive. }
    apply lstrip_chars_fixed. pose proof (lstrip_chars_head l) as H. fold l' in H.
    rewrite L in H. now destruct (rev k).
  - now rewrite rev_involutive, Hk.
Qed.

Lemma strip_strip s : PyStr.strip (PyStr.strip s) = PyStr.strip s.
Proof.
  unfold PyStr.strip. rewrite list_ascii_of_string_of_list_ascii.
  destruct (strip_chars_fixed (list_ascii_of_string s)) as [L R].
  now rewrite L, R.
Qed.

Lemma inner_text_stripped p : PyStr.strip (_inner_text_once p) = _inner_text_once p.
Proof.
  unfold _inner_text_once. cbv zeta.
  destruct (_ && _); apply strip_strip.
Qed.

Lemma clause_label_not_empty c : clause_label c <> "".
Proof.
  unfold clause_label. destruct c as [c|]; [|discriminate].
  destruct c; [discriminate|]. cbn. discriminate.
Qed.

(** *** Every tuple *)

Section Walk.
Variable rewalk : string -> nat -> option (list Subquery).
Variable P : Subquery -> Prop.

Hypothesis tuple_ok : forall tok c d, P (_inner_text_once tok, clause_label c, S d).
Hypothesis rewalk_ok : forall s d rs, rewalk s d = Some rs -> Forall P rs.

Lemma walk_tokens_all ts :
  Forall (fun t => forall c d rs, _walk rewalk t c d = Some rs -> Forall P rs) ts ->
  forall c d rs, walk_tokens rewalk (_walk rewalk) ts c d = Some rs -> Forall P rs.
Proof.
  induction 1 as [|t ts Ht _ IH]; intros c d rs.
  - intros [= <-]. constructor.
  - destruct t as [ty v|cls toks].
    + rewrite walk_leaf. destruct (is_whitespace (Leaf ty v)); apply IH.
    + destruct (is_subquery (Group cls toks)) eqn:Q.
      * rewrite (walk_subquery _ _ _ _ _ Q).
        destruct (rewalk _ _) as [deeper|] eqn:R; [|discriminate]. cbn.
        destruct (walk_tokens _ _ ts c d) as [after|] eqn:A; [|discriminate].
        intros [= <-]. constructor; [apply tuple_ok|]. apply Forall_app. split.
        -- now apply (rewalk_ok _ _ _ R).
        -- now apply (IH _ _ _ A).
      * rewrite (walk_group _ _ _ _ _ _ Q).
        destruct (walk_tokens _ _ toks _ d) as [here|] eqn:W; [|discriminate]. cbn.
        destruct (walk_tokens _ _ ts _ d) as [after|] eqn:A; [|discriminate].
        intros [= <-]. apply Forall_app. split.
        -- now apply (Ht _ _ _ W).
        -- now apply (IH _ _ _ A).
Qed.

Lemma walk_all t c d rs : _walk rewalk t c d = Some rs -> Forall P rs.
Proof.
  revert c d rs. induction t as [ty v|cls ts IH] using token_groups_ind; intros c d rs.
  - intros [= <-]. constructor.
  - cbn [_walk]. now apply walk_tokens_all.
Qed.

Lemma walk_statements_all stmts d rs :
  walk_statements rewalk stmts d = Some rs -> Forall P rs.
Proof.
  revert rs. induction stmts as [|s stmts IH]; intros rs.
  - intros [= <-]. constructor.
  - cbn [walk_statements].
    destruct (_walk rewalk s None d) as [here|] eqn:W; [|discriminate]. cbn.
    destruct (walk_statements rewalk stmts d) as [after|]; [|discriminate].
    intros [= <-]. apply Forall_app. split; [now apply (walk_all _ _ _ _ W)|now apply IH].
Qed.

End Walk.

Lemma walk_text_all parse (P : Subquery -> Prop) :
  (forall tok c d, P (_inner_text_once tok, clause_label c, S d)) ->
  forall fuel sql d rs, walk_text parse fuel sql d = Some rs -> Forall P rs.
Proof.
  intros T. induction fuel as [|f IH]; intros sql d rs; [discriminate|].
  cbn [walk_text]. now apply walk_statements_all.
Qed.

(** Every tuple [extract_subqueries_tokens] reports has a text with no
    blank at either end (stripping it again changes nothing) and a clause
    that is not the empty string. *)
Theorem reported_tuples_clean parse sql rs :
  extract_subqueries_tokens parse sql = Some rs ->
  Forall (fun r => PyStr.strip (fst (fst r)) = fst (fst r) /\ snd (fst r) <> "") rs.
Proof.
  apply walk_text_all. intros tok c d. cbn [fst snd]. split.
  - apply inner_text_stripped.
  - apply clause_label_not_empty.
Qed.

(** The query of the spec, with [parse_queries]. *)
Lemma reported_tuples_clean_witness :
  Forall (fun r : Subquery => PyStr.strip (fst (fst r)) = fst (fst r) /\ snd (fst r) <> "")
    [("SELECT id FROM u WHERE x IN (SELECT y FROM v)", "IN", 1);
     ("SELECT y FROM v", "IN", 2)].
Proof.
  apply (reported_tuples_clean Examples.parse_queries (Examples.text_of Examples.query_t)).
  reflexivity.
Defined.

End SubqueryTuples.

(* ===================================================================== *)
(** ** What every catalog built from SQL satisfies *)
(* ===================================================================== *)

Module BuilderInvariants.
Import Sqlglot Builder BuilderFacts CatalogFacts.

Section Generator.
Variable sql_of : Value -> string.

(** *** One column *)

Lemma resolve_foreign_key_whole sp fks c n a b k :
  resolve_foreign_key sql_of sp fks c n = Ok (a, b, k) ->
  (a = None /\ b = None /\ k = None) \/ (exists x y z, a = Some x /\ b = Some y /\ k = Some z).
Proof.
  unfold resolve_foreign_key.
  destruct (first_kind Reference (Sqlglot.constraints c)) as [fk|]; ok; [|discriminate].
  destruct (negb (is_none fk)).
  - destruct (get_kind fk) as [r|]; ok; [|discriminate].
    destruct (isinstance r Reference); ok; [|discriminate].
    destruct (isinstance (this r) Schema); ok; [|discriminate].
    destruct (isinstance (this (this r)) Table); ok; [|discriminate].
    destruct (_get_schema_name sql_of (this (this r)) sp) as [x|]; ok; [|discriminate].
    destruct (_get_table_name sql_of (this (this r))) as [y|]; ok; [|discriminate].
    destruct (expressions (this r)) as [|i rest]; ok; [discriminate|].
    destruct (isinstance i Identifier); ok; [|discriminate].
    destruct (_get_identifier_name i) as [z|]; ok; [|discriminate].
    intros [= <- <- <-]. right. now exists x, y, z.
  - destruct (fks !! n) as [[[x y] z]|]; intros [= <- <- <-]; [right; now exists x, y, z|now left].
Qed.

Lemma process_column_emits sp s t fks st c st' :
  process_column sql_of sp s t fks st c = Ok st' ->
  exists col is_not_null,
    calls st' = calls st ++ [Catalog.AddColumn s t col]
    /\ _get_column_name sql_of c = Ok (Catalog.name col)
    /\ Catalog.real_name col = Catalog.name col
    /\ any_kind NotNullColumnConstraint (Sqlglot.constraints c) = Ok is_not_null
    /\ Catalog.is_nullable col = negb is_not_null
    /\ _extract_datatype c
       = Ok (Catalog.column_type col, Catalog.numeric_precision col, Catalog.numeric_scale col)
    /\ Catalog.reference_whole col = true
    /\ pk_col_names st ⊆ pk_col_names st'.
Proof.
  unfold process_column.
  destruct (_get_column_name sql_of c) as [n|]; ok; [|discriminate].
  destruct (any_kind PrimaryKeyColumnConstraint (Sqlglot.constraints c)) as [is_pk|];
    ok; [|discriminate].
  destruct (any_kind UniqueColumnConstraint (Sqlglot.constraints c)) as [is_unique|];
    ok; [|discriminate].
  destruct (any_kind NotNullColumnConstraint (Sqlglot.constraints c)) as [is_not_null|];
    ok; [|discriminate].
  destruct (resolve_foreign_key sql_of sp fks c n) as [[[a b] k]|] eqn:R; ok; [|discriminate].
  destruct (_extract_datatype c) as [[[ty p] sc]|]; ok; [|discriminate].
  intros [= <-]. eexists _, is_not_null. cbn.
  repeat (split; [reflexivity|]). split.
  - unfold Catalog.reference_whole. cbn.
    destruct (resolve_foreign_key_whole _ _ _ _ _ _ _ R)
      as [[-> [-> ->]]|[x [y [z [-> [-> ->]]]]]]; reflexivity.
  - destruct is_pk; set_solver.
Qed.

(** *** The calls of a statement *)

(** A call that adds a column to the table [t] of [s], with a whole
    foreign-key reference and its name as its [real_name]. *)
Definition column_call (s t : string) (c : Catalog.Call) : Prop :=
  exists col, c = Catalog.AddColumn s t col
              /\ Catalog.reference_whole col = true
              /\ Catalog.real_name col = Catalog.name col.

Lemma process_columns_calls sp s t fks cols st st' :
  foldM (process_column sql_of sp s t fks) cols st = Ok st' ->
  exists new, calls st' = calls st ++ new /\ Forall (column_call s t) new.
Proof.
  revert st. induction cols as [|c cols IH]; intros st.
  - intros [= <-]. exists []. now rewrite app_nil_r.
  - cbn [foldM]. destruct (process_column sql_of sp s t fks st c) as [st1|] eqn:E;
      ok; [|discriminate].
    intros H. apply IH in H as [new [-> F]].
    apply process_column_emits in E as [col [nn [-> [_ [R [_ [_ [_ [W _]]]]]]]]].
    exists (Catalog.AddColumn s t col :: new). split; [now rewrite <- app_assoc|].
    constructor; [now exists col|exact F].
Qed.

(** What the body of the loop over the statements adds to the calls made
    before it, on any tree: calls for columns, one PRIMARY_KEY constraint on
    a set that is not empty, then UNIQUE constraints, all on one table. *)
Lemma build_table_log sp log stmt log' :
  build_table sql_of sp log stmt = Ok log' ->
  exists s t cols pks uqs,
    log' = log ++ cols
               ++ [Catalog.AddUniqueConstraint s t pks Catalog.PRIMARY_KEY]
               ++ List.map (fun u => Catalog.AddUniqueConstraint s t u Catalog.UNIQUE) uqs
    /\ pks <> ∅ /\ Forall (column_call s t) cols.
Proof.
  unfold build_table. cbv zeta.
  destruct (negb (is_none (find stmt Table))); ok; [|discriminate].
  destruct (_get_table_name sql_of (find stmt Table)) as [t|]; ok; [|discriminate].
  destruct (_get_schema_name sql_of (find stmt Table) sp) as [s|]; ok; [|discriminate].
  destruct (foldM (scan_foreign_key sql_of sp) _ ∅) as [fks|]; ok; [|discriminate].
  destruct (foldM (process_column sql_of sp s t fks) _ _) as [st|] eqn:P; ok; [|discriminate].
  match goal with |- context [mbind _ ?m] => destruct m as [pks|] end; ok; [|discriminate].
  destruct (foldM add_unique _ _) as [uqs|]; ok; [|discriminate].
  destruct (bool_decide (pks = ∅)) eqn:E; ok; [discriminate|].
  intros [= <-]. apply process_columns_calls in P as [cols [-> F]]. cbn [calls].
  exists s, t, cols, pks, uqs. split; [now rewrite <- app_assoc|]. split; [|exact F].
  now apply bool_decide_eq_false in E.
Qed.

(** *** The calls of a build *)

(** A call as the builder makes them: a column with a whole reference, or a
    PRIMARY_KEY constraint on a set that is not empty, or a UNIQUE constraint. *)
Definition call_ok (c : Catalog.Call) : Prop :=
  match c with
  | Catalog.AddColumn _ _ col =>
      Catalog.reference_whole col = true /\ Catalog.real_name col = Catalog.name col
  | Catalog.AddUniqueConstraint _ _ cols Catalog.PRIMARY_KEY => cols <> ∅
  | Catalog.AddUniqueConstraint _ _ _ Catalog.UNIQUE => True
  end.

(** Every table a call of [log] is made on gets a PRIMARY_KEY constraint by
    a call of [log]. *)
Definition keyed (log : list Catalog.Call) : Prop :=
  forall c, In c log ->
    exists pks,
      In (Catalog.AddUniqueConstraint (fst (Catalog.call_target c)) (snd (Catalog.call_target c))
            pks Catalog.PRIMARY_KEY) log.

Lemma keyed_app l1 l2 : keyed l1 -> keyed l2 -> keyed (l1 ++ l2).
Proof.
  intros K1 K2 c I. apply in_app_or in I as [I|I].
  - destruct (K1 c I) as [pks H]. exists pks. apply in_or_app. now left.
  - destruct (K2 c I) as [pks H]. exists pks. apply in_or_app. now right.
Qed.

Lemma build_table_invariant sp log stmt log' :
  build_table sql_of sp log stmt = Ok log' ->
  Forall call_ok log -> keyed log -> Forall call_ok log' /\ keyed log'.
Proof.
  intros B F K. apply build_table_log in B as [s [t [cols [pks [uqs [-> [N C]]]]]]].
  split.
  - rewrite !Forall_app. split; [exact F|]. split; [|split].
    + eapply List.Forall_impl; [|exact C]. intros c [col [-> [W R]]]. now split.
    + repeat constructor. exact N.
    + apply List.Forall_forall. intros c I. now apply in_map_iff in I as [u [<- _]].
  - apply keyed_app; [exact K|]. intros c I. exists pks.
    assert (T : Catalog.call_target c = (s, t)).
    { apply in_app_or in I as [I|I].
      - rewrite List.Forall_forall in C. now destruct (C _ I) as [col [-> _]].
      - apply in_app_or in I as [[<-|[]]|I]; [reflexivity|].
        now apply in_map_iff in I as [u [<- _]]. }
    rewrite T. apply in_or_app. right. apply in_or_app. left. now left.
Qed.

Lemma build_tables_invariant sp stmts log log' :
  foldM (build_table sql_of sp) stmts log = Ok log' ->
  Forall call_ok log -> keyed log -> Forall call_ok log' /\ keyed log'.
Proof.
  revert log. induction stmts as [|stmt stmts IH]; intros log.
  - intros [= <-]. now split.
  - cbn [foldM]. destruct (build_table sql_of sp log stmt) as [log1|] eqn:B;
      ok; [|discriminate].
    intros H F K. destruct (build_table_invariant _ _ _ _ B F K) as [F1 K1].
    now apply (IH log1).
Qed.

(** The calls behind a catalog [build_catalog_from_statements] returns. *)
Lemma build_catalog_log stmts sp cat :
  build_catalog_from_statements sql_of stmts sp = Ok cat ->
  exists log, cat = Catalog.replay log /\ Forall call_ok log /\ keyed log.
Proof.
  unfold build_catalog_from_statements.
  destruct (filterM is_create_table stmts) as [l|]; ok; [|discriminate].
  destruct (foldM (build_table sql_of sp) l []) as [log|] eqn:B; ok; [|discriminate].
  intros [= <-]. exists log. split; [reflexivity|].
  apply (build_tables_invariant _ _ _ _ B); [constructor|]. intros c [].
Qed.

(** *** The tables of a catalog *)

Lemma targets_call_target s t c :
  Catalog.targets s t c = true <-> Catalog.call_target c = (s, t).
Proof.
  destruct c as [s' t' col|s' t' cols ct]; cbn; rewrite andb_true_iff, !String.eqb_eq;
    (split; [now intros [-> ->]|now intros [= -> ->]]).
Qed.

(** A table of the catalog a log of calls builds: the calls made on it are
    not none, and build it from the empty table. *)
Lemma table_of_replay log s t tbl :
  Catalog.table_of (Catalog.replay log) s t = Some tbl ->
  List.filter (Catalog.targets s t) log <> []
  /\ tbl = fold_left Catalog.apply_to_table (List.filter (Catalog.targets s t) log)
             Catalog.empty_table.
Proof.
  unfold Catalog.replay. rewrite table_of_calls.
  destruct (List.filter (Catalog.targets s t) log) as [|c l]; [discriminate|].
  cbn [Catalog.table_of Catalog.lookup default]. intros [= <-]. now split.
Qed.

Lemma table_columns_ok log s t tbl :
  Forall call_ok log ->
  Catalog.table_of (Catalog.replay log) s t = Some tbl ->
  Forall (fun col => Catalog.reference_whole col = true
                     /\ Catalog.real_name col = Catalog.name col)
    (Catalog.table_columns tbl).
Proof.
  intros F T. apply table_of_replay in T as [_ ->].
  rewrite columns_after_calls. cbn [Catalog.table_columns Catalog.empty_table app].
  apply List.Forall_forall. intros col I. apply in_flat_map in I as [c [I H]].
  apply filter_In in I as [I _]. rewrite List.Forall_forall in F. specialize (F _ I).
  destruct c as [s' t' col'|]; [|destruct H]. destruct H as [->|[]]. exact F.
Qed.

Lemma table_primary_keys log s t tbl :
  Forall call_ok log -> keyed log ->
  Catalog.table_of (Catalog.replay log) s t = Some tbl ->
  Catalog.constraints_of_type Catalog.PRIMARY_KEY tbl <> []
  /\ Forall (fun u => Catalog.columns u <> ∅)
       (Catalog.constraints_of_type Catalog.PRIMARY_KEY tbl).
Proof.
  intros F K T. apply table_of_replay in T as [N ->].
  unfold Catalog.constraints_of_type. rewrite constraints_after_calls.
  cbn [Catalog.unique_constraints Catalog.empty_table app]. split.
  - destruct (List.filter (Catalog.targets s t) log) as [|c l] eqn:E; [now destruct N|].
    assert (I : In c (List.filter (Catalog.targets s t) log)) by (rewrite E; now left).
    apply filter_In in I as [I Tc]. apply targets_call_target in Tc.
    destruct (K _ I) as [pks P]. rewrite Tc in P. cbn [fst snd] in P.
    assert (Q : In {| Catalog.columns := pks; Catalog.constraint_type := Catalog.PRIMARY_KEY |}
                  (List.filter (fun u => bool_decide (Catalog.constraint_type u = Catalog.PRIMARY_KEY))
                     (flat_map (fun c => match c with
                                          | Catalog.AddUniqueConstraint _ _ cols ct =>
                                              [{| Catalog.columns := cols;
                                                  Catalog.constraint_type := ct |}]
                                          | _ => []
                                          end)
                        (List.filter (Catalog.targets s t) log)))).
    { apply filter_In. split; [|reflexivity]. apply in_flat_map.
      exists (Catalog.AddUniqueConstraint s t pks Catalog.PRIMARY_KEY).
      split; [|now left]. apply filter_In. split; [exact P|].
      apply targets_call_target. reflexivity. }
    rewrite E in Q. intros Z. rewrite Z in Q. destruct Q.
  - apply List.Forall_forall. intros u I. apply filter_In in I as [I Pu].
    apply bool_decide_eq_true in Pu.
    apply in_flat_map in I as [c [I H]]. apply filter_In in I as [I _].
    rewrite List.Forall_forall in F. specialize (F _ I).
    destruct c as [|s' t' cols ct]; [destruct H|]. destruct H as [<-|[]].
    cbn in Pu. subst ct. exact F.
Qed.

(** Whatever the parsed statements are, in a catalog
    [build_catalog_from_statements] returns every table holds at least one
    PRIMARY_KEY constraint, and no PRIMARY_KEY constraint is on an empty set
    of columns. *)
Theorem tables_have_primary_key stmts sp cat s t tbl :
  build_catalog_from_statements sql_of stmts sp = Ok cat ->
  Catalog.table_of cat s t = Some tbl ->
  Catalog.constraints_of_type Catalog.PRIMARY_KEY tbl <> []
  /\ Forall (fun u => Catalog.columns u <> ∅)
       (Catalog.constraints_of_type Catalog.PRIMARY_KEY tbl).
Proof.
  intros B T. apply build_catalog_log in B as [log [-> [F K]]].
  now apply (table_primary_keys log s t).
Qed.

(** Whatever the parsed statements are, in a catalog
    [build_catalog_from_statements] returns the foreign-key reference of every
    column is whole (schema, table and column all present, or all absent), and
    the [real_name] of every column is its name. *)
Theorem columns_have_whole_references stmts sp cat s t tbl :
  build_catalog_from_statements sql_of stmts sp = Ok cat ->
  Catalog.table_of cat s t = Some tbl ->
  Forall (fun col => Catalog.reference_whole col = true
                     /\ Catalog.real_name col = Catalog.name col)
    (Catalog.table_columns tbl).
Proof.
  intros B T. apply build_catalog_log in B as [log [-> [F _]]].
  now apply (table_columns_ok log s t).
Qed.

End Generator.

(** The statements [other_table; merged_key] and the table [t]. *)
Lemma tables_have_primary_key_witness :
  exists cat tbl,
    build_catalog_from_statements Examples.no_sql
      [Ddl.create_ast Examples.other_table; Ddl.create_ast Examples.merged_key] "public"
    = Ok cat
    /\ Catalog.table_of cat "public" "t" = Some tbl
    /\ Catalog.constraints_of_type Catalog.PRIMARY_KEY tbl <> []
    /\ Forall (fun u => Catalog.columns u <> ∅)
         (Catalog.constraints_of_type Catalog.PRIMARY_KEY tbl).
Proof.
  eexists _, _. split; [reflexivity|]. split; [reflexivity|].
  eapply (tables_have_primary_key Examples.no_sql
           [Ddl.create_ast Examples.other_table; Ddl.create_ast Examples.merged_key]
           "public" _ "public" "t"); reflexivity.
Defined.

(** The statement [both_references] and its table. *)
Lemma columns_have_whole_references_witness :
  exists cat tbl,
    build_catalog_from_statements Examples.no_sql
      [Ddl.create_ast Examples.both_references] "public" = Ok cat
    /\ Catalog.table_of cat "public" "t" = Some tbl
    /\ Forall (fun col => Catalog.reference_whole col = true
                          /\ Catalog.real_name col = Catalog.name col)
         (Catalog.table_columns tbl).
Proof.
  eexists _, _. split; [reflexivity|]. split; [reflexivity|].
  eapply (columns_have_whole_references Examples.no_sql
           [Ddl.create_ast Examples.both_references] "public" _ "public" "t"); reflexivity.
Defined.

End BuilderInvariants.

(* ===================================================================== *)
(** ** The builder on the statements of a text *)
(* ===================================================================== *)

Module BuilderOutcomes.
Import Sqlglot Builder Ddl BuilderFacts CatalogFacts BuilderStatements.

(** *** Which inputs are accepted *)

Lemma table_outcome_cases sp log d :
  table_outcome sp log d
  = if accepted d then Ok (log ++ table_calls sp d) else Raise (rejection d).
Proof.
  unfold table_outcome, accepted, rejection.
  destruct (existsb has_unique (columns_of d)); [reflexivity|].
  now destruct (bool_decide (pk_names d = ∅)).
Qed.

Lemma tables_outcome_cases sp ds log :
  tables_outcome sp log ds
  = match List.find (fun d => negb (accepted d)) ds with
    | None => Ok (log ++ flat_map (table_calls sp) ds)
    | Some d => Raise (rejection d)
    end.
Proof.
  unfold tables_outcome. revert log. induction ds as [|d ds IH]; intros log.
  - cbn. now rewrite app_nil_r.
  - cbn [foldM List.find flat_map]. rewrite table_outcome_cases.
    destruct (accepted d); cbn [negb]; ok; [|reflexivity].
    rewrite IH. destruct (List.find _ ds); [reflexivity|]. now rewrite <- app_assoc.
Qed.

Section Generator.
Variable sql_of : Value -> string.

(** On the trees [create_ast] gives for statements of [Ddl.CreateTable]
    (every column with a type; inline PRIMARY KEY, UNIQUE, NOT NULL,
    AUTO_INCREMENT and REFERENCES with a list of columns; table-level PRIMARY
    KEY, FOREIGN KEY and UNIQUE clauses without a CONSTRAINT name), the
    builder returns a catalog exactly when every statement declares a primary
    key (inline or in a table-level PRIMARY KEY) and no column carries an
    inline UNIQUE marker: the catalog is then the one the calls of the
    statements build, statement after statement. Otherwise it raises the
    assertion of the first statement that is not so, whatever the statements
    after it. Statements outside this fragment can fail on other assertions
    (a column without a type, a REFERENCES without columns). *)
Theorem statements_outcome sp ds :
  build_catalog_from_statements sql_of (List.map create_ast ds) sp
  = match List.find (fun d => negb (accepted d)) ds with
    | None => Ok (Catalog.replay (flat_map (table_calls sp) ds))
    | Some d => Raise (rejection d)
    end.
Proof.
  rewrite build_catalog_create, tables_outcome_cases.
  now destruct (List.find _ ds).
Qed.

(** *** The tables of the catalog *)









(** *** Table-level foreign keys of unequal lengths *)




(** *** The shape of the columns of an accepted statement *)

Lemma foldM_ok_each {S A} (f : S -> A -> result S) (l : list A) (s s' : S) :
  foldM f l s = Ok s' -> Forall (fun x => exists s1 s2, f s1 x = Ok s2) l.
Proof.
  revert s. induction l as [|x l IH]; intros s; [constructor|].
  cbn [foldM]. destruct (f s x) as [s1|] eqn:E; ok; [|discriminate].
  intros H. constructor; [now exists s, s1|now apply (IH s1)].
Qed.

(** The inline REFERENCES of a column definition, if it has one, holds a
    Schema over a Table, with a first column that is an Identifier. *)
Definition reference_shape (column_exp : Value) : Prop :=
  forall fk_constraint,
    first_kind Reference (Sqlglot.constraints column_exp) = Ok fk_constraint ->
    is_none fk_constraint = false ->
    isinstance (this (kind fk_constraint)) Schema = true
    /\ isinstance (this (this (kind fk_constraint))) Table = true
    /\ exists fk_column_exp rest,
        expressions (this (kind fk_constraint)) = fk_column_exp :: rest
        /\ isinstance fk_column_exp Identifier = true.

Lemma get_kind_kind c k : get_kind c = Ok k -> k = kind c.
Proof. destruct c as [| | | |vs|[] a]; try discriminate; now intros [= <-]. Qed.

Lemma resolve_foreign_key_shape sp fks c n r :
  resolve_foreign_key sql_of sp fks c n = Ok r -> reference_shape c.
Proof.
  unfold resolve_foreign_key, reference_shape. intros H fk F N. rewrite F in H.
  revert H. ok. rewrite N. cbn [negb].
  destruct (get_kind fk) as [k|] eqn:K; ok; [|discriminate].
  apply get_kind_kind in K. subst k.
  destruct (isinstance (kind fk) Reference); ok; [|discriminate].
  destruct (isinstance (this (kind fk)) Schema); ok; [|discriminate].
  destruct (isinstance (this (this (kind fk))) Table); ok; [|discriminate].
  destruct (_get_schema_name sql_of (this (this (kind fk))) sp) as [x|]; ok; [|discriminate].
  destruct (_get_table_name sql_of (this (this (kind fk)))) as [y|]; ok; [|discriminate].
  destruct (expressions (this (kind fk))) as [|i rest]; ok; [discriminate|].
  destruct (isinstance i Identifier) eqn:I; ok; [|discriminate].
  intros _. split; [reflexivity|]. split; [reflexivity|]. now exists i, rest.
Qed.

Lemma process_column_shape sp s t fks st c st' :
  process_column sql_of sp s t fks st c = Ok st' ->
  isinstance (kind c) DataType = true /\ reference_shape c.
Proof.
  unfold process_column.
  destruct (_get_column_name sql_of c) as [n|]; ok; [|discriminate].
  destruct (any_kind PrimaryKeyColumnConstraint (Sqlglot.constraints c)) as [is_pk|];
    ok; [|discriminate].
  destruct (any_kind UniqueColumnConstraint (Sqlglot.constraints c)) as [is_unique|];
    ok; [|discriminate].
  destruct (any_kind NotNullColumnConstraint (Sqlglot.constraints c)) as [is_not_null|];
    ok; [|discriminate].
  destruct (resolve_foreign_key sql_of sp fks c n) as [[[a b] k]|] eqn:R; ok; [|discriminate].
  apply resolve_foreign_key_shape in R.
  unfold _extract_datatype. cbv zeta.
  destruct (isinstance (kind c) DataType); ok; [|discriminate].
  intros _. now split.
Qed.

(** The body of the loop over the statements returns, on any tree, only if
    every column definition of the statement has a [DataType] for its type
    and an inline REFERENCES, where there is one, that holds a Schema over a
    Table with a first column that is an Identifier: a column without a type,
    or a reference without a column list, makes the call raise. *)
Theorem accepted_columns_shape sp log statement log' :
  build_table sql_of sp log statement = Ok log' ->
  Forall (fun column_exp =>
            isinstance (kind column_exp) DataType = true /\ reference_shape column_exp)
    (find_all statement ColumnDef).
Proof.
  unfold build_table. cbv zeta.
  destruct (negb (is_none (find statement Table))); ok; [|discriminate].
  destruct (_get_table_name sql_of (find statement Table)) as [t|]; ok; [|discriminate].
  destruct (_get_schema_name sql_of (find statement Table) sp) as [s|]; ok; [|discriminate].
  destruct (foldM (scan_foreign_key sql_of sp) _ ∅) as [fks|]; ok; [|discriminate].
  destruct (foldM (process_column sql_of sp s t fks) _ _) as [st|] eqn:P; ok; [|discriminate].
  intros _. apply foldM_ok_each in P.
  eapply List.Forall_impl; [|exact P].
  intros c [s1 [s2 H]]. now apply process_column_shape in H.
Qed.

End Generator.



(** The columns of [both_references]. *)
Lemma accepted_columns_shape_witness :
  Forall (fun column_exp =>
            isinstance (kind column_exp) DataType = true /\ reference_shape column_exp)
    (find_all (create_ast Examples.both_references) ColumnDef).
Proof.
  apply (accepted_columns_shape Examples.no_sql "public" []
           (create_ast Examples.both_references)
           (table_calls "public" Examples.both_references)).
  reflexivity.
Defined.

End BuilderOutcomes.

(* ===================================================================== *)
(** ** [build_catalog] of postgres.py *)
(* ===================================================================== *)

Module PostgresFacts.
Import Postgres CatalogFacts.

(** *** The text of a column set *)

Lemma split_on_not_nil sep s : PyStr.split_on sep s <> [].
Proof.
  destruct s as [|c r]; [discriminate|]. cbn [PyStr.split_on].
  destruct (ascii_dec c sep); [discriminate|].
  destruct (PyStr.split_on sep r); discriminate.
Qed.

(** No character of [s] is [sep]. *)
Definition free_of (sep : ascii) (s : string) : Prop :=
  Forall (fun c => c <> sep) (list_ascii_of_string s).

Lemma split_on_free sep s : free_of sep s -> PyStr.split_on sep s = [s].
Proof.
  unfold free_of. induction s as [|c r IH]; [reflexivity|].
  cbn [list_ascii_of_string PyStr.split_on]. intros H. inversion H as [|? ? Hc Hr]. subst.
  destruct (ascii_dec c sep) as [E|_]; [now destruct Hc|]. now rewrite IH.
Qed.

Lemma split_on_piece sep s r :
  free_of sep s ->
  PyStr.split_on sep (String.append s (String sep r)) = s :: PyStr.split_on sep r.
Proof.
  unfold free_of. induction s as [|c s IH]; intros H.
  - simpl. destruct (ascii_dec sep sep) as [_|N]; [reflexivity|now destruct N].
  - simpl in *. inversion H as [|? ? Hc Hr]. subst.
    destruct (ascii_dec c sep) as [E|_]; [now destruct Hc|]. now rewrite IH.
Qed.

(** Splitting what [join] joined gives the pieces back. *)
Lemma split_on_join sep names :
  names <> [] -> Forall (free_of sep) names ->
  PyStr.split_on sep (PyStr.join (String sep EmptyString) names) = names.
Proof.
  induction names as [|n names IH]; [now intros H|]. intros _ F.
  inversion F as [|? ? Fn Fr]. subst. destruct names as [|m names].
  - now apply split_on_free.
  - change (PyStr.join (String sep EmptyString) (n :: m :: names))
      with (String.append n (String sep (PyStr.join (String sep EmptyString) (m :: names)))).
    rewrite split_on_piece by exact Fn.
    f_equal. now apply IH.
Qed.

Lemma lstrip_in_kept chars l :
  match l with c :: _ => PyStr.in_chars chars c = false | [] => True end ->
  PyStr.lstrip_in chars l = l.
Proof. destruct l as [|c r]; [reflexivity|]. cbn. now intros ->. Qed.

(** The braces around a text without braces are stripped, and nothing else. *)
Lemma strip_braces body :
  Forall (fun c => PyStr.in_chars "{}" c = false) (list_ascii_of_string body) ->
  PyStr.strip_of "{}" (String "{"%char (String.append body "}")) = body.
Proof.
  intros F. unfold PyStr.strip_of.
  cbn [list_ascii_of_string]. rewrite PyStrFacts.list_ascii_of_string_app. cbn [list_ascii_of_string].
  set (b := list_ascii_of_string body) in *.
  assert (L : PyStr.lstrip_in "{}" ("{"%char :: b ++ ["}"%char])
              = match b with [] => [] | _ => b ++ ["}"%char] end).
  { change (PyStr.lstrip_in "{}" ("{"%char :: b ++ ["}"%char]))
      with (PyStr.lstrip_in "{}" (b ++ ["}"%char])).
    destruct b as [|c r]; [reflexivity|]. apply lstrip_in_kept.
    now inversion F. }
  rewrite L. destruct b as [|c r] eqn:E.
  - cbn. subst b. destruct body; [reflexivity|discriminate E].
  - rewrite <- E in *. rewrite rev_app_distr. cbn [rev app].
    change (PyStr.lstrip_in "{}" ("}"%char :: rev b)) with (PyStr.lstrip_in "{}" (rev b)).
    rewrite lstrip_in_kept.
    + rewrite rev_involutive. subst b. apply string_of_list_ascii_of_string.
    + destruct (rev b) as [|x xs] eqn:R; [exact I|].
      rewrite List.Forall_forall in F. apply F. apply in_rev. rewrite R. now left.
Qed.

Lemma plain_name_chars n c :
  plain_name n = true -> In c (list_ascii_of_string n) -> PyStr.in_chars ",{}" c = false.
Proof.
  unfold plain_name. rewrite forallb_forall. intros H I. now apply negb_true_iff, H.
Qed.

Lemma in_chars_comma c : PyStr.in_chars ",{}" c = false -> c <> ","%char.
Proof. intros H ->. discriminate H. Qed.

Lemma in_chars_braces c : PyStr.in_chars ",{}" c = false -> PyStr.in_chars "{}" c = false.
Proof.
  unfold PyStr.in_chars. cbn [list_ascii_of_string existsb].
  destruct (ascii_dec ","%char c); cbn [orb]; [discriminate|trivial].
Qed.

Lemma join_chars names c :
  In c (list_ascii_of_string (PyStr.join "," names)) ->
  c = ","%char \/ exists n, In n names /\ In c (list_ascii_of_string n).
Proof.
  induction names as [|n names IH]; [intros []|].
  destruct names as [|m names].
  - intros I. right. exists n. split; [now left|exact I].
  - cbn [PyStr.join]. rewrite !PyStrFacts.list_ascii_of_string_app. cbn [list_ascii_of_string app].
    intros I. apply in_app_or in I as [I|[<-|I]].
    + right. exists n. split; [now left|exact I].
    + now left.
    + destruct (IH I) as [->|[k [Ik Ic]]]; [now left|].
      right. exists k. split; [now right|exact Ic].
Qed.

(** The text [{n1,n2,...}] of names that hold no comma and no brace is read
    back as the set of these names. *)
Theorem constraint_columns_array names :
  names <> [] -> forallb plain_name names = true ->
  constraint_columns (array_text names) = list_to_set names.
Proof.
  intros N P. unfold constraint_columns, array_text.
  rewrite forallb_forall in P. rewrite strip_braces.
  - rewrite split_on_join; [reflexivity|exact N|].
    apply List.Forall_forall. intros n I. apply List.Forall_forall. intros c Ic.
    apply in_chars_comma. now apply (plain_name_chars n); [apply P|].
  - apply List.Forall_forall. intros c I.
    destruct (join_chars _ _ I) as [->|[n [In_ Ic]]]; [reflexivity|].
    apply in_chars_braces. now apply (plain_name_chars n); [apply P|].
Qed.

(** The names [a] and [b]. *)
Lemma constraint_columns_array_witness :
  constraint_columns "{a,b}" = list_to_set ["a"; "b"].
Proof.
  apply (constraint_columns_array ["a"; "b"]); [discriminate|reflexivity].
Defined.

(** The set of columns [build_catalog] reads from a text is never empty:
    from a text without names, as [{}], it reads the set that holds the empty
    name. *)
Theorem constraint_columns_not_empty columns :
  constraint_columns columns <> ∅.
Proof.
  unfold constraint_columns.
  destruct (PyStr.split_on "," (PyStr.strip_of "{}" columns)) as [|n l] eqn:E.
  - now apply split_on_not_nil in E.
  - cbn [list_to_set]. set_solver.
Qed.

(** *** The tables of the catalog *)

Lemma fold_left_calls {A} (f : A -> Catalog.Call) (l : list A) (cat : Catalog.Catalog) :
  fold_left (fun result x => Catalog.apply_call result (f x)) l cat
  = fold_left Catalog.apply_call (List.map f l) cat.
Proof. revert cat. induction l as [|x l IH]; intros cat; [reflexivity|apply IH]. Qed.

Lemma build_catalog_replay columns_info unique_constraints_info :
  build_catalog columns_info unique_constraints_info
  = Catalog.replay (List.map add_column_call columns_info
                    ++ List.map add_constraint_call unique_constraints_info).
Proof.
  unfold build_catalog, Catalog.replay. cbv zeta.
  rewrite fold_left_app.
  rewrite (fold_left_calls add_column_call), (fold_left_calls add_constraint_call).
  reflexivity.
Qed.

Lemma filter_column_calls s t cs :
  List.filter (Catalog.targets s t) (List.map add_column_call cs)
  = List.map add_column_call (List.filter (column_on s t) cs).
Proof.
  induction cs as [|c cs IH]; [reflexivity|]. cbn [List.map List.filter].
  change (Catalog.targets s t (add_column_call c)) with (column_on s t c).
  destruct (column_on s t c); [cbn [List.map]; now rewrite IH|exact IH].
Qed.

Lemma filter_constraint_calls s t us :
  List.filter (Catalog.targets s t) (List.map add_constraint_call us)
  = List.map add_constraint_call (List.filter (constraint_on s t) us).
Proof.
  induction us as [|u us IH]; [reflexivity|]. cbn [List.map List.filter].
  change (Catalog.targets s t (add_constraint_call u)) with (constraint_on s t u).
  destruct (constraint_on s t u); [cbn [List.map]; now rewrite IH|exact IH].
Qed.

Lemma columns_of_calls cs us :
  flat_map (fun c => match c with Catalog.AddColumn _ _ col => [col] | _ => [] end)
    (List.map add_column_call cs ++ List.map add_constraint_call us)
  = List.map column_of_info cs.
Proof.
  rewrite flat_map_app.
  assert (U : flat_map (fun c => match c with Catalog.AddColumn _ _ col => [col] | _ => [] end)
                (List.map add_constraint_call us) = []).
  { induction us as [|u us IH]; [reflexivity|exact IH]. }
  rewrite U, app_nil_r. induction cs as [|c cs IH]; [reflexivity|]. cbn. now rewrite <- IH.
Qed.

Lemma constraints_of_calls cs us :
  flat_map (fun c => match c with
                     | Catalog.AddUniqueConstraint _ _ cols ct =>
                         [{| Catalog.columns := cols; Catalog.constraint_type := ct |}]
                     | _ => []
                     end)
    (List.map add_column_call cs ++ List.map add_constraint_call us)
  = List.map constraint_of_info us.
Proof.
  rewrite flat_map_app.
  assert (C : flat_map (fun c => match c with
                                 | Catalog.AddUniqueConstraint _ _ cols ct =>
                                     [{| Catalog.columns := cols; Catalog.constraint_type := ct |}]
                                 | _ => []
                                 end)
                (List.map add_column_call cs) = []).
  { induction cs as [|c cs IH]; [reflexivity|exact IH]. }
  rewrite C. cbn [app]. induction us as [|u us IH]; [reflexivity|]. cbn. now rewrite <- IH.
Qed.

(** The catalog [build_catalog] returns has a table under [(s, t)] exactly
    when a column row or a constraint row names it; its columns are the
    columns of the rows about it, in the order of the rows, and its
    constraints those of the constraint rows about it, in their order: the
    kind of a constraint is PRIMARY_KEY for the text [PRIMARY KEY] and UNIQUE
    for any other, and a table may have no PRIMARY_KEY constraint, or several. *)
Theorem build_catalog_tables columns_info unique_constraints_info s t :
  (Catalog.table_of (build_catalog columns_info unique_constraints_info) s t = None
   <-> List.filter (column_on s t) columns_info = []
       /\ List.filter (constraint_on s t) unique_constraints_info = [])
  /\ forall tbl,
      Catalog.table_of (build_catalog columns_info unique_constraints_info) s t = Some tbl ->
      Catalog.table_columns tbl
      = List.map column_of_info (List.filter (column_on s t) columns_info)
      /\ Catalog.unique_constraints tbl
         = List.map constraint_of_info
             (List.filter (constraint_on s t) unique_constraints_info).
Proof.
  rewrite build_catalog_replay. unfold Catalog.replay. rewrite table_of_calls.
  rewrite List.filter_app, filter_column_calls, filter_constraint_calls.
  cbn [Catalog.table_of Catalog.lookup default].
  set (cs := List.filter (column_on s t) columns_info).
  set (us := List.filter (constraint_on s t) unique_constraints_info).
  destruct (List.map add_column_call cs ++ List.map add_constraint_call us) as [|c l] eqn:E.
  - apply app_eq_nil in E as [Ec Eu]. apply map_eq_nil in Ec, Eu. rewrite Ec, Eu.
    split; [now split|discriminate].
  - split.
    + split; [discriminate|]. intros [Hc Hu]. rewrite Hc, Hu in E. discriminate E.
    + intros tbl H.
      assert (T : tbl = fold_left Catalog.apply_to_table (c :: l) Catalog.empty_table)
        by congruence.
      rewrite T, <- E.
      rewrite columns_after_calls, constraints_after_calls.
      cbn [Catalog.table_columns Catalog.unique_constraints Catalog.empty_table app].
      now rewrite columns_of_calls, constraints_of_calls.
Qed.

End PostgresFacts.

(* ===================================================================== *)
(** ** What [remove_ctes] renders *)
(* ===================================================================== *)

Module RemoveCtesRendering.
Import Extractors RemoveCtes.

Lemma get_pop_same a key : Sqlglot.get (pop a key) key = Sqlglot.VNone.
Proof.
  induction a as [|[k v] a IH]; [reflexivity|]. cbn [pop].
  destruct (String.eqb k key) eqn:E; [exact IH|]. cbn [Sqlglot.get]. now rewrite E.
Qed.

Lemma get_pop_other a key key' :
  key' <> key -> Sqlglot.get (pop a key) key' = Sqlglot.get a key'.
Proof.
  intros N. induction a as [|[k v] a IH]; [reflexivity|]. cbn [pop Sqlglot.get].
  destruct (String.eqb k key) eqn:E.
  - apply String.eqb_eq in E. subst k.
    destruct (String.eqb key key') eqn:E'; [|exact IH].
    apply String.eqb_eq in E'. now subst.
  - cbn [Sqlglot.get]. now rewrite IH.
Qed.

Lemma pop_absent {A} (a : list (string * A)) key :
  ~ In key (List.map fst a) -> pop a key = a.
Proof.
  induction a as [|[k v] a IH]; [reflexivity|]. cbn [List.map fst pop]. intros N.
  destruct (String.eqb k key) eqn:E.
  - apply String.eqb_eq in E. destruct N. now left.
  - rewrite IH; [reflexivity|]. intros I. apply N. now right.
Qed.

(** The run of [remove_ctes] on a tree the store holds. *)
Lemma remove_ctes_run sql_of fuel (h : Store) l c ta :
  read_tree fuel h l = Some (Sqlglot.VExp c ta) ->
  exists h2,
    remove_ctes sql_of fuel h (Some l)
    = Some (h2, sql_of (Sqlglot.VExp c (pop ta "with")))
    /\ h ⊆ h2.
Proof.
  intros R.
  destruct (deepcopy_spec _ _ _ _ _ R) as [h1 [a' [D [S1 T1]]]].
  set (l' := fresh_loc h1) in *.
  set (h2 := <[l' := {| obj_cls := c; obj_args := pop a' "with" |}]> h1).
  assert (S2 : h1 ⊆ h2) by apply fresh_loc_subseteq.
  assert (E2 : set_none (<[l' := {| obj_cls := c; obj_args := a' |}]> h1) l' "with" = h2).
  { unfold set_none. rewrite lookup_insert_eq. cbn. apply insert_insert_eq. }
  assert (L2 : h2 !! l' = Some {| obj_cls := c; obj_args := pop a' "with" |})
    by apply lookup_insert_eq.
  exists h2. split; [|now transitivity h1].
  unfold remove_ctes. rewrite D. cbn. rewrite E2.
  destruct fuel as [|f]; [discriminate|]. cbn [read_tree pred] in *.
  rewrite L2. cbn.
  erewrite read_args_mono; [reflexivity| |exact (read_args_pop _ _ _ "with" T1)].
  intros x tx. now apply read_tree_mono.
Qed.

(** [remove_ctes] renders a tree of the class of the input tree that has
    nothing under [with] and, under every other key, the argument of the input
    tree: only the WITH of the query itself is removed, a WITH inside a
    subquery is rendered. For a query without WITH the text is the rendering
    of the input tree. *)
Theorem remove_ctes_root_only sql_of fuel (h : Store) l t :
  read_tree fuel h l = Some t ->
  exists h' t',
    remove_ctes sql_of fuel h (Some l) = Some (h', sql_of t')
    /\ Sqlglot.arg t' "with" = Sqlglot.VNone
    /\ (forall key, key <> "with" -> Sqlglot.arg t' key = Sqlglot.arg t key)
    /\ (forall cls, Sqlglot.isinstance t' cls = Sqlglot.isinstance t cls)
    /\ (~ In "with" (List.map fst (Sqlglot.args_of t)) -> t' = t).
Proof.
  intros R. destruct (read_tree_exp _ _ _ _ R) as [c [ta ->]].
  destruct (remove_ctes_run sql_of _ _ _ _ _ R) as [h2 [E _]].
  exists h2, (Sqlglot.VExp c (pop ta "with")). split; [exact E|].
  unfold Sqlglot.arg. cbn [Sqlglot.args_of]. split; [apply get_pop_same|].
  split; [intros key N; now apply get_pop_other|]. split; [reflexivity|].
  intros N. now rewrite pop_absent.
Qed.

(** The query of [cte_store]: the tree rendered has its FROM and no WITH. *)
Lemma remove_ctes_root_only_witness :
  exists h' t',
    remove_ctes Examples.render_query 5 Examples.cte_store (Some 0)
    = Some (h', Examples.render_query t')
    /\ Sqlglot.arg t' "with" = Sqlglot.VNone
    /\ (forall key, key <> "with" -> Sqlglot.arg t' key = Sqlglot.arg Examples.cte_tree key)
    /\ (forall cls, Sqlglot.isinstance t' cls = Sqlglot.isinstance Examples.cte_tree cls)
    /\ (~ In "with" (List.map fst (Sqlglot.args_of Examples.cte_tree))
        -> t' = Examples.cte_tree).
Proof.
  apply (remove_ctes_root_only Examples.render_query 5 Examples.cte_store 0
           Examples.cte_tree).
  reflexivity.
Defined.

(** [remove_ctes] can be called again on the same tree, in the store the
    first call leaves, and returns the same text. *)
Theorem remove_ctes_repeatable sql_of fuel (h : Store) l t :
  read_tree fuel h l = Some t ->
  exists h1 h2 text,
    remove_ctes sql_of fuel h (Some l) = Some (h1, text)
    /\ remove_ctes sql_of fuel h1 (Some l) = Some (h2, text).
Proof.
  intros R. destruct (read_tree_exp _ _ _ _ R) as [c [ta ->]].
  destruct (remove_ctes_run sql_of _ _ _ _ _ R) as [h1 [E1 S1]].
  pose proof (read_tree_mono _ _ _ _ _ S1 R) as R1.
  destruct (remove_ctes_run sql_of _ _ _ _ _ R1) as [h2 [E2 _]].
  now exists h1, h2, (sql_of (Sqlglot.VExp c (pop ta "with"))).
Qed.

(** Two calls on the query of [cte_store]. *)
Lemma remove_ctes_repeatable_witness :
  exists h1 h2 text,
    remove_ctes Examples.render_query 5 Examples.cte_store (Some 0) = Some (h1, text)
    /\ remove_ctes Examples.render_query 5 h1 (Some 0) = Some (h2, text).
Proof.
  apply (remove_ctes_repeatable Examples.render_query 5 Examples.cte_store 0
           Examples.cte_tree).
  reflexivity.
Defined.

End RemoveCtesRendering.

(* ===================================================================== *)
(** ** Names: the case of identifiers and the search path *)
(* ===================================================================== *)

Module BuilderNames.
Import Sqlglot Builder Ddl BuilderFacts BuilderStatements.

(** *** The case of unquoted identifiers *)

Lemma lower_char_lower c : PyStr.lower_char (PyStr.lower_char c) = PyStr.lower_char c.
Proof.
  assert (G : forall n, n < 256 ->
            PyStr.lower_char (PyStr.lower_char (ascii_of_nat n))
            = PyStr.lower_char (ascii_of_nat n)).
  { intros n H. do 256 (destruct n as [|n]; [reflexivity|]). lia. }
  rewrite <- (ascii_nat_embedding c). apply G, nat_ascii_bounded.
Qed.

Lemma lower_lower s : PyStr.lower (PyStr.lower s) = PyStr.lower s.
Proof.
  induction s as [|c s IH]; [reflexivity|]. cbn [PyStr.lower].
  now rewrite lower_char_lower, IH.
Qed.






















Section Generator.
Variable sql_of : Value -> string.


(** *** Names on any tree *)

Lemma identifier_name_lower e n :
  _get_identifier_name e = Ok n -> quoted e = false -> PyStr.lower n = n.
Proof.
  unfold _get_identifier_name. destruct e as [| | | |vs|[] a]; try discriminate.
  intros H Q. rewrite Q in H. injection H as <-. apply lower_lower.
Qed.

(** On any tree, the name [_get_table_name] or [_get_column_name] returns is
    in lower case unless the node's [this] is a quoted Identifier, and the
    schema [_get_schema_name] returns is the default schema it was given or a
    name in lower case. *)
Theorem names_are_lower_case :
  (forall table_exp n,
      _get_table_name sql_of table_exp = Ok n ->
      isinstance (this table_exp) Identifier && quoted (this table_exp) = false ->
      PyStr.lower n = n)
  /\ (forall column_exp n,
        _get_column_name sql_of column_exp = Ok n ->
        isinstance (this column_exp) Identifier && quoted (this column_exp) = false ->
        PyStr.lower n = n)
  /\ (forall table_exp default_schema n,
        _get_schema_name sql_of table_exp default_schema = Ok n ->
        n = default_schema \/ PyStr.lower n = n).
Proof.
  assert (G : forall e n,
             (if isinstance (this e) Identifier then _get_identifier_name (this e)
              else Ok (PyStr.lower (py_str sql_of (this e)))) = Ok n ->
             isinstance (this e) Identifier && quoted (this e) = false ->
             PyStr.lower n = n).
  { intros e n. destruct (isinstance (this e) Identifier); cbn [andb].
    - apply identifier_name_lower.
    - intros [= <-] _. apply lower_lower. }
  split; [exact G|]. split; [exact G|].
  intros t sp n. unfold _get_schema_name. cbv zeta.
  destruct (PyStr.truthy (db t)); [|intros [= <-]; now left].
  cbn [isinstance]. intros [= <-]. right. apply lower_lower.
Qed.

(** *** The search path *)









End Generator.



End BuilderNames.
